(** * rag-mongo-demo: ingestion, fusion and deduplication core

    A shallow embedding of the parts of the Express server and of the batch
    embedding scripts that the specification talks about:

    - [JS]      string and [Map]/[Set] helpers the routes rely on;
    - [Dedup]   [calculateTextSimilarity] and [POST /api/search/deduplicate];
    - [Fusion]  score normalisation and fusion of [POST /api/search/rerank]
                and [POST /api/search/hybrid];
    - [Ingest]  the retry loops and bulk writers of the batch scripts;
    - [Jobs]    the in-memory job registry, [processEmbeddings], and its run
                in the background of the server, beside the sweep's timer;
    - [Pipeline] the main loop of the batch scripts;
    - [Search]  [validateDbCollectionIndex] and the sizing of the vector
                searches.

    Conventions.  JavaScript numbers that hold scores, weights and similarity
    quotients are exact rationals ([Q], compared with [==]); counters and
    ranks are [nat]; delays and timestamps in milliseconds are [Z].  Strings
    are sequences of 8-bit code units read as Latin-1.  A JavaScript [Map]
    whose iteration order is observed is an association list with the
    insertion-order semantics of [Map.prototype.set]; the job registry, whose
    order is never observed by the modelled code, is a [gmap]. *)

From Stdlib Require Import ZArith QArith Qminmax Qround Qabs List String Ascii Lia Sorted
  Permutation.
From stdpp Require Import gmap strings list pretty.
Import ListNotations.

(* ===================================================================== *)
(** * JavaScript helpers *)
(* ===================================================================== *)

Module JS.

(** [String.prototype.toLowerCase] on Latin-1 code units: [A-Z] and the
    accented capitals U+00C0..U+00DE (U+00D7, the multiplication sign,
    excepted) move up by 32. *)
Definition lower_char (c : ascii) : ascii :=
  let n := nat_of_ascii c in
  if ((65 <=? n) && (n <=? 90))%nat
     || ((192 <=? n) && (n <=? 222) && negb (n =? 215))%nat
  then ascii_of_nat (n + 32) else c.

Fixpoint toLowerCase (s : string) : string :=
  match s with
  | EmptyString => EmptyString
  | String c s' => String (lower_char c) (toLowerCase s')
  end.

(** The character class [\s], restricted to Latin-1. *)
Definition is_space (c : ascii) : bool :=
  let n := nat_of_ascii c in
  ((9 <=? n) && (n <=? 13) || (n =? 32) || (n =? 160))%nat.

(** [s.split(/\s+/)]: maximal runs of white space separate the pieces; a
    leading or trailing run leaves an empty piece, and the empty string
    splits into one empty piece.  [cur] is the piece being read, [in_sep]
    tells whether the previous character belonged to a separator. *)
Fixpoint split_go (s : string) (cur : string) (in_sep : bool) : list string :=
  match s with
  | EmptyString => [cur]
  | String c rest =>
      if is_space c
      then if in_sep then split_go rest EmptyString true
           else cur :: split_go rest EmptyString true
      else split_go rest (cur +:+ String c EmptyString) false
  end.

Definition split_ws (s : string) : list string := split_go s EmptyString false.

(** [Set]: distinct values in insertion order. *)
Definition Set_has (x : string) (s : list string) : bool :=
  existsb (String.eqb x) s.

Definition Set_add (s : list string) (x : string) : list string :=
  if Set_has x s then s else s ++ [x].

Definition Set_from (l : list string) : list string := fold_left Set_add l [].

(** [Map] with string keys: [set] on a present key replaces the value where
    it stands, on a fresh key appends. *)
Section StringMap.
Context {V : Type}.

Fixpoint Map_get (k : string) (m : list (string * V)) : option V :=
  match m with
  | [] => None
  | (k', v) :: m' => if String.eqb k k' then Some v else Map_get k m'
  end.

Definition Map_has (k : string) (m : list (string * V)) : bool :=
  match Map_get k m with Some _ => true | None => false end.

Fixpoint Map_set (k : string) (v : V) (m : list (string * V)) : list (string * V) :=
  match m with
  | [] => [(k, v)]
  | (k', v') :: m' =>
      if String.eqb k k' then (k', v) :: m' else (k', v') :: Map_set k v m'
  end.

Definition Map_values (m : list (string * V)) : list V := map snd m.
End StringMap.

(** [x.toFixed(fractionDigits)] for a number below [10^21].  [nearest f x]
    is the integer [n] for which [n / 10^f] is nearest to [|x|], the larger
    one when two are as near; it is printed with the decimal point before
    its last [f] digits, behind a minus sign when [x < 0]. *)
Definition nearest (fractionDigits : nat) (x : Q) : Z :=
  Qfloor (Qabs x * inject_Z (10 ^ Z.of_nat fractionDigits) + (1 # 2)).

Fixpoint zeros (n : nat) : string :=
  match n with
  | O => EmptyString
  | S n' => String "0" (zeros n')
  end.

Definition padStart (width : nat) (digits : string) : string :=
  zeros (width - String.length digits) +:+ digits.

Definition toFixed (fractionDigits : nat) (x : Q) : string :=
  let scale := (10 ^ Z.of_nat fractionDigits)%Z in
  let n := nearest fractionDigits x in
  let sign := if Qle_bool 0 x then EmptyString else "-"%string in
  match fractionDigits with
  | O => sign +:+ pretty n
  | S _ => sign +:+ pretty (n / scale)%Z +:+ "." +:+
           padStart fractionDigits (pretty (n mod scale)%Z)
  end.

(** What the code asks of its surroundings (the document store, the
    embedding provider, the file system), with the answer each call gets: a
    call returns or throws. *)
Inductive outcome (A : Type) :=
| Returned (a : A)
| Threw (message : string).
Arguments Returned {A} a.
Arguments Threw {A} message.

End JS.

(* ===================================================================== *)
(** * Deduplicator *)
(* ===================================================================== *)

Module Dedup.
Import JS.

(** One search result as the route reads it: [result.id] and [result.title]
    may be absent; the remaining fields travel along untouched. *)
Record result := {
  r_id : option string;
  r_title : option string;
  r_fields : list (string * string)
}.

(** An entry of [duplicates]: the result spread, plus [duplicateOf] and the
    similarity that triggered the match, as the string that
    [similarity.toFixed(3)] prints. *)
Record duplicate := {
  d_result : result;
  duplicateOf : option string;
  similarity : string
}.

(** [calculateTextSimilarity(text1, text2)] *)
Definition calculateTextSimilarity (text1 text2 : string) : Q :=
  let words1 := Set_from (split_ws (toLowerCase text1)) in
  let words2 := Set_from (split_ws (toLowerCase text2)) in
  let intersection := Set_from (List.filter (fun x => Set_has x words2) words1) in
  let union := Set_from (words1 ++ words2) in
  inject_Z (Z.of_nat (length intersection)) / inject_Z (Z.of_nat (length union)).

(** [result.title?.toLowerCase() || ''] *)
Definition title_key (r : result) : string :=
  match r_title r with
  | Some t => toLowerCase t
  | None => EmptyString
  end.

(** The inner loop over [seenTitles.entries()]: the first seen entry whose
    similarity reaches the threshold, with that similarity. *)
Fixpoint find_duplicate (threshold : Q) (title : string)
    (seen : list (string * result)) : option (result * Q) :=
  match seen with
  | [] => None
  | (seenTitle, seenResult) :: rest =>
      let similarity := calculateTextSimilarity title seenTitle in
      if Qle_bool threshold similarity then Some (seenResult, similarity)
      else find_duplicate threshold title rest
  end.

Record state := {
  deduplicated : list result;
  duplicates : list duplicate;
  seenTitles : list (string * result)
}.

Definition init : state :=
  {| deduplicated := []; duplicates := []; seenTitles := [] |}.

(** One iteration of [for (const result of results)]. *)
Definition step (threshold : Q) (st : state) (r : result) : state :=
  let title := title_key r in
  match find_duplicate threshold title (seenTitles st) with
  | Some (seenResult, sim) =>
      {| deduplicated := deduplicated st;
         duplicates := duplicates st ++
           [{| d_result := r; duplicateOf := r_id seenResult;
               similarity := toFixed 3 sim |}];
         seenTitles := seenTitles st |}
  | None =>
      {| deduplicated := deduplicated st ++ [r];
         duplicates := duplicates st;
         seenTitles := Map_set title r (seenTitles st) |}
  end.

Definition run (threshold : Q) (st : state) (results : list result) : state :=
  fold_left (step threshold) results st.

Definition deduplicate (threshold : Q) (results : list result) : state :=
  run threshold init results.

(** The route: a missing [results] array is a 400; [threshold] defaults to
    0.85. *)
Record stats := {
  originalCount : nat;
  deduplicatedCount : nat;
  duplicatesRemoved : nat
}.

Inductive response :=
| BadRequest (error : string)
| Ok (original : list result) (kept : list result) (dups : list duplicate) (st : stats).

Definition default_threshold : Q := 85 # 100.

Definition deduplicate_route (results : option (list result)) (threshold : option Q)
    : response :=
  match results with
  | None => BadRequest "Results array is required"
  | Some rs =>
      let out := deduplicate (default default_threshold threshold) rs in
      Ok rs (deduplicated out) (duplicates out)
         {| originalCount := length rs;
            deduplicatedCount := length (deduplicated out);
            duplicatesRemoved := length (duplicates out) |}
  end.

(** [Interleave l1 l2 l]: [l] is a merge of [l1] and [l2] that keeps the
    order of both, so every position of [l] goes to exactly one side. *)
Inductive Interleave {A : Type} : list A -> list A -> list A -> Prop :=
| Interleave_nil : Interleave [] [] []
| Interleave_left x l1 l2 l : Interleave l1 l2 l -> Interleave (x :: l1) l2 (x :: l)
| Interleave_right x l1 l2 l : Interleave l1 l2 l -> Interleave l1 (x :: l2) (x :: l).

End Dedup.

(* ===================================================================== *)
(** * Score normaliser and fusion engine *)
(* ===================================================================== *)

Module Fusion.
Import JS.
Local Open Scope Q_scope.

(** A document returned by one aggregation pipeline: [_id.toString()], the
    stored fields, and the raw score the pipeline attached with [$meta]
    ([bm25Score] for the lexical pipeline, [vectorScore] for the vector
    one). *)
Record hit := {
  hit_id : string;
  hit_fields : gmap string string;
  hit_score : Q
}.

(** [Math.min(...xs, a)] and [Math.max(...xs, a)]. *)
Definition Math_min (xs : list Q) (a : Q) : Q := fold_left Qmin xs a.
Definition Math_max (xs : list Q) (a : Q) : Q := fold_left Qmax xs a.

(** [arr.forEach((x, index) => ...)] visits the pairs [(index, x)]. *)
Fixpoint indexed_from {A : Type} (n : nat) (l : list A) : list (nat * A) :=
  match l with
  | [] => []
  | x :: l' => (n, x) :: indexed_from (S n) l'
  end.

Definition indexed {A : Type} (l : list A) : list (nat * A) := indexed_from 0 l.

(** [arr.sort((a, b) => score(b) - score(a))]: stable, descending. *)
Section Sort.
Context {A : Type} (score : A -> Q).

Fixpoint insert_desc (x : A) (l : list A) : list A :=
  match l with
  | [] => [x]
  | y :: l' =>
      if Qle_bool (score y) (score x) then x :: y :: l'
      else y :: insert_desc x l'
  end.

Definition sort_desc (l : list A) : list A := fold_right insert_desc [] l.
End Sort.

(** ** [POST /api/search/rerank] *)

Record candidate := {
  c_id : string;
  c_fields : gmap string string;
  bm25Score : Q;
  bm25Normalized : Q;
  bm25Rank : option nat;
  vectorScore : Q;
  vectorNormalized : Q;
  vectorRank : option nat;
  foundIn : string
}.

Definition normalizeBM25 (score minScore maxScore : Q) : Q :=
  if Qeq_bool maxScore minScore then 1
  else (score - minScore) / (maxScore - minScore).

Definition normalizeVector (score minScore maxScore : Q) : Q :=
  if Qeq_bool maxScore minScore then 1
  else (score - minScore) / (maxScore - minScore).

Definition minBM25 (bm25Results : list hit) : Q := Math_min (map hit_score bm25Results) 0.
Definition maxBM25 (bm25Results : list hit) : Q := Math_max (map hit_score bm25Results) 1.
Definition minVector (vectorResults : list hit) : Q := Math_min (map hit_score vectorResults) 0.
Definition maxVector (vectorResults : list hit) : Q := Math_max (map hit_score vectorResults) 1.

(** [bm25Results.forEach((doc, index) => resultMap.set(id, {...}))] *)
Definition add_bm25 (lo hi : Q) (resultMap : list (string * candidate))
    (entry : nat * hit) : list (string * candidate) :=
  let '(index, doc) := entry in
  Map_set (hit_id doc)
    {| c_id := hit_id doc;
       c_fields := hit_fields doc;
       bm25Score := hit_score doc;
       bm25Normalized := normalizeBM25 (hit_score doc) lo hi;
       bm25Rank := Some (index + 1)%nat;
       vectorScore := 0;
       vectorNormalized := 0;
       vectorRank := None;
       foundIn := "bm25" |}
    resultMap.

(** [vectorResults.forEach((doc, index) => ...)]: an entry already present
    is updated where it stands, a new one is appended without a
    [bm25Rank]. *)
Definition add_vector (lo hi : Q) (resultMap : list (string * candidate))
    (entry : nat * hit) : list (string * candidate) :=
  let '(index, doc) := entry in
  let normalizedScore := normalizeVector (hit_score doc) lo hi in
  match Map_get (hit_id doc) resultMap with
  | Some existing =>
      Map_set (hit_id doc)
        {| c_id := c_id existing;
           c_fields := c_fields existing;
           bm25Score := bm25Score existing;
           bm25Normalized := bm25Normalized existing;
           bm25Rank := bm25Rank existing;
           vectorScore := hit_score doc;
           vectorNormalized := normalizedScore;
           vectorRank := Some (index + 1)%nat;
           foundIn := "both" |}
        resultMap
  | None =>
      Map_set (hit_id doc)
        {| c_id := hit_id doc;
           c_fields := hit_fields doc;
           bm25Score := 0;
           bm25Normalized := 0;
           bm25Rank := None;
           vectorScore := hit_score doc;
           vectorNormalized := normalizedScore;
           vectorRank := Some (index + 1)%nat;
           foundIn := "vector" |}
        resultMap
  end.

Definition merge_results (bm25Results vectorResults : list hit)
    : list (string * candidate) :=
  let afterBM25 :=
    fold_left (add_bm25 (minBM25 bm25Results) (maxBM25 bm25Results))
              (indexed bm25Results) [] in
  fold_left (add_vector (minVector vectorResults) (maxVector vectorResults))
            (indexed vectorResults) afterBM25.

(** [Array.from(resultMap.values())] *)
Definition allResults (bm25Results vectorResults : list hit) : list candidate :=
  Map_values (merge_results bm25Results vectorResults).

Record fused := {
  f_doc : candidate;
  fusedScore : Q;
  newRank : nat;
  originalRank : nat;
  rankChange : Z
}.

(** [doc.rank ? 1 / (k + doc.rank) : 0]; a rank is falsy when it is absent
    or zero. *)
Definition k : Z := 60.

Definition rrf_component (rank : option nat) : Q :=
  match rank with
  | Some (S r) => 1 / inject_Z (k + Z.of_nat (S r))
  | _ => 0
  end.

Definition reciprocal_component (rank : option nat) (weight : Q) : Q :=
  match rank with
  | Some (S r) => (1 / inject_Z (Z.of_nat (S r))) * weight
  | _ => 0
  end.

(** The three branches on [fusionMethod]; any other method leaves
    [fusedResults] empty. *)
Definition fuse_score (fusionMethod : string) (bm25Weight vectorWeight : Q)
    (doc : candidate) : option Q :=
  if String.eqb fusionMethod "rrf" then
    let bm25RRF := rrf_component (bm25Rank doc) in
    let vectorRRF := rrf_component (vectorRank doc) in
    Some (bm25RRF + vectorRRF)
  else if String.eqb fusionMethod "weighted" then
    Some (bm25Normalized doc * bm25Weight + vectorNormalized doc * vectorWeight)
  else if String.eqb fusionMethod "reciprocal" then
    let bm25Reciprocal := reciprocal_component (bm25Rank doc) bm25Weight in
    let vectorReciprocal := reciprocal_component (vectorRank doc) vectorWeight in
    Some (bm25Reciprocal + vectorReciprocal)
  else None.

Definition fuse_all (fusionMethod : string) (bm25Weight vectorWeight : Q)
    (docs : list candidate) : list (candidate * Q) :=
  omap (fun doc => option_map (pair doc)
                     (fuse_score fusionMethod bm25Weight vectorWeight doc)) docs.

(** [doc.bm25Rank || doc.vectorRank || index + 1] *)
Definition truthy_rank (r : option nat) : option nat :=
  match r with Some (S n) => Some (S n) | _ => None end.

Definition add_ranking (entry : nat * (candidate * Q)) : fused :=
  let '(index, (doc, score)) := entry in
  let new := (index + 1)%nat in
  let orig := default (default new (truthy_rank (vectorRank doc)))
                      (truthy_rank (bm25Rank doc)) in
  {| f_doc := doc; fusedScore := score; newRank := new; originalRank := orig;
     rankChange := Z.of_nat orig - Z.of_nat new |}.

(** Fusion, sort by fused score, ranking information: [fusedResults]. *)
Definition fusedResults (fusionMethod : string) (bm25Weight vectorWeight : Q)
    (bm25Results vectorResults : list hit) : list fused :=
  map add_ranking
    (indexed (sort_desc snd
       (fuse_all fusionMethod bm25Weight vectorWeight
          (allResults bm25Results vectorResults)))).

(** [results: fusedResults.slice(0, limit)] *)
Definition rerank_results (fusionMethod : string) (bm25Weight vectorWeight : Q)
    (limit : nat) (bm25Results vectorResults : list hit) : list fused :=
  firstn limit (fusedResults fusionMethod bm25Weight vectorWeight
                  bm25Results vectorResults).

(** ** [POST /api/search/hybrid] *)

Record hybrid_result := {
  h_id : string;
  h_fields : gmap string string;
  h_bm25Score : Q;
  bm25ScoreNormalized : Q;
  h_vectorScore : Q;
  vectorScoreNormalized : Q;
  hybridScore : Q;
  h_foundIn : string
}.

(** [x || 1] on a number: zero is falsy. *)
Definition or_one (x : Q) : Q := if Qeq_bool x 0 then 1 else x.

Definition bm25Max (bm25Results : list hit) : Q :=
  if (0 <? length bm25Results)%nat then Math_max (map hit_score bm25Results) 1 else 1.
Definition bm25Min (bm25Results : list hit) : Q :=
  if (0 <? length bm25Results)%nat then Math_min (map hit_score bm25Results) 0 else 0.
Definition bm25Range (bm25Results : list hit) : Q :=
  or_one (bm25Max bm25Results - bm25Min bm25Results).

Definition vectorMax (vectorResults : list hit) : Q := Math_max (map hit_score vectorResults) 1.
Definition vectorMin (vectorResults : list hit) : Q := Math_min (map hit_score vectorResults) 0.
Definition vectorRange (vectorResults : list hit) : Q :=
  or_one (vectorMax vectorResults - vectorMin vectorResults).

Definition hybrid_add_bm25 (lo range bm25Weight : Q)
    (resultMap : list (string * hybrid_result)) (result : hit)
    : list (string * hybrid_result) :=
  let normalizedScore := (hit_score result - lo) / range in
  Map_set (hit_id result)
    {| h_id := hit_id result;
       h_fields := hit_fields result;
       h_bm25Score := hit_score result;
       bm25ScoreNormalized := normalizedScore;
       h_vectorScore := 0;
       vectorScoreNormalized := 0;
       hybridScore := normalizedScore * bm25Weight;
       h_foundIn := "bm25" |}
    resultMap.

Definition hybrid_add_vector (skipBM25 : bool) (lo range vectorWeight : Q)
    (resultMap : list (string * hybrid_result)) (result : hit)
    : list (string * hybrid_result) :=
  let normalizedScore := (hit_score result - lo) / range in
  match Map_get (hit_id result) resultMap with
  | Some existing =>
      Map_set (hit_id result)
        {| h_id := h_id existing;
           h_fields := h_fields existing;
           h_bm25Score := h_bm25Score existing;
           bm25ScoreNormalized := bm25ScoreNormalized existing;
           h_vectorScore := hit_score result;
           vectorScoreNormalized := normalizedScore;
           hybridScore := hybridScore existing + normalizedScore * vectorWeight;
           h_foundIn := "both" |}
        resultMap
  | None =>
      let foundIn := if skipBM25 then "vector-only" else "vector" in
      let hybridScore := if skipBM25 then normalizedScore
                         else normalizedScore * vectorWeight in
      Map_set (hit_id result)
        {| h_id := hit_id result;
           h_fields := hit_fields result;
           h_bm25Score := 0;
           bm25ScoreNormalized := 0;
           h_vectorScore := hit_score result;
           vectorScoreNormalized := normalizedScore;
           hybridScore := hybridScore;
           h_foundIn := foundIn |}
        resultMap
  end.

(** [result[key] === value] for a string [value]: the numeric score fields
    and the [_id] object never equal a string, [foundIn] is compared as a
    string, any other key reads the stored field. *)
Definition numeric_keys : list string :=
  ["_id"; "bm25Score"; "bm25ScoreNormalized"; "vectorScore";
   "vectorScoreNormalized"; "hybridScore"]%string.

Definition field_equals (result : hybrid_result) (key value : string) : bool :=
  if existsb (String.eqb key) numeric_keys then false
  else if String.eqb key "foundIn" then String.eqb (h_foundIn result) value
  else match h_fields result !! key with
       | Some v => String.eqb v value
       | None => false
       end.

Definition passes_filters (filters : list (string * string)) (result : hybrid_result)
    : bool :=
  forallb (fun '(key, value) =>
             if String.eqb value "" then true else field_equals result key value)
          filters.

Definition apply_filters (filters : list (string * string))
    (combinedResults : list hybrid_result) : list hybrid_result :=
  if (0 <? length filters)%nat then List.filter (passes_filters filters) combinedResults
  else combinedResults.

Definition combinedResults (skipBM25 : bool) (bm25Weight vectorWeight : Q)
    (bm25Results vectorResults : list hit) : list hybrid_result :=
  let afterBM25 :=
    if skipBM25 then []
    else fold_left (hybrid_add_bm25 (bm25Min bm25Results) (bm25Range bm25Results)
                                    bm25Weight) bm25Results [] in
  let resultMap :=
    fold_left (hybrid_add_vector skipBM25 (vectorMin vectorResults)
                                 (vectorRange vectorResults) vectorWeight)
              vectorResults afterBM25 in
  sort_desc hybridScore (Map_values resultMap).

(** [validateDbCollectionIndex(...)] answers [{ok: true}] or
    [{ok: false, error}]. *)
Inductive validation :=
| Valid
| Invalid (error : string).

Definition ok (v : validation) : bool :=
  match v with Valid => true | Invalid _ => false end.

Record hybrid_request := {
  query : string;
  limit : nat;
  filters : list (string * string);
  bm25Weight : Q;
  vectorWeight : Q;
  useUserStories : bool
}.

Record hybrid_env := {
  connect : outcome unit;
  bm25Validation : validation;
  vectorValidation : validation;
  bm25Search : outcome (list hit);
  embedding : outcome unit;
  vectorSearch : outcome (list hit)
}.

Record hybrid_stats := {
  foundInBoth : nat;
  foundInBm25Only : nat;
  foundInVectorOnly : nat;
  bm25ResultCount : nat;
  vectorResultCount : nat
}.

Record hybrid_body := {
  searchType : string;
  results : list hybrid_result;
  count : nat;
  bm25Skipped : bool;
  hstats : hybrid_stats
}.

Inductive hybrid_response :=
| Http400 (error : string)
| Http500 (error details : string)
| Http200 (body : hybrid_body).

Definition count_found (tag : string) (rs : list hybrid_result) : nat :=
  length (List.filter (fun r => String.eqb (h_foundIn r) tag) rs).

Definition hybrid_body_of (req : hybrid_request) (skipBM25 : bool)
    (bm25Results vectorResults : list hit) : hybrid_body :=
  let combined :=
    apply_filters (filters req)
      (combinedResults skipBM25 (bm25Weight req) (vectorWeight req)
                       bm25Results vectorResults) in
  let finalResults := firstn (limit req) combined in
  {| searchType := if skipBM25 then "vector-only" else "hybrid";
     results := finalResults;
     count := length finalResults;
     bm25Skipped := skipBM25;
     hstats := {| foundInBoth := count_found "both" finalResults;
                  foundInBm25Only := count_found "bm25" finalResults;
                  foundInVectorOnly := count_found "vector" finalResults;
                  bm25ResultCount := length bm25Results;
                  vectorResultCount := length vectorResults |} |}.

Definition failed (message : string) : hybrid_response :=
  Http500 "Hybrid search failed" message.

Definition hybrid_route (req : hybrid_request) (env : hybrid_env) : hybrid_response :=
  if String.eqb (query req) "" then Http400 "Query is required" else
  match connect env with
  | Threw m => failed m
  | Returned _ =>
    let skipBM25 := useUserStories req && negb (ok (bm25Validation env)) in
    match skipBM25, bm25Validation env, vectorValidation env with
    | false, Invalid e, _ => Http400 e
    | _, _, Invalid e => Http400 e
    | _, _, Valid =>
      match (if skipBM25 then Returned [] else bm25Search env) with
      | Threw m => failed m
      | Returned bm25Results =>
        match embedding env with
        | Threw m => failed m
        | Returned _ =>
          match vectorSearch env with
          | Threw m => failed m
          | Returned vectorResults =>
              Http200 (hybrid_body_of req skipBM25 bm25Results vectorResults)
          end
        end
      end
    end
  end.

End Fusion.

(* ===================================================================== *)
(** * Ingestion: retry loops and bulk writers of the batch scripts *)
(* ===================================================================== *)

Module Ingest.
Import JS.

(** A record to embed: [testcase.id] may be absent, the other fields are
    strings. *)
Record testcase := {
  tc_id : option string;
  tc_fields : gmap string string
}.

Record metadata := {
  m_model : string;
  m_cost : Q;
  m_tokens : nat;
  m_apiSource : string
}.

(** One call to the embedding provider: a vector with its accounting, or an
    error carrying [error.status] (absent on network errors) and
    [error.message]. *)
Inductive attempt_outcome :=
| Embedded (vector : list Q) (cost : Q) (tokens : nat) (model : string)
| Errored (status : option Z) (message : string).

(** The value a worker resolves with: a success carries [embedding] and
    [metadata], a failure carries [error]. *)
Record embedding_value := {
  ev_testcase : testcase;
  ev_embedding : option (list Q);
  ev_error : option string;
  ev_cost : Q;
  ev_tokens : nat;
  ev_metadata : option metadata
}.

(** How a worker's promise settles, with the timer delays it awaited (ms). *)
Inductive settled :=
| Fulfilled (value : embedding_value)
| Rejected (reason : string).

Definition success (apiSource : string) (tc : testcase) (vector : list Q) (cost : Q)
    (tokens : nat) (model : string) : settled :=
  Fulfilled {| ev_testcase := tc; ev_embedding := Some vector; ev_error := None;
               ev_cost := cost; ev_tokens := tokens;
               ev_metadata := Some {| m_model := model; m_cost := cost;
                                      m_tokens := tokens; m_apiSource := apiSource |} |}.

(** After the loop: [lastError.message] is read; when the loop body never
    ran, [lastError] is [undefined] and the read throws. *)
Definition final_failure (tc : testcase) (lastError : option string) : settled :=
  match lastError with
  | Some message =>
      Fulfilled {| ev_testcase := tc; ev_embedding := None; ev_error := Some message;
                   ev_cost := 0; ev_tokens := 0; ev_metadata := None |}
  | None => Rejected "Cannot read properties of undefined (reading 'message')"
  end.

Section Worker.
(** [call attempt] is the provider's answer to the [attempt]-th call for
    this record. *)
Variable call : nat -> attempt_outcome.
Variable tc : testcase.
Variable maxRetries : nat.

(** [generateTestcaseEmbedding] of create-embeddings-batch.js, the body of
    [for (let attempt = 1; attempt <= maxRetries; attempt++)] with [fuel]
    iterations left. *)
Fixpoint testcase_loop (fuel attempt : nat) (lastError : option string)
    : settled * list Z :=
  match fuel with
  | O => (final_failure tc lastError, [])
  | S fuel' =>
      match call attempt with
      | Embedded vector cost tokens model =>
          (success "testleaf" tc vector cost tokens model, [])
      | Errored _ message =>
          let waits := if (attempt <? maxRetries)%nat
                       then [1000 * Z.of_nat attempt]%Z else [] in
          let '(r, later) := testcase_loop fuel' (S attempt) (Some message) in
          (r, waits ++ later)
      end
  end.

Definition generateTestcaseEmbedding : settled * list Z :=
  testcase_loop maxRetries 1 None.

(** [generateEmbeddingDirect]: the cost is [(tokens / 1000) * 0.00002] and
    the model name is fixed; a 429 waits [min(1000 * 2^attempt, 10000)], any
    other error waits [1000 * attempt] when an attempt is left. *)
Fixpoint direct_loop (fuel attempt : nat) (lastError : option string)
    : settled * list Z :=
  match fuel with
  | O => (final_failure tc lastError, [])
  | S fuel' =>
      match call attempt with
      | Embedded vector _ tokens _ =>
          let cost := (inject_Z (Z.of_nat tokens) / 1000 * (2 # 100000))%Q in
          (success "openai-direct" tc vector cost tokens "text-embedding-3-small", [])
      | Errored status message =>
          let waits :=
            if decide (status = Some 429%Z)
            then [Z.min (1000 * 2 ^ Z.of_nat attempt) 10000]%Z
            else if (attempt <? maxRetries)%nat
                 then [1000 * Z.of_nat attempt]%Z else [] in
          let '(r, later) := direct_loop fuel' (S attempt) (Some message) in
          (r, waits ++ later)
      end
  end.

Definition generateEmbeddingDirect : settled * list Z :=
  direct_loop maxRetries 1 None.
End Worker.

(** [Promise.allSettled(batch.map(generate...))] with the default
    [maxRetries = 3]: one settled result per record of the batch.  The
    [i]-th record of the batch talks to the provider through [calls i]. *)
Definition default_maxRetries : nat := 3.

Definition embed_batch
    (generate : (nat -> attempt_outcome) -> testcase -> nat -> settled * list Z)
    (calls : nat -> nat -> attempt_outcome) (batch : list testcase) : list settled :=
  map (fun '(i, tc) => fst (generate (calls i) tc default_maxRetries))
      (Fusion.indexed batch).

(** [!item.error]: an absent or empty message is falsy. *)
Definition has_error (item : embedding_value) : bool :=
  match ev_error item with
  | Some message => negb (String.eqb message "")
  | None => false
  end.

(** [result.status === 'fulfilled' && !result.value.error] *)
Definition successfulEmbeddings (embeddingResults : list settled) : list embedding_value :=
  omap (fun r => match r with
                 | Fulfilled v => if has_error v then None else Some v
                 | Rejected _ => None
                 end) embeddingResults.

(** ** Bulk writers *)

Record document := {
  doc_fields : gmap string string;
  doc_id : option string;
  doc_linkedStories : option (list string);
  doc_embedding : option (list Q);
  doc_embeddingMetadata : option metadata
}.

Record insert_result := {
  inserted : nat;
  failed : nat
}.

(** [linkedStories.split(',').map(s => s.trim()).filter(s => s.length > 0)] *)
Fixpoint split_comma (s : string) (cur : string) : list string :=
  match s with
  | EmptyString => [cur]
  | String c rest =>
      if Ascii.eqb c ","%char then cur :: split_comma rest EmptyString
      else split_comma rest (cur +:+ String c EmptyString)
  end.

Fixpoint trim_start (s : string) : string :=
  match s with
  | String c rest => if is_space c then trim_start rest else s
  | EmptyString => EmptyString
  end.

Definition trim (s : string) : string :=
  String.rev (trim_start (String.rev (trim_start s))).

Definition parseLinkedStories (linkedStories : option string) : list string :=
  match linkedStories with
  | None => []
  | Some s =>
      if String.eqb s "" then []
      else List.filter (fun p => negb (String.eqb p ""))
                  (map trim (split_comma s EmptyString))
  end.

Section Writer.
(** [collection.insertMany(documents, {ordered: false, writeConcern: {w: 1}})]
    resolves with [insertedCount] or throws a bulk-write error. *)
Variable insertMany : list document -> outcome nat.

Definition testcase_document (item : embedding_value) : document :=
  {| doc_fields := tc_fields (ev_testcase item);
     doc_id := tc_id (ev_testcase item);
     doc_linkedStories := None;
     doc_embedding := ev_embedding item;
     doc_embeddingMetadata := ev_metadata item |}.

(** [insertTestcasesBatch] of create-embeddings-batch.js *)
Definition insertTestcasesBatch (batch : list embedding_value) : insert_result :=
  if (length batch =? 0)%nat then {| inserted := 0; failed := 0 |} else
  let documents := map testcase_document (List.filter (fun item => negb (has_error item)) batch) in
  if (length documents =? 0)%nat then {| inserted := 0; failed := length batch |} else
  match insertMany documents with
  | Returned insertedCount =>
      let failed := (length batch - length documents)%nat in
      {| inserted := insertedCount; failed := failed |}
  | Threw _ => {| inserted := 0; failed := length batch |}
  end.

Definition direct_document (item : embedding_value) : document :=
  {| doc_fields := tc_fields (ev_testcase item);
     doc_id := tc_id (ev_testcase item);
     doc_linkedStories :=
       Some (parseLinkedStories (tc_fields (ev_testcase item) !! "linkedStories"%string));
     doc_embedding := ev_embedding item;
     doc_embeddingMetadata := ev_metadata item |}.

(** [insertBatch] of the direct-provider script *)
Definition insertBatch (batch : list embedding_value) : insert_result :=
  if (length batch =? 0)%nat then {| inserted := 0; failed := 0 |} else
  let documents := map direct_document (List.filter (fun item => negb (has_error item)) batch) in
  if (length documents =? 0)%nat then {| inserted := 0; failed := length batch |} else
  match insertMany documents with
  | Returned insertedCount =>
      {| inserted := insertedCount; failed := (length batch - length documents)%nat |}
  | Threw _ => {| inserted := 0; failed := length batch |}
  end.
End Writer.

End Ingest.

(* ===================================================================== *)
(** * Job tracker and ingestion orchestrator *)
(* ===================================================================== *)

Module Jobs.
Import JS.

(** One entry of a job's [results]: [{file, status, output}] for a child
    that exited with code 0, [{file, status, error}] otherwise. *)
Record file_result := {
  file : string;
  fr_status : string;
  fr_output : option string;
  fr_error : option string
}.

Record job := {
  id : string;
  files : list string;
  status : string;
  progress : nat;
  total : nat;
  results : list file_result;
  startTime : Z;
  currentFile : option string;
  endTime : option Z
}.

(** The object literal handed to [updateJob]: the properties it carries. *)
Record updates := {
  u_status : option string;
  u_progress : option nat;
  u_results : option (list file_result);
  u_currentFile : option string;
  u_endTime : option Z
}.

(** [Object.assign(job, updates)] *)
Definition assign (j : job) (u : updates) : job :=
  {| id := id j;
     files := files j;
     status := default (status j) (u_status u);
     progress := default (progress j) (u_progress u);
     total := total j;
     results := default (results j) (u_results u);
     startTime := startTime j;
     currentFile := match u_currentFile u with Some f => Some f | None => currentFile j end;
     endTime := match u_endTime u with Some t => Some t | None => endTime j end |}.

(** [const jobs = new Map()] *)
Abbreviation registry := (gmap string job).

(** [createJob(files)]; [now] is [Date.now()] and [suffix] the nine
    base-36 digits drawn from [Math.random()]. *)
Definition createJob (now : Z) (suffix : string) (jobs : registry)
    (files : list string) : string * registry :=
  let jobId := ("job-" +:+ pretty now +:+ "-" +:+ suffix)%string in
  (jobId,
   <[jobId := {| id := jobId; files := files; status := "in-progress";
                 progress := 0; total := length files; results := [];
                 startTime := now; currentFile := None; endTime := None |}]> jobs).

Definition updateJob (jobs : registry) (jobId : string) (u : updates) : registry :=
  match jobs !! jobId with
  | Some j => <[jobId := assign j u]> jobs
  | None => jobs
  end.

Definition getJob (jobs : registry) (jobId : string) : option job := jobs !! jobId.

(** The periodic sweep: jobs started more than one hour before [now] are
    deleted. *)
Definition oneHour : Z := 60 * 60 * 1000.

Definition sweep (now : Z) (jobs : registry) : registry :=
  filter (fun kv => ~ (startTime (snd kv) < now - oneHour)%Z) jobs.

(** [GET /api/jobs/:jobId] *)
Inductive job_response :=
| NotFound
| Found (j : job).

Definition job_route (jobs : registry) (jobId : string) : job_response :=
  match getJob jobs jobId with
  | Some j => Found j
  | None => NotFound
  end.

(** What happens to one file of [processEmbeddings]:
    - [WriteThrew]: writing the temporary script throws, outside the [try];
    - [SpawnThrew]: [spawn] throws inside the promise executor, so the
      promise is rejected and the [catch] records the failure;
    - [Closed]: the child's ['close'] event arrives, with the exit code and
      the captured streams;
    - [Uncaught]: an exception is raised inside an event callback, where no
      [try] reaches it: the child's ['error'] event, which has no listener
      (a child that cannot be started), or [unlinkSync] throwing in the
      ['close'] handler;
    - [NoClose]: the child never closes.
    In the last two cases nothing calls [resolve] or [reject]: the awaited
    promise never settles and the run never resumes. *)
Inductive child_outcome :=
| WriteThrew (message : string)
| SpawnThrew (message : string)
| Closed (code : Z) (output error : string)
| Uncaught (message : string)
| NoClose.

(** How a run stops short of its last line: an exception leaves
    [processEmbeddings], or the promise it awaits never settles (after an
    uncaught exception in the event loop, if any). *)
Inductive halt :=
| Rejected (message : string)
| Suspended (uncaught : option string).

(** [error || output] *)
Definition or_string (a b : string) : string := if String.eqb a "" then b else a.

Section Orchestrator.
(** [child n fileName]: the fate of [fileName] when [n] files have been
    handled before it. *)
Variable child : nat -> string -> child_outcome.
Variable jobId : string.

(** The body of [for (const fileName of files)]; [inr] carries what stops
    the run. *)
Definition process_file (st : registry * list file_result) (fileName : string)
    : (registry * list file_result) + (registry * halt) :=
  let '(jobs, results) := st in
  let jobs := updateJob jobs jobId
                {| u_status := None; u_progress := None; u_results := None;
                   u_currentFile := Some fileName; u_endTime := None |} in
  let pushed (r : file_result) :=
    let results := results ++ [r] in
    inl (updateJob jobs jobId
           {| u_status := None; u_progress := Some (length results);
              u_results := Some results; u_currentFile := None;
              u_endTime := None |},
         results) in
  match child (length results) fileName with
  | WriteThrew message => inr (jobs, Rejected message)
  | SpawnThrew message =>
      pushed {| file := fileName; fr_status := "failed";
                fr_output := None; fr_error := Some message |}
  | Closed code output error =>
      if (code =? 0)%Z
      then pushed {| file := fileName; fr_status := "completed";
                     fr_output := Some output; fr_error := None |}
      else pushed {| file := fileName; fr_status := "failed";
                     fr_output := None; fr_error := Some (or_string error output) |}
  | Uncaught message => inr (jobs, Suspended (Some message))
  | NoClose => inr (jobs, Suspended None)
  end.

Fixpoint process_files (st : registry * list file_result) (fs : list string)
    : (registry * list file_result) + (registry * halt) :=
  match fs with
  | [] => inl st
  | fileName :: rest =>
      match process_file st fileName with
      | inl st' => process_files st' rest
      | inr e => inr e
      end
  end.

(** [processEmbeddings(jobId, files)], when nothing else writes the registry
    while it runs; [finished] is the [new Date()] of the final update.  The
    result is the registry it leaves behind and what stopped it, if
    anything did. *)
Definition processEmbeddings (finished : Z) (jobs : registry) (fs : list string)
    : registry * option halt :=
  match process_files (jobs, []) fs with
  | inl (jobs', results) =>
      (updateJob jobs' jobId
         {| u_status := Some "completed"%string; u_progress := None;
            u_results := Some results; u_currentFile := None;
            u_endTime := Some finished |},
       None)
  | inr (jobs', stop) => (jobs', Some stop)
  end.
End Orchestrator.

Section Background.
(** The route starts [processEmbeddings] without awaiting it.  While the
    run awaits the child of a file, the event loop serves the sweep's timer
    whenever it is due; [timer n] lists the values of [Date.now()] at which
    the sweep runs while the child of the file handled after [n] others is
    awaited.  Everything else in an iteration is synchronous, and a promise
    rejected by its executor resumes the run in a microtask, ahead of any
    timer.  The requests served meanwhile only read the registry or create
    jobs under ids of their own, and the runs of other jobs update theirs. *)
Variable child : nat -> string -> child_outcome.
Variable timer : nat -> list Z.
Variable jobId : string.

Definition sweeps (times : list Z) (jobs : registry) : registry :=
  fold_left (fun jobs now => sweep now jobs) times jobs.

Definition process_file_in_background (st : registry * list file_result)
    (fileName : string) : (registry * list file_result) + (registry * halt) :=
  let '(jobs, results) := st in
  let jobs := updateJob jobs jobId
                {| u_status := None; u_progress := None; u_results := None;
                   u_currentFile := Some fileName; u_endTime := None |} in
  let pushed (jobs : registry) (r : file_result) :=
    let results := results ++ [r] in
    inl (updateJob jobs jobId
           {| u_status := None; u_progress := Some (length results);
              u_results := Some results; u_currentFile := None;
              u_endTime := None |},
         results) in
  match child (length results) fileName with
  | WriteThrew message => inr (jobs, Rejected message)
  | SpawnThrew message =>
      pushed jobs {| file := fileName; fr_status := "failed";
                     fr_output := None; fr_error := Some message |}
  | Closed code output error =>
      let jobs := sweeps (timer (length results)) jobs in
      if (code =? 0)%Z
      then pushed jobs {| file := fileName; fr_status := "completed";
                          fr_output := Some output; fr_error := None |}
      else pushed jobs {| file := fileName; fr_status := "failed";
                          fr_output := None; fr_error := Some (or_string error output) |}
  | Uncaught message => inr (jobs, Suspended (Some message))
  | NoClose => inr (jobs, Suspended None)
  end.

Fixpoint process_files_in_background (st : registry * list file_result)
    (fs : list string) : (registry * list file_result) + (registry * halt) :=
  match fs with
  | [] => inl st
  | fileName :: rest =>
      match process_file_in_background st fileName with
      | inl st' => process_files_in_background st' rest
      | inr e => inr e
      end
  end.

Definition processEmbeddings_in_background (finished : Z) (jobs : registry)
    (fs : list string) : registry * option halt :=
  match process_files_in_background (jobs, []) fs with
  | inl (jobs', results) =>
      (updateJob jobs' jobId
         {| u_status := Some "completed"%string; u_progress := None;
            u_results := Some results; u_currentFile := None;
            u_endTime := Some finished |},
       None)
  | inr (jobs', stop) => (jobs', Some stop)
  end.
End Background.

End Jobs.

(* ===================================================================== *)
(** * Batch scripts: the main loop *)
(* ===================================================================== *)

Module Pipeline.
Import JS Ingest.

(** The constants at the head of a batch script, with the floor and the
    per-batch decrement of its adaptive delay
    [Math.max(floor, DELAY_BETWEEN_BATCHES - batchNumber * step)]. *)
Record config := {
  BATCH_SIZE : nat;
  MONGODB_BATCH_SIZE : nat;
  DELAY_BETWEEN_BATCHES : Z;
  delay_floor : Z;
  delay_step : Z
}.

(** create-embeddings-batch.js *)
Definition testleaf_config : config :=
  {| BATCH_SIZE := 50; MONGODB_BATCH_SIZE := 100; DELAY_BETWEEN_BATCHES := 500;
     delay_floor := 100; delay_step := 5 |}.

(** The direct-provider script. *)
Definition direct_config : config :=
  {| BATCH_SIZE := 100; MONGODB_BATCH_SIZE := 200; DELAY_BETWEEN_BATCHES := 200;
     delay_floor := 50; delay_step := 2 |}.

(** [for (let i = start; i < arr.length; i += size) arr.slice(i, i + size)]:
    the start index of each iteration with its slice.  [fuel] bounds the
    number of iterations; [arr.length] of them are enough when [size] is
    positive (with [size = 0] the source loop never ends). *)
Fixpoint slices_from {A : Type} (fuel size i : nat) (arr : list A)
    : list (nat * list A) :=
  match fuel with
  | O => []
  | S fuel' =>
      if (i <? length arr)%nat
      then (i, firstn size (skipn i arr)) :: slices_from fuel' size (i + size) arr
      else []
  end.

Definition slices {A : Type} (size : nat) (arr : list A) : list (nat * list A) :=
  slices_from (length arr) size 0 arr.

Record totals := {
  totalCost : Q;
  totalTokens : nat;
  totalInserted : nat;
  totalFailed : nat;
  processedCount : nat;
  delays : list Z
}.

Definition zero_totals : totals :=
  {| totalCost := 0; totalTokens := 0; totalInserted := 0; totalFailed := 0;
     processedCount := 0; delays := [] |}.

Section Main.
(** The worker ([generateTestcaseEmbedding] or [generateEmbeddingDirect]),
    the provider's answers to the record at each global index, and the
    writer ([insertTestcasesBatch] or [insertBatch] over a collection). *)
Variable generate : (nat -> attempt_outcome) -> testcase -> nat -> settled * list Z.
Variable calls : nat -> nat -> attempt_outcome.
Variable insert : list embedding_value -> insert_result.
Variable cfg : config.

(** [batch.map((testcase, batchIndex) => generate(testcase, i + batchIndex, ...))]
    joined by [Promise.allSettled]. *)
Definition embeddingResults (i : nat) (batch : list testcase) : list settled :=
  map (fun '(batchIndex, tc) =>
         fst (generate (calls (i + batchIndex)) tc default_maxRetries))
      (Fusion.indexed batch).

(** The inner loop over sub-batches of [MONGODB_BATCH_SIZE]:
    [(insertedInBatch, failedInBatch)]. *)
Definition insert_subbatches (successful : list embedding_value) : nat * nat :=
  fold_left
    (fun '(insertedInBatch, failedInBatch) '(_, subBatch) =>
       let insertResult := insert subBatch in
       ((insertedInBatch + inserted insertResult)%nat,
        (failedInBatch + failed insertResult)%nat))
    (slices (MONGODB_BATCH_SIZE cfg) successful) (0%nat, 0%nat).

Definition adaptiveDelay (batchNumber : nat) : Z :=
  Z.max (delay_floor cfg)
        (DELAY_BETWEEN_BATCHES cfg - Z.of_nat batchNumber * delay_step cfg).

(** One iteration of the outer loop, on the slice that starts at [i] of
    [total] records. *)
Definition process_batch (total : nat) (t : totals) (entry : nat * list testcase)
    : totals :=
  let '(i, batch) := entry in
  let batchNumber := (i / BATCH_SIZE cfg + 1)%nat in
  let successful := successfulEmbeddings (embeddingResults i batch) in
  let batchCost := fold_left (fun acc v => (acc + ev_cost v)%Q) successful 0%Q in
  let batchTokens := fold_left (fun acc v => (acc + ev_tokens v)%nat) successful 0%nat in
  let '(insertedInBatch, failedInBatch) := insert_subbatches successful in
  {| totalCost := (totalCost t + batchCost)%Q;
     totalTokens := (totalTokens t + batchTokens)%nat;
     totalInserted := (totalInserted t + insertedInBatch)%nat;
     totalFailed := (totalFailed t + (failedInBatch + (length batch - length successful)))%nat;
     processedCount := (processedCount t + length (embeddingResults i batch))%nat;
     delays := delays t ++
               (if (i + BATCH_SIZE cfg <? total)%nat then [adaptiveDelay batchNumber]
                else []) |}.

(** The outer loop of [main]. *)
Definition main (testcases : list testcase) : totals :=
  fold_left (process_batch (length testcases))
            (slices (BATCH_SIZE cfg) testcases) zero_totals.
End Main.

End Pipeline.

(* ===================================================================== *)
(** * Search routes: preconditions and vector search sizing *)
(* ===================================================================== *)

Module Search.
Import JS Fusion.

(** What the validation helper reads from the store: the database names
    ([listDatabases] may be refused), the collections of the database, the
    document count of the collection and the names of its search indexes
    ([None] when the answer is not an array). *)
Record probe := {
  listDatabases : outcome (list string);
  listCollections : outcome (list string);
  countDocuments : outcome nat;
  listSearchIndexes : outcome (option (list string))
}.

Definition quoted (s : string) : string := ("'" +:+ s +:+ "'")%string.

(** [validateDbCollectionIndex(client, dbName, collectionName, indexName,
    requireDocuments)]; an empty [indexName] is falsy. *)
Definition validateDbCollectionIndex (store : probe)
    (dbName collectionName indexName : string) (requireDocuments : bool) : validation :=
  let dbExists :=
    match listDatabases store with
    | Returned dbs => existsb (String.eqb dbName) dbs
    | Threw _ => true
    end in
  if negb dbExists then Invalid ("Database " +:+ quoted dbName +:+ " not found") else
  match listCollections store with
  | Threw m => Invalid ("Validation failed: " +:+ m)
  | Returned names =>
    if (length (List.filter (String.eqb collectionName) names) =? 0)%nat
    then Invalid ("Collection " +:+ quoted collectionName +:+ " not found in database "
                  +:+ quoted dbName)
    else
    let counted :=
      if requireDocuments
      then match countDocuments store with
           | Threw m => Some (Invalid ("Validation failed: " +:+ m))
           | Returned count =>
               if (count =? 0)%nat
               then Some (Invalid ("No documents found in collection "
                                   +:+ quoted collectionName
                                   +:+ ". Please create embeddings first."))
               else None
           end
      else None in
    match counted with
    | Some failure => failure
    | None =>
      if String.eqb indexName "" then Valid else
      match listSearchIndexes store with
      | Threw m =>
          Invalid ("Could not verify search index " +:+ quoted indexName +:+ ": " +:+ m)
      | Returned None =>
          Invalid ("Unable to verify search indexes for collection "
                   +:+ quoted collectionName +:+ ".")
      | Returned (Some indexes) =>
          if existsb (String.eqb indexName) indexes then Valid
          else Invalid ("Search index " +:+ quoted indexName
                        +:+ " not found for collection " +:+ quoted collectionName)
      end
    end
  end.

(** The two validations at the head of [POST /api/search/hybrid], both run
    against the same collection with [requireDocuments = true], and the rest
    of the route's surroundings. *)
Definition hybrid_env_of (store : probe) (dbName collectionName bm25IndexName
    vectorIndexName : string) (connected : outcome unit)
    (lexical : outcome (list hit)) (embedded : outcome unit)
    (vector : outcome (list hit)) : hybrid_env :=
  {| connect := connected;
     bm25Validation :=
       validateDbCollectionIndex store dbName collectionName bm25IndexName true;
     vectorValidation :=
       validateDbCollectionIndex store dbName collectionName vectorIndexName true;
     bm25Search := lexical;
     embedding := embedded;
     vectorSearch := vector |}.

(** Sizing of [$vectorSearch]: [(numCandidates, limit)] of each route, from
    the parsed [limit] (or [rerankTopK]) of the request. *)
Definition search_sizing (requestedLimit : Z) : Z * Z :=
  let numCandidates := Z.max 100 (requestedLimit * 10) in
  let vectorSearchLimit := Z.min numCandidates (requestedLimit * 10) in
  (numCandidates, vectorSearchLimit).

Definition hybrid_sizing (limit : Z) : Z * Z :=
  let searchLimit := (limit * 3)%Z in
  let vectorNumCandidates := Z.max (searchLimit * 2) 200 in
  (vectorNumCandidates, searchLimit).

Definition rerank_sizing (rerankTopK : Z) : Z * Z :=
  (Z.max (rerankTopK * 2) 100, rerankTopK).

End Search.

(* ===================================================================== *)
(** * Facts about the JavaScript helpers *)
(* ===================================================================== *)

Section JSFacts.
Import JS.

Example split_plain : split_ws "login  with valid" = ["login"; "with"; "valid"]%string.
Proof. reflexivity. Qed.

Example split_empty : split_ws "" = [""%string].
Proof. reflexivity. Qed.

Example split_edges : split_ws " a " = [""; "a"; ""]%string.
Proof. reflexivity. Qed.

Example lower_mixed : toLowerCase "Login PAGE" = "login page"%string.
Proof. reflexivity. Qed.

Lemma split_go_nonempty s cur b : split_go s cur b <> [].
Proof.
  revert cur b. induction s as [|c s IH]; intros cur b; simpl; [discriminate|].
  destruct (is_space c); [destruct b|]; auto; discriminate.
Qed.

Lemma Set_has_In x s : Set_has x s = true <-> In x s.
Proof.
  unfold Set_has. rewrite existsb_exists. split.
  - intros (y & Hy & He). apply String.eqb_eq in He. now subst.
  - intros H. exists x. split; [assumption | apply String.eqb_refl].
Qed.

Lemma Set_add_absorbs acc l :
  (forall x, In x l -> In x acc) -> fold_left Set_add l acc = acc.
Proof.
  induction l as [|x l IH]; intros H; simpl; [reflexivity|].
  unfold Set_add at 2.
  assert (Hx : Set_has x acc = true) by (apply Set_has_In, H; now left).
  rewrite Hx. apply IH. intros y Hy. apply H. now right.
Qed.

Lemma Set_add_fresh acc l :
  List.NoDup (acc ++ l) -> fold_left Set_add l acc = acc ++ l.
Proof.
  revert acc. induction l as [|x l IH]; intros acc H; simpl.
  - now rewrite app_nil_r.
  - assert (Hx : Set_has x acc = false).
    { destruct (Set_has x acc) eqn:E; [|reflexivity].
      apply Set_has_In in E. apply List.NoDup_remove_2 in H.
      exfalso. apply H. apply in_or_app. now left. }
    unfold Set_add at 2. rewrite Hx.
    replace (acc ++ x :: l) with ((acc ++ [x]) ++ l) in * by now rewrite <- app_assoc.
    now apply IH.
Qed.

Lemma Set_add_NoDup l acc : List.NoDup acc -> List.NoDup (fold_left Set_add l acc).
Proof.
  revert acc. induction l as [|x l IH]; intros acc H; simpl; [assumption|].
  apply IH. unfold Set_add. destruct (Set_has x acc) eqn:E; [assumption|].
  apply List.NoDup_app; repeat split; try assumption.
  - repeat constructor. intros [].
  - intros y Hy [<-|[]]. apply Set_has_In in Hy. congruence.
Qed.

Lemma Set_from_NoDup l : List.NoDup (Set_from l).
Proof. apply Set_add_NoDup. constructor. Qed.

Lemma Set_add_grows l acc : (length acc <= length (fold_left Set_add l acc))%nat.
Proof.
  revert acc. induction l as [|x l IH]; intros acc; simpl; [lia|].
  etransitivity; [|apply IH]. unfold Set_add.
  destruct (Set_has x acc); [lia|]. rewrite length_app. simpl. lia.
Qed.

Lemma Set_from_nonempty l : l <> [] -> (0 < length (Set_from l))%nat.
Proof.
  destruct l as [|x l]; [congruence|]. intros _. unfold Set_from. simpl.
  eapply Nat.lt_le_trans; [|apply Set_add_grows]. simpl. lia.
Qed.

Lemma Set_from_idem w : List.NoDup w -> Set_from w = w.
Proof. intros H. unfold Set_from. now rewrite Set_add_fresh. Qed.

Lemma filter_has_self w : List.filter (fun x => Set_has x w) w = w.
Proof.
  apply forallb_filter_id. apply forallb_forall. intros x Hx. now apply Set_has_In.
Qed.

Lemma Set_from_self_union w : List.NoDup w -> Set_from (w ++ w) = w.
Proof.
  intros H. unfold Set_from. rewrite fold_left_app.
  fold (Set_from w). rewrite Set_from_idem by assumption.
  now apply Set_add_absorbs.
Qed.

(** [Map] facts. *)
Lemma Map_set_fresh {V} k (v : V) m :
  Map_get k m = None -> Map_set k v m = m ++ [(k, v)].
Proof.
  induction m as [|[k' v'] m IH]; simpl; [reflexivity|].
  destruct (String.eqb k k'); [discriminate|]. intros H. now rewrite IH.
Qed.

Lemma Map_get_set {V} k k' (v : V) m :
  Map_get k (Map_set k' v m) = if String.eqb k k' then Some v else Map_get k m.
Proof.
  induction m as [|[k0 v0] m IH]; simpl.
  - reflexivity.
  - destruct (String.eqb_spec k' k0) as [->|Hne]; simpl.
    + destruct (String.eqb k k0); reflexivity.
    + rewrite IH. destruct (String.eqb_spec k k0) as [->|]; [|reflexivity].
      destruct (String.eqb_spec k0 k'); [congruence|reflexivity].
Qed.

Lemma Map_set_keys {V} k (v : V) m :
  map fst (Map_set k v m) =
  if Map_has k m then map fst m else map fst m ++ [k].
Proof.
  unfold Map_has. induction m as [|[k0 v0] m IH]; simpl; [reflexivity|].
  destruct (String.eqb_spec k k0) as [->|Hne]; simpl; [reflexivity|].
  rewrite IH. destruct (Map_get k m); reflexivity.
Qed.

Lemma Map_get_None_keys {V} k (m : list (string * V)) :
  Map_get k m = None <-> ~ In k (map fst m).
Proof.
  induction m as [|[k0 v0] m IH]; simpl; [tauto|].
  destruct (String.eqb_spec k k0) as [->|Hne].
  - split; [discriminate|]. intros H. exfalso. apply H. now left.
  - rewrite IH. split; [intros H [E|E]; [congruence|tauto] | tauto].
Qed.

Lemma Map_set_NoDup {V} k (v : V) m :
  List.NoDup (map fst m) -> List.NoDup (map fst (Map_set k v m)).
Proof.
  intros H. rewrite Map_set_keys. unfold Map_has.
  destruct (Map_get k m) eqn:E; [assumption|].
  apply Map_get_None_keys in E.
  apply List.NoDup_app; repeat split; try assumption.
  - repeat constructor. intros [].
  - intros y Hy [<-|[]]. tauto.
Qed.

Lemma Map_get_In {V} k (v : V) m :
  List.NoDup (map fst m) -> In (k, v) m -> Map_get k m = Some v.
Proof.
  induction m as [|[k0 v0] m IH]; simpl; [tauto|].
  intros Hnd [E|Hin].
  - inversion E; subst. now rewrite String.eqb_refl.
  - inversion Hnd; subst. destruct (String.eqb_spec k k0) as [->|Hne].
    + exfalso. apply H1. apply in_map_iff. now exists (k0, v).
    + now apply IH.
Qed.

End JSFacts.

(* ===================================================================== *)
(** * Deduplicator: partition and identical titles *)
(* ===================================================================== *)

Section DedupFacts.
Import JS Dedup.
Local Open Scope Q_scope.

(** A title is at similarity 1 from itself: the split never returns an empty
    array, so both sets have the same positive size. *)
Lemma similarity_self t : calculateTextSimilarity t t == 1.
Proof.
  unfold calculateTextSimilarity.
  set (w := Set_from (split_ws (toLowerCase t))).
  assert (Hnd : List.NoDup w) by apply Set_from_NoDup.
  assert (Hpos : (0 < length w)%nat).
  { apply Set_from_nonempty. apply split_go_nonempty. }
  rewrite filter_has_self, Set_from_idem, Set_from_self_union by assumption.
  apply Qmult_inv_r. unfold Qeq. simpl. lia.
Qed.

Lemma threshold_reached_self threshold t :
  threshold <= 1 -> Qle_bool threshold (calculateTextSimilarity t t) = true.
Proof. intros H. apply Qle_bool_iff. now rewrite similarity_self. Qed.

Lemma find_duplicate_app threshold t s s' :
  find_duplicate threshold t (s ++ s') =
  match find_duplicate threshold t s with
  | Some hit => Some hit
  | None => find_duplicate threshold t s'
  end.
Proof.
  induction s as [|[k v] s IH]; simpl; [reflexivity|].
  destruct (Qle_bool threshold (calculateTextSimilarity t k)); [reflexivity|apply IH].
Qed.

(** With a threshold of at most 1, a title that matches no seen title is not
    a key of [seenTitles]. *)
Lemma find_duplicate_None_fresh threshold t s :
  threshold <= 1 -> find_duplicate threshold t s = None -> Map_get t s = None.
Proof.
  intros Hthr. induction s as [|[k v] s IH]; simpl; [reflexivity|].
  destruct (Qle_bool threshold (calculateTextSimilarity t k)) eqn:E; [discriminate|].
  intros H. destruct (String.eqb_spec t k) as [->|Hne]; [|now apply IH].
  rewrite threshold_reached_self in E by assumption. discriminate.
Qed.

Lemma run_app threshold st l l' :
  run threshold st (l ++ l') = run threshold (run threshold st l) l'.
Proof. apply fold_left_app. Qed.

(** Whatever the state, a run appends to both outputs, and what it appends
    is a split of the entries it consumed. *)
Lemma run_interleave threshold l : forall st,
  exists D U,
    deduplicated (run threshold st l) = deduplicated st ++ D /\
    duplicates (run threshold st l) = duplicates st ++ U /\
    Interleave D (map d_result U) l.
Proof.
  induction l as [|r l IH]; intros st.
  - exists [], []. simpl. rewrite !app_nil_r. repeat split. constructor.
  - destruct (IH (step threshold st r)) as (D & U & HD & HU & HI).
    change (run threshold st (r :: l)) with (run threshold (step threshold st r) l).
    rewrite HD, HU. unfold step.
    destruct (find_duplicate threshold (title_key r) (seenTitles st)) as [[seen sim]|];
      simpl.
    + eexists D, (_ :: U). rewrite <- app_assoc. simpl.
      repeat split. now constructor.
    + exists (r :: D), U. rewrite <- app_assoc. simpl.
      repeat split. now constructor.
Qed.

(** [toFixed] reads its argument as a number: equal rationals print alike. *)
Lemma toFixed_compat f x y : x == y -> toFixed f x = toFixed f y.
Proof.
  intros H. unfold toFixed.
  assert (Hn : nearest f x = nearest f y).
  { unfold nearest. apply Qfloor_comp. now rewrite H. }
  assert (Hs : Qle_bool 0 x = Qle_bool 0 y).
  { destruct (Qle_bool 0 x) eqn:Ex, (Qle_bool 0 y) eqn:Ey; try reflexivity.
    - apply Qle_bool_iff in Ex. rewrite H in Ex. apply Qle_bool_iff in Ex. congruence.
    - apply Qle_bool_iff in Ey. rewrite <- H in Ey. apply Qle_bool_iff in Ey. congruence. }
  now rewrite Hn, Hs.
Qed.

Lemma similarity_self_printed t :
  toFixed 3 (calculateTextSimilarity t t) = "1.000"%string.
Proof. now rewrite (toFixed_compat 3 _ 1 (similarity_self t)). Qed.

(** With a threshold of at most 1 the keys of [seenTitles] are the titles of
    the kept entries, in the order they were kept: a kept entry's title is
    always fresh, so [set] appends. *)
Definition mirrored (st : state) : Prop :=
  seenTitles st = map (fun r => (title_key r, r)) (deduplicated st).

Lemma mirrored_step threshold st r :
  threshold <= 1 -> mirrored st -> mirrored (step threshold st r).
Proof.
  intros Hthr Hm. unfold step, mirrored in *.
  destruct (find_duplicate threshold (title_key r) (seenTitles st)) as [[seen sim]|] eqn:E;
    simpl; [assumption|].
  rewrite Map_set_fresh by (eapply find_duplicate_None_fresh; eassumption).
  now rewrite map_app, Hm.
Qed.

Lemma mirrored_run threshold l : forall st,
  threshold <= 1 -> mirrored st -> mirrored (run threshold st l).
Proof.
  induction l as [|r l IH]; intros st Hthr Hm; simpl; [assumption|].
  apply IH; [assumption|]. now apply mirrored_step.
Qed.

(** The first kept entry whose title reaches the threshold against [t]. *)
Definition first_reaching (threshold : Q) (t : string) (kept : list result)
    : option result :=
  List.find (fun r => Qle_bool threshold (calculateTextSimilarity t (title_key r))) kept.

Lemma find_duplicate_mirror threshold t kept :
  find_duplicate threshold t (map (fun r => (title_key r, r)) kept) =
  option_map (fun r => (r, calculateTextSimilarity t (title_key r)))
             (first_reaching threshold t kept).
Proof.
  unfold first_reaching. induction kept as [|r kept IH]; simpl; [reflexivity|].
  destruct (Qle_bool threshold (calculateTextSimilarity t (title_key r)));
    [reflexivity | exact IH].
Qed.

(** A match found among the seen titles stays the first match while the
    loop goes on: [seenTitles] only grows at its end. *)
Lemma found_step threshold t hit st r :
  threshold <= 1 ->
  find_duplicate threshold t (seenTitles st) = Some hit ->
  find_duplicate threshold t (seenTitles (step threshold st r)) = Some hit.
Proof.
  intros Hthr Hfound. unfold step.
  destruct (find_duplicate threshold (title_key r) (seenTitles st)) as [[seen sim]|] eqn:E;
    simpl; [assumption|].
  rewrite Map_set_fresh by (eapply find_duplicate_None_fresh; eassumption).
  now rewrite find_duplicate_app, Hfound.
Qed.

Lemma found_run threshold t hit l : forall st,
  threshold <= 1 ->
  find_duplicate threshold t (seenTitles st) = Some hit ->
  find_duplicate threshold t (seenTitles (run threshold st l)) = Some hit.
Proof.
  induction l as [|r l IH]; intros st Hthr Hfound; simpl; [assumption|].
  apply IH; [assumption|]. now apply found_step.
Qed.

(** An entry that matches no seen title is kept, and from then on it is the
    first match for its own title. *)
Lemma kept_then_found threshold st e :
  threshold <= 1 ->
  find_duplicate threshold (title_key e) (seenTitles st) = None ->
  step threshold st e =
    {| deduplicated := deduplicated st ++ [e];
       duplicates := duplicates st;
       seenTitles := seenTitles st ++ [(title_key e, e)] |} /\
  find_duplicate threshold (title_key e) (seenTitles st ++ [(title_key e, e)]) =
    Some (e, calculateTextSimilarity (title_key e) (title_key e)).
Proof.
  intros Hthr Hnone. split.
  - unfold step. rewrite Hnone.
    now rewrite Map_set_fresh by (eapply find_duplicate_None_fresh; eassumption).
  - rewrite find_duplicate_app, Hnone. simpl.
    now rewrite threshold_reached_self.
Qed.

(** ** Sample runs *)

Definition entry (i t : string) : result :=
  {| r_id := Some i; r_title := Some t; r_fields := [] |}.

Example dedup_two_identical :
  let out := deduplicate (85 # 100) [entry "1" "Login Page"; entry "2" "login page"] in
  deduplicated out = [entry "1" "Login Page"] /\
  map d_result (duplicates out) = [entry "2" "login page"] /\
  map duplicateOf (duplicates out) = [Some "1"%string].
Proof. vm_compute. repeat split. Qed.

Example dedup_route_missing_results :
  deduplicate_route None None = BadRequest "Results array is required".
Proof. reflexivity. Qed.

(** C9.  For every input list and threshold, the deduplicator splits its
    input between the primary output and the duplicates list: the input is an
    order-preserving merge of [deduplicated] and of the results carried by
    [duplicates], so every input entry lands in exactly one of the two, both
    lists keep the input's relative order, and
    [deduplicatedCount + duplicatesRemoved = originalCount]. *)
Theorem deduplicate_partitions (threshold : option Q) (results : list result) :
  exists kept dups st,
    deduplicate_route (Some results) threshold = Ok results kept dups st /\
    Interleave kept (map d_result dups) results /\
    originalCount st = length results /\
    deduplicatedCount st = length kept /\
    duplicatesRemoved st = length dups /\
    (deduplicatedCount st + duplicatesRemoved st = originalCount st)%nat.
Proof.
  unfold deduplicate_route.
  set (out := deduplicate (default default_threshold threshold) results).
  assert (HI : Interleave (deduplicated out) (map d_result (duplicates out)) results).
  { destruct (run_interleave (default default_threshold threshold) results init)
      as (D & U & HD & HU & HI).
    subst out. unfold deduplicate. rewrite HD, HU. exact HI. }
  assert (Hlen : forall (A : Type) (l1 l2 l : list A),
    Interleave l1 l2 l -> (length l1 + length l2 = length l)%nat).
  { intros A l1 l2 l H. induction H; simpl; lia. }
  do 3 eexists. split; [reflexivity|]. simpl.
  repeat split; try assumption.
  specialize (Hlen _ _ _ _ HI). now rewrite length_map in Hlen.
Qed.

(** C8, as the code has it.  Take an input list with two entries [e1]
    (earlier) and [e2] (later) whose titles are identical after case folding,
    and a threshold of at most 1.  If no entry kept before [e1] reaches the
    threshold against that title, [e1] is kept and [e2] is the one classified
    as a duplicate, with [duplicateOf] the id of [e1] and similarity
    ['1.000'].  Otherwise both are classified as duplicates of the first
    kept entry whose title reaches the threshold, with the same similarity,
    and neither is kept.  Around them, both outputs only hold entries that
    come from the rest of the list. *)
Theorem identical_title_later_is_duplicate
    (threshold : Q) (l1 : list result) (e1 : result) (l2 : list result)
    (e2 : result) (l3 : list result) :
  threshold <= 1 ->
  title_key e1 = title_key e2 ->
  exists D2 U2 D3 U3,
    Interleave D2 (map d_result U2) l2 /\
    Interleave D3 (map d_result U3) l3 /\
    (first_reaching threshold (title_key e1)
                    (deduplicated (deduplicate threshold l1)) = None ->
     deduplicated (deduplicate threshold (l1 ++ e1 :: l2 ++ e2 :: l3)) =
       deduplicated (deduplicate threshold l1) ++ e1 :: D2 ++ D3 /\
     duplicates (deduplicate threshold (l1 ++ e1 :: l2 ++ e2 :: l3)) =
       duplicates (deduplicate threshold l1) ++ U2 ++
       {| d_result := e2; duplicateOf := r_id e1; similarity := "1.000" |} :: U3) /\
    (forall first,
       first_reaching threshold (title_key e1)
                      (deduplicated (deduplicate threshold l1)) = Some first ->
       let printed :=
         toFixed 3 (calculateTextSimilarity (title_key e1) (title_key first)) in
       deduplicated (deduplicate threshold (l1 ++ e1 :: l2 ++ e2 :: l3)) =
         deduplicated (deduplicate threshold l1) ++ D2 ++ D3 /\
       duplicates (deduplicate threshold (l1 ++ e1 :: l2 ++ e2 :: l3)) =
         duplicates (deduplicate threshold l1) ++
         {| d_result := e1; duplicateOf := r_id first; similarity := printed |} :: U2 ++
         {| d_result := e2; duplicateOf := r_id first; similarity := printed |} :: U3).
Proof.
  intros Hthr Htitle.
  unfold deduplicate.
  set (s1 := run threshold init l1).
  assert (Hm1 : mirrored s1) by (apply mirrored_run; [assumption | reflexivity]).
  set (s1' := step threshold s1 e1).
  destruct (run_interleave threshold l2 s1') as (D2 & U2 & HD2 & HU2 & HI2).
  set (s2 := run threshold s1' l2) in *.
  set (s2' := step threshold s2 e2).
  destruct (run_interleave threshold l3 s2') as (D3 & U3 & HD3 & HU3 & HI3).
  exists D2, U2, D3, U3.
  split; [assumption|]. split; [assumption|].
  assert (Hrun : run threshold init (l1 ++ e1 :: l2 ++ e2 :: l3) = run threshold s2' l3).
  { rewrite run_app.
    change (run threshold (run threshold init l1) (e1 :: l2 ++ e2 :: l3))
      with (run threshold s1' (l2 ++ e2 :: l3)).
    rewrite run_app. reflexivity. }
  rewrite Hrun, HD3, HU3.
  assert (Hfind : find_duplicate threshold (title_key e1) (seenTitles s1) =
                  option_map (fun r => (r, calculateTextSimilarity (title_key e1) (title_key r)))
                             (first_reaching threshold (title_key e1) (deduplicated s1))).
  { rewrite Hm1. apply find_duplicate_mirror. }
  split.
  - intros Hnone. rewrite Hnone in Hfind. simpl in Hfind.
    destruct (kept_then_found threshold s1 e1 Hthr Hfind) as [Hstep1 Hfound1].
    assert (Hfound2 : find_duplicate threshold (title_key e1) (seenTitles s2) =
                      Some (e1, calculateTextSimilarity (title_key e1) (title_key e1))).
    { apply found_run; [assumption|]. subst s1'. rewrite Hstep1. exact Hfound1. }
    assert (Hs2' : deduplicated s2' = deduplicated s2 /\
                   duplicates s2' = duplicates s2 ++
                     [{| d_result := e2; duplicateOf := r_id e1;
                         similarity := "1.000" |}]).
    { subst s2'. unfold step. rewrite <- Htitle, Hfound2.
      cbn [deduplicated duplicates]. rewrite similarity_self_printed.
      split; reflexivity. }
    destruct Hs2' as [-> ->]. rewrite HD2, HU2.
    subst s1'. rewrite Hstep1. simpl.
    rewrite <- !app_assoc. simpl. split; reflexivity.
  - intros first Hfirst. cbv zeta.
    set (printed := toFixed 3 (calculateTextSimilarity (title_key e1) (title_key first))).
    rewrite Hfirst in Hfind. simpl in Hfind.
    assert (Hstep1 : deduplicated s1' = deduplicated s1 /\
                     duplicates s1' = duplicates s1 ++
                       [{| d_result := e1; duplicateOf := r_id first;
                           similarity := printed |}] /\
                     seenTitles s1' = seenTitles s1).
    { subst s1'. unfold step. rewrite Hfind.
      cbn [deduplicated duplicates seenTitles]. repeat split. }
    destruct Hstep1 as (Hd1 & Hu1 & Hseen1).
    assert (Hfound2 : find_duplicate threshold (title_key e1) (seenTitles s2) =
                      Some (first, calculateTextSimilarity (title_key e1) (title_key first))).
    { apply found_run; [assumption|]. rewrite Hseen1. exact Hfind. }
    assert (Hs2' : deduplicated s2' = deduplicated s2 /\
                   duplicates s2' = duplicates s2 ++
                     [{| d_result := e2; duplicateOf := r_id first;
                         similarity := printed |}]).
    { subst s2'. unfold step. rewrite <- Htitle, Hfound2.
      cbn [deduplicated duplicates]. split; reflexivity. }
    destruct Hs2' as [-> ->]. rewrite HD2, HU2, Hd1, Hu1.
    rewrite <- !app_assoc. simpl. split; reflexivity.
Qed.

(** The theorem at a concrete list: a kept entry, then two entries titled
    alike up to case. *)
Definition sample_before : list result := [entry "0" "Logout"].
Definition sample_between : list result := [entry "m" "Reset password"].

Lemma identical_title_later_is_duplicate_witness :
  exists D2 U2 D3 U3,
    Interleave D2 (map d_result U2) sample_between /\
    Interleave D3 (map d_result U3) [] /\
    (first_reaching (85 # 100) (title_key (entry "1" "Login Page"))
                    (deduplicated (deduplicate (85 # 100) sample_before)) = None ->
     deduplicated (deduplicate (85 # 100)
        (sample_before ++ entry "1" "Login Page" ::
         sample_between ++ entry "2" "LOGIN page" :: [])) =
       deduplicated (deduplicate (85 # 100) sample_before) ++
       entry "1" "Login Page" :: D2 ++ D3 /\
     duplicates (deduplicate (85 # 100)
        (sample_before ++ entry "1" "Login Page" ::
         sample_between ++ entry "2" "LOGIN page" :: [])) =
       duplicates (deduplicate (85 # 100) sample_before) ++ U2 ++
       {| d_result := entry "2" "LOGIN page"; duplicateOf := r_id (entry "1" "Login Page");
          similarity := "1.000" |} :: U3) /\
    (forall first,
       first_reaching (85 # 100) (title_key (entry "1" "Login Page"))
                      (deduplicated (deduplicate (85 # 100) sample_before)) = Some first ->
       let printed :=
         toFixed 3 (calculateTextSimilarity (title_key (entry "1" "Login Page"))
                                            (title_key first)) in
       deduplicated (deduplicate (85 # 100)
          (sample_before ++ entry "1" "Login Page" ::
           sample_between ++ entry "2" "LOGIN page" :: [])) =
         deduplicated (deduplicate (85 # 100) sample_before) ++ D2 ++ D3 /\
       duplicates (deduplicate (85 # 100)
          (sample_before ++ entry "1" "Login Page" ::
           sample_between ++ entry "2" "LOGIN page" :: [])) =
         duplicates (deduplicate (85 # 100) sample_before) ++
         {| d_result := entry "1" "Login Page"; duplicateOf := r_id first;
            similarity := printed |} :: U2 ++
         {| d_result := entry "2" "LOGIN page"; duplicateOf := r_id first;
            similarity := printed |} :: U3).
Proof.
  apply (identical_title_later_is_duplicate (85 # 100) sample_before
           (entry "1" "Login Page") sample_between (entry "2" "LOGIN page") []).
  - unfold Qle. simpl. lia.
  - reflexivity.
Defined.

(** Both cases on concrete lists: the earlier entry kept, and the earlier
    entry itself a duplicate of [x], whose title has the same words. *)
Example identical_titles_sample :
  let kept_case := deduplicate (85 # 100)
        [entry "0" "Logout"; entry "1" "Login Page"; entry "m" "Reset password";
         entry "2" "LOGIN page"] in
  let dropped_case := deduplicate (85 # 100)
        [entry "x" "page login"; entry "1" "Login Page"; entry "2" "LOGIN page"] in
  map r_id (deduplicated kept_case) = [Some "0"; Some "1"; Some "m"]%string /\
  map (fun d => (r_id (d_result d), duplicateOf d, similarity d)) (duplicates kept_case)
    = [(Some "2", Some "1", "1.000")]%string /\
  map r_id (deduplicated dropped_case) = [Some "x"%string] /\
  map (fun d => (r_id (d_result d), duplicateOf d, similarity d)) (duplicates dropped_case)
    = [(Some "1", Some "x", "1.000"); (Some "2", Some "x", "1.000")]%string.
Proof. vm_compute. repeat split. Qed.

(** C8 as stated fails when the earlier of the two entries is itself a
    duplicate of an entry kept before it: with threshold 1 and titles
    ["b a"], ["a b"], ["a b"], both later entries are duplicates of the first
    one, so the primary output holds neither of the two identical-title
    entries and the later one is not recorded as a duplicate of the
    earlier. *)
Lemma identical_title_counterexample :
  let x := entry "x" "b a" in
  let e1 := entry "e1" "a b" in
  let e2 := entry "e2" "a b" in
  let out := deduplicate 1 [x; e1; e2] in
  1 <= 1 /\ title_key e1 = title_key e2 /\
  deduplicated out = [x] /\
  map d_result (duplicates out) = [e1; e2] /\
  map duplicateOf (duplicates out) = [Some "x"; Some "x"]%string /\
  ~ In e1 (deduplicated out) /\ ~ In e2 (deduplicated out) /\
  ~ (exists d, In d (duplicates out) /\ d_result d = e2 /\ duplicateOf d = r_id e1).
Proof.
  cbv zeta.
  assert (Hout : deduplicated (deduplicate 1 [entry "x" "b a"; entry "e1" "a b"; entry "e2" "a b"])
                 = [entry "x" "b a"]) by (vm_compute; reflexivity).
  assert (Hdup : map (fun d => (d_result d, duplicateOf d))
                   (duplicates (deduplicate 1 [entry "x" "b a"; entry "e1" "a b"; entry "e2" "a b"]))
                 = [(entry "e1" "a b", Some "x"%string); (entry "e2" "a b", Some "x"%string)])
    by (vm_compute; reflexivity).
  split; [unfold Qle; simpl; lia|]. split; [reflexivity|].
  split; [exact Hout|].
  split; [now apply (f_equal (map fst)) in Hdup; rewrite map_map in Hdup|].
  split; [now apply (f_equal (map snd)) in Hdup; rewrite map_map in Hdup|].
  rewrite Hout. split; [intros [E|[]]; discriminate|].
  split; [intros [E|[]]; discriminate|].
  intros (d & Hin & Hres & Hof).
  assert (Hp : In (d_result d, duplicateOf d)
                 [(entry "e1" "a b", Some "x"%string); (entry "e2" "a b", Some "x"%string)]).
  { rewrite <- Hdup. apply in_map_iff. exists d. split; [reflexivity | exact Hin]. }
  rewrite Hof in Hp. simpl in Hp. destruct Hp as [E|[E|[]]]; discriminate.
Qed.

End DedupFacts.

(* ===================================================================== *)
(** * Score normaliser *)
(* ===================================================================== *)

Section NormalizerFacts.
Import JS Fusion.
Local Open Scope Q_scope.

Lemma Math_min_le_init xs a : Math_min xs a <= a.
Proof.
  unfold Math_min. revert a. induction xs as [|x xs IH]; intros a; simpl.
  - apply Qle_refl.
  - eapply Qle_trans; [apply IH | apply Q.le_min_l].
Qed.


Lemma Math_max_ge_init xs a : a <= Math_max xs a.
Proof.
  unfold Math_max. revert a. induction xs as [|x xs IH]; intros a; simpl.
  - apply Qle_refl.
  - eapply Qle_trans; [apply Q.le_max_l | apply IH].
Qed.








Lemma range_at_least_one lo hi : lo <= 0 -> 1 <= hi -> 1 <= hi - lo.
Proof.
  intros Hlo Hhi. unfold Qminus.
  apply Qle_trans with (1 + - 0); [unfold Qle; simpl; lia|].
  apply Qplus_le_compat; [assumption|]. now apply Qopp_le_compat.
Qed.


Lemma or_one_range lo hi : 1 <= hi - lo -> or_one (hi - lo) = hi - lo.
Proof.
  intros H. unfold or_one. destruct (Qeq_bool (hi - lo) 0) eqn:E; [|reflexivity].
  apply Qeq_bool_iff in E. rewrite E in H. apply Qle_not_lt in H.
  exfalso. apply H. reflexivity.
Qed.




Definition scored (i : string) (s : Q) : hit :=
  {| hit_id := i; hit_fields := ∅; hit_score := s |}.


(** Equal raw scores on both sides of the anchors: 1/2 stays 1/2, 2 is
    normalised to 1, and -3 to 0. *)
Example equal_scores_are_clamped :
  map bm25Normalized (allResults [scored "a" (1 # 2); scored "b" (1 # 2)] [])
    = [1 # 2; 1 # 2] /\
  Forall (fun c => vectorNormalized c == 1) (allResults [] [scored "a" 2; scored "b" 2]) /\
  Forall (fun c => bm25Normalized c == 0) (allResults [scored "a" (-3); scored "b" (-3)] []).
Proof. repeat split; repeat constructor; vm_compute; congruence. Qed.


End NormalizerFacts.

(* ===================================================================== *)
(** * Hybrid search: degraded, vector-only answers *)
(* ===================================================================== *)

Section HybridFacts.
Import JS Fusion.
Local Open Scope Q_scope.

Lemma insert_desc_In {A} (score : A -> Q) x y l :
  In y (insert_desc score x l) <-> y = x \/ In y l.
Proof.
  induction l as [|z l IH]; simpl; [intuition congruence|].
  destruct (Qle_bool (score z) (score x)); simpl; [intuition congruence|].
  rewrite IH. intuition congruence.
Qed.

Lemma sort_desc_In {A} (score : A -> Q) y l :
  In y (sort_desc score l) <-> In y l.
Proof.
  induction l as [|x l IH]; simpl; [tauto|].
  rewrite insert_desc_In, IH. intuition congruence.
Qed.

Lemma Map_set_values_In {V} k (v : V) m x :
  In x (Map_values (Map_set k v m)) -> x = v \/ In x (Map_values m).
Proof.
  unfold Map_values. induction m as [|[k0 v0] m IH]; simpl.
  - intros [<-|[]]. now left.
  - destruct (String.eqb k k0); simpl.
    + intros [<-|H]; [now left | now right; right].
    + intros [<-|H]; [now right; left|]. destruct (IH H); [now left | now right; right].
Qed.

Lemma Map_get_Some_In {V} k (v : V) m :
  Map_get k m = Some v -> In v (Map_values m).
Proof.
  unfold Map_values. induction m as [|[k0 v0] m IH]; simpl; [discriminate|].
  destruct (String.eqb k k0).
  - intros [= ->]. now left.
  - intros H. right. now apply IH.
Qed.

(** With the lexical method skipped, every entry of the result map comes
    from a vector hit and carries no lexical contribution. *)
Definition from_vector_only (ids : list string) (r : hybrid_result) : Prop :=
  In (h_id r) ids /\ h_bm25Score r = 0 /\ bm25ScoreNormalized r = 0.

Lemma vector_phase_from_vector lo range w ids vs : forall m,
  (forall h, In h vs -> In (hit_id h) ids) ->
  Forall (from_vector_only ids) (Map_values m) ->
  Forall (from_vector_only ids)
         (Map_values (fold_left (hybrid_add_vector true lo range w) vs m)).
Proof.
  induction vs as [|h vs IH]; intros m Hids Hm; simpl; [assumption|].
  apply IH; [intros h' Hh'; apply Hids; now right|].
  rewrite List.Forall_forall in *. intros x Hx. unfold hybrid_add_vector in Hx.
  destruct (Map_get (hit_id h) m) as [existing|] eqn:E;
    apply Map_set_values_In in Hx; destruct Hx as [->|Hx]; auto.
  - apply Map_get_Some_In in E. apply Hm in E. exact E.
  - repeat split; simpl. apply Hids. now left.
Qed.

(** ** Sorting *)

Definition descending {A} (score : A -> Q) : A -> A -> Prop :=
  fun a b => score b <= score a.

Lemma insert_desc_perm {A} (score : A -> Q) x l :
  Permutation (insert_desc score x l) (x :: l).
Proof.
  induction l as [|y l IH]; simpl; [reflexivity|].
  destruct (Qle_bool (score y) (score x)); [reflexivity|].
  rewrite IH. apply perm_swap.
Qed.

Lemma sort_desc_perm {A} (score : A -> Q) l : Permutation (sort_desc score l) l.
Proof.
  induction l as [|x l IH]; simpl; [reflexivity|].
  rewrite insert_desc_perm. now constructor.
Qed.

Lemma insert_desc_sorted {A} (score : A -> Q) x l :
  StronglySorted (descending score) l ->
  StronglySorted (descending score) (insert_desc score x l).
Proof.
  induction 1 as [|y l Hs IH Hall]; simpl.
  - repeat constructor.
  - destruct (Qle_bool (score y) (score x)) eqn:E.
    + apply Qle_bool_iff in E. constructor; [now constructor|].
      constructor; [exact E|]. eapply List.Forall_impl; [|exact Hall].
      intros z Hz. unfold descending in *. eapply Qle_trans; eassumption.
    + assert (Hlt : score x <= score y).
      { apply Qlt_le_weak, Qnot_le_lt. intros H. apply Qle_bool_iff in H. congruence. }
      constructor; [assumption|].
      apply List.Forall_forall. intros z Hz.
      apply (Permutation_in _ (insert_desc_perm score x l)) in Hz.
      destruct Hz as [<-|Hz]; [exact Hlt|].
      rewrite List.Forall_forall in Hall. now apply Hall.
Qed.

Lemma sort_desc_sorted {A} (score : A -> Q) l :
  StronglySorted (descending score) (sort_desc score l).
Proof.
  induction l as [|x l IH]; simpl; [constructor | now apply insert_desc_sorted].
Qed.

(** Two scores that agree on the entries of a list sort it alike. *)
Lemma sorted_by_equal_scores {A} (f g : A -> Q) l :
  (forall x, In x l -> f x = g x) ->
  StronglySorted (descending f) l -> StronglySorted (descending g) l.
Proof.
  intros Heq H. induction H as [|x l Hs IH Hall]; [constructor|].
  constructor.
  - apply IH. intros y Hy. apply Heq. now right.
  - rewrite List.Forall_forall in *. intros y Hy. unfold descending.
    rewrite <- (Heq x (or_introl eq_refl)), <- (Heq y (or_intror Hy)).
    now apply Hall.
Qed.

(** The entry the route opens for a vector hit when the lexical method is
    skipped: the hit's fields, no lexical contribution, the vector score
    normalised over the vector hits, that same number as hybrid score, and
    the tag ['vector-only']. *)
Definition vector_only_entry (vectorResults : list hit) (h : hit) : hybrid_result :=
  let scores := map hit_score vectorResults in
  let lo := Math_min scores 0 in
  let hi := Math_max scores 1 in
  let normalized := (hit_score h - lo) / (hi - lo) in
  {| h_id := hit_id h;
     h_fields := hit_fields h;
     h_bm25Score := 0;
     bm25ScoreNormalized := 0;
     h_vectorScore := hit_score h;
     vectorScoreNormalized := normalized;
     hybridScore := normalized;
     h_foundIn := "vector-only" |}.

(** When the hits have pairwise distinct ids, each one opens a fresh entry
    at the end of the map. *)
Lemma vector_phase_entries lo range w vs : forall m,
  List.NoDup (map hit_id vs) ->
  (forall key, In key (map fst m) -> ~ In key (map hit_id vs)) ->
  fold_left (hybrid_add_vector true lo range w) vs m =
  m ++ map (fun h => (hit_id h,
                      {| h_id := hit_id h; h_fields := hit_fields h; h_bm25Score := 0;
                         bm25ScoreNormalized := 0; h_vectorScore := hit_score h;
                         vectorScoreNormalized := (hit_score h - lo) / range;
                         hybridScore := (hit_score h - lo) / range;
                         h_foundIn := "vector-only" |})) vs.
Proof.
  induction vs as [|h vs IH]; intros m Hnd Hfresh; cbn [fold_left map].
  - now rewrite app_nil_r.
  - inversion Hnd as [|? ? Hnotin Hnd']; subst.
    assert (E : Map_get (hit_id h) m = None).
    { apply Map_get_None_keys. intros Hk. apply (Hfresh _ Hk). now left. }
    unfold hybrid_add_vector at 2. rewrite E. rewrite Map_set_fresh by exact E.
    rewrite IH; [now rewrite <- app_assoc | assumption |].
    intros key Hkey. rewrite map_app in Hkey. apply in_app_or in Hkey.
    destruct Hkey as [Hkey|[<-|[]]].
    + intros Hin. apply (Hfresh _ Hkey). now right.
    + exact Hnotin.
Qed.

Lemma vector_only_combined w1 w2 vs :
  List.NoDup (map hit_id vs) ->
  combinedResults true w1 w2 [] vs = sort_desc hybridScore (map (vector_only_entry vs) vs).
Proof.
  intros Hnd. unfold combinedResults.
  rewrite vector_phase_entries by (assumption || intros key []).
  unfold Map_values. rewrite app_nil_l, map_map. cbn [snd].
  unfold vector_only_entry, vectorRange, vectorMin, vectorMax.
  rewrite or_one_range; [reflexivity|].
  apply range_at_least_one; [apply Math_min_le_init | apply Math_max_ge_init].
Qed.

Lemma apply_filters_In fs rs r : In r (apply_filters fs rs) -> In r rs.
Proof.
  unfold apply_filters. destruct (0 <? length fs)%nat; [|tauto].
  intros H. now apply filter_In in H.
Qed.

Lemma firstn_In {A} n (l : list A) x : In x (firstn n l) -> In x l.
Proof.
  revert l. induction n as [|n IH]; intros [|y l]; simpl; try tauto.
  intros [->|H]; [now left | right; now apply IH].
Qed.

Lemma hybrid_results_from_map req vs r :
  In r (results (hybrid_body_of req true [] vs)) ->
  In r (Map_values (fold_left (hybrid_add_vector true (vectorMin vs) (vectorRange vs)
                                                 (vectorWeight req)) vs [])).
Proof.
  simpl. intros H. apply firstn_In, apply_filters_In in H.
  unfold combinedResults in H. now apply sort_desc_In in H.
Qed.

(** C2, as the code has it.  Take a hybrid query whose lexical index fails
    validation while the vector index passes, with a non-empty query and
    with the connection, the query embedding and the vector search
    succeeding; nothing is asked of the lexical search, which may throw.  On
    the user-stories collection ([useUserStories] set) the query is answered
    with a 200 marked as degraded ([searchType] ['vector-only'],
    [bm25Skipped] true); every result comes from a vector hit with no
    lexical contribution, and when the vector hits have distinct ids the
    results are the entries of the vector hits, ranked by descending
    normalised vector score, then filtered and cut to [limit].  Without
    [useUserStories] the route answers 400 with the validation error. *)
Theorem hybrid_degrades_to_vector_only
    (req : hybrid_request) (env : hybrid_env) (e : string) (vs : list hit) :
  query req <> ""%string ->
  connect env = Returned tt ->
  bm25Validation env = Invalid e ->
  vectorValidation env = Valid ->
  embedding env = Returned tt ->
  vectorSearch env = Returned vs ->
  (useUserStories req = true ->
   exists body,
     hybrid_route req env = Http200 body /\
     searchType body = "vector-only"%string /\
     bm25Skipped body = true /\
     bm25ResultCount (hstats body) = 0%nat /\
     vectorResultCount (hstats body) = length vs /\
     count body = length (results body) /\
     (forall r, In r (results body) -> from_vector_only (map hit_id vs) r) /\
     (List.NoDup (map hit_id vs) ->
      exists ranked,
        Permutation ranked (map (vector_only_entry vs) vs) /\
        StronglySorted (descending vectorScoreNormalized) ranked /\
        results body = firstn (limit req) (apply_filters (filters req) ranked))) /\
  (useUserStories req = false -> hybrid_route req env = Http400 e).
Proof.
  intros Hq Hconn Hbm25 Hvec Hemb Hsearch.
  unfold hybrid_route.
  destruct (String.eqb_spec (query req) "") as [Heq|_]; [contradiction|].
  rewrite Hconn, Hbm25, Hvec, Hemb, Hsearch.
  split; intros Huser; rewrite Huser; [|reflexivity].
  cbn [andb negb ok].
  eexists. split; [reflexivity|].
  do 5 (split; [reflexivity|]). split.
  - intros r Hr. apply hybrid_results_from_map in Hr.
    pose proof (vector_phase_from_vector (vectorMin vs) (vectorRange vs)
                  (vectorWeight req) (map hit_id vs) vs []
                  (fun h Hh => in_map hit_id vs h Hh) (List.Forall_nil _)) as Hall.
    eapply List.Forall_forall in Hall; eassumption.
  - intros Hnd.
    exists (sort_desc hybridScore (map (vector_only_entry vs) vs)).
    split; [apply sort_desc_perm|]. split.
    + apply (sorted_by_equal_scores hybridScore); [|apply sort_desc_sorted].
      intros x Hx. apply sort_desc_In, in_map_iff in Hx.
      destruct Hx as (h & <- & _). reflexivity.
    + cbn [results hybrid_body_of]. now rewrite vector_only_combined.
Qed.

(** A user-stories collection without its lexical index: the lexical search
    would throw, and is never run. *)
Definition stories_request (userStories : bool) : hybrid_request :=
  {| query := "login"; limit := 10; filters := []; bm25Weight := 1 # 2;
     vectorWeight := 1 # 2; useUserStories := userStories |}.

Definition stories_hits : list hit := [scored "s1" (7 # 10); scored "s2" (9 # 10)].

Definition lexical_index_missing : hybrid_env :=
  {| connect := Returned tt;
     bm25Validation := Invalid "Search index 'bm25_index' not found for collection 'stories'";
     vectorValidation := Valid;
     bm25Search := Threw "index not found";
     embedding := Returned tt;
     vectorSearch := Returned stories_hits |}.

Lemma hybrid_degrades_to_vector_only_witness :
  (useUserStories (stories_request true) = true ->
   exists body,
     hybrid_route (stories_request true) lexical_index_missing = Http200 body /\
     searchType body = "vector-only"%string /\
     bm25Skipped body = true /\
     bm25ResultCount (hstats body) = 0%nat /\
     vectorResultCount (hstats body) = length stories_hits /\
     count body = length (results body) /\
     (forall r, In r (results body) -> from_vector_only (map hit_id stories_hits) r) /\
     (List.NoDup (map hit_id stories_hits) ->
      exists ranked,
        Permutation ranked (map (vector_only_entry stories_hits) stories_hits) /\
        StronglySorted (descending vectorScoreNormalized) ranked /\
        results body = firstn (limit (stories_request true))
                              (apply_filters (filters (stories_request true)) ranked))) /\
  (useUserStories (stories_request true) = false ->
   hybrid_route (stories_request true) lexical_index_missing =
     Http400 "Search index 'bm25_index' not found for collection 'stories'").
Proof.
  apply (hybrid_degrades_to_vector_only (stories_request true) lexical_index_missing
           "Search index 'bm25_index' not found for collection 'stories'" stories_hits).
  - simpl. discriminate.
  - reflexivity.
  - reflexivity.
  - reflexivity.
  - reflexivity.
  - reflexivity.
Defined.

Example hybrid_degraded_ranking :
  match hybrid_route (stories_request true) lexical_index_missing with
  | Http200 body =>
      map (fun r => (h_id r, hybridScore r, h_foundIn r)) (results body)
        = [("s2", 9 # 10, "vector-only"); ("s1", 7 # 10, "vector-only")]%string
  | _ => False
  end.
Proof. vm_compute. reflexivity. Qed.

(** C2 as stated fails for the default collection: the same store state
    queried without [useUserStories] is refused with a 400 that carries the
    validation error, although the vector index is there. *)
Lemma hybrid_missing_index_counterexample :
  ok (bm25Validation lexical_index_missing) = false /\
  ok (vectorValidation lexical_index_missing) = true /\
  hybrid_route (stories_request false) lexical_index_missing =
    Http400 "Search index 'bm25_index' not found for collection 'stories'" /\
  ~ (exists body, hybrid_route (stories_request false) lexical_index_missing = Http200 body).
Proof.
  repeat split. intros [body H]. vm_compute in H. discriminate.
Qed.

End HybridFacts.

(* ===================================================================== *)
(** * Reciprocal rank fusion *)
(* ===================================================================== *)

Section RRFFacts.
Import JS Fusion.
Local Open Scope Q_scope.

(** The specification's reading: the 1-based rank of an id in a method's
    result list, and the method's term of the fused score. *)
Fixpoint position_from (n : nat) (key : string) (l : list hit) : option nat :=
  match l with
  | [] => None
  | h :: l' => if String.eqb (hit_id h) key then Some n else position_from (S n) key l'
  end.

Definition rank_of (key : string) (l : list hit) : option nat := position_from 1 key l.

Definition rrf_term (rank : option nat) : Q :=
  match rank with
  | Some r => 1 / inject_Z (60 + Z.of_nat r)
  | None => 0
  end.

(** [a] outranks [b] in one method: the method ranks [a] strictly before
    [b], or ranks [a] and not [b]; a method that ranks neither contributes
    to neither score and has nothing to compare. *)
Definition outranks (ra rb : option nat) : Prop :=
  match ra, rb with
  | Some x, Some y => (x < y)%nat
  | Some _, None => True
  | None, None => True
  | None, Some _ => False
  end.

Lemma position_from_None n key l :
  position_from n key l = None <-> ~ In key (map hit_id l).
Proof.
  revert n. induction l as [|h l IH]; intros n; simpl; [tauto|].
  destruct (String.eqb_spec (hit_id h) key) as [->|Hne].
  - split; [discriminate|]. intros H. exfalso. apply H. now left.
  - rewrite IH. intuition congruence.
Qed.

Lemma position_from_ge n key l r : position_from n key l = Some r -> (n <= r)%nat.
Proof.
  revert n. induction l as [|h l IH]; intros n; simpl; [discriminate|].
  destruct (String.eqb (hit_id h) key).
  - intros [= <-]. lia.
  - intros H. apply IH in H. lia.
Qed.

(** What the proofs track of a candidate. *)
Definition view (c : candidate) : string * option nat * option nat :=
  (c_id c, bm25Rank c, vectorRank c).

Lemma bm25_phase_view lo hi key l : forall n m,
  List.NoDup (map hit_id l) ->
  option_map view (Map_get key (fold_left (add_bm25 lo hi) (indexed_from n l) m)) =
  match position_from (S n) key l with
  | Some r => Some (key, Some r, None)
  | None => option_map view (Map_get key m)
  end.
Proof.
  induction l as [|h l IH]; intros n m Hnd; simpl; [reflexivity|].
  inversion Hnd as [|? ? Hnotin Hnd']; subst.
  rewrite IH by assumption. unfold add_bm25. rewrite Map_get_set.
  destruct (String.eqb_spec (hit_id h) key) as [E|Hne].
  - rewrite E in *.
    apply position_from_None with (n := S (S n)) in Hnotin. rewrite Hnotin.
    rewrite String.eqb_refl. unfold view. simpl. now rewrite Nat.add_1_r.
  - destruct (String.eqb_spec key (hit_id h)); [congruence|reflexivity].
Qed.

Lemma vector_phase_view lo hi key l : forall n m,
  List.NoDup (map hit_id l) ->
  option_map view (Map_get key (fold_left (add_vector lo hi) (indexed_from n l) m)) =
  match position_from (S n) key l with
  | Some r =>
      Some (match Map_get key m with
            | Some c => (c_id c, bm25Rank c, Some r)
            | None => (key, None, Some r)
            end)
  | None => option_map view (Map_get key m)
  end.
Proof.
  induction l as [|h l IH]; intros n m Hnd; [reflexivity|].
  cbn [indexed_from fold_left position_from map] in *.
  inversion Hnd as [|? ? Hnotin Hnd']; subst.
  rewrite IH by assumption.
  assert (Hget : Map_get key (add_vector lo hi m (n, h)) =
                 if String.eqb key (hit_id h)
                 then Some (match Map_get (hit_id h) m with
                            | Some existing =>
                                {| c_id := c_id existing; c_fields := c_fields existing;
                                   bm25Score := bm25Score existing;
                                   bm25Normalized := bm25Normalized existing;
                                   bm25Rank := bm25Rank existing;
                                   vectorScore := hit_score h;
                                   vectorNormalized := normalizeVector (hit_score h) lo hi;
                                   vectorRank := Some (n + 1)%nat;
                                   foundIn := "both" |}
                            | None =>
                                {| c_id := hit_id h; c_fields := hit_fields h;
                                   bm25Score := 0; bm25Normalized := 0;
                                   bm25Rank := None;
                                   vectorScore := hit_score h;
                                   vectorNormalized := normalizeVector (hit_score h) lo hi;
                                   vectorRank := Some (n + 1)%nat;
                                   foundIn := "vector" |}
                            end)
                 else Map_get key m).
  { unfold add_vector. destruct (Map_get (hit_id h) m); now rewrite Map_get_set. }
  rewrite Hget.
  destruct (String.eqb_spec (hit_id h) key) as [E|Hne].
  - rewrite E in *.
    apply position_from_None with (n := S (S n)) in Hnotin. rewrite Hnotin.
    rewrite String.eqb_refl. unfold view.
    destruct (Map_get key m); simpl; now rewrite Nat.add_1_r.
  - destruct (String.eqb_spec key (hit_id h)); [congruence|reflexivity].
Qed.

Lemma fold_Map_set_NoDup {V A} (f : list (string * V) -> A -> list (string * V)) l :
  (forall m a, exists key v, f m a = Map_set key v m) ->
  forall m, List.NoDup (map fst m) -> List.NoDup (map fst (fold_left f l m)).
Proof.
  intros Hf. induction l as [|a l IH]; intros m Hm; simpl; [assumption|].
  apply IH. destruct (Hf m a) as (key & v & ->). now apply Map_set_NoDup.
Qed.

Lemma merge_results_NoDup bm25Results vectorResults :
  List.NoDup (map fst (merge_results bm25Results vectorResults)).
Proof.
  unfold merge_results. apply fold_Map_set_NoDup.
  - intros m [i h]. unfold add_vector. destruct (Map_get (hit_id h) m); eauto.
  - apply fold_Map_set_NoDup; [|constructor].
    intros m [i h]. unfold add_bm25. eauto.
Qed.

(** Every merged candidate carries its id, and its two ranks are its
    positions in the two result lists. *)
Lemma merged_candidate_ranks bm25Results vectorResults c :
  List.NoDup (map hit_id bm25Results) ->
  List.NoDup (map hit_id vectorResults) ->
  In c (allResults bm25Results vectorResults) ->
  bm25Rank c = rank_of (c_id c) bm25Results /\
  vectorRank c = rank_of (c_id c) vectorResults.
Proof.
  intros Hb Hv Hin. unfold allResults, Map_values in Hin.
  apply in_map_iff in Hin. destruct Hin as ([key c'] & Hc & Hin). simpl in Hc. subst c'.
  apply Map_get_In in Hin; [|apply merge_results_NoDup].
  assert (Hview : view c = (key, rank_of key bm25Results, rank_of key vectorResults)).
  { pose proof (vector_phase_view (minVector vectorResults) (maxVector vectorResults) key
                  vectorResults 0
                  (fold_left (add_bm25 (minBM25 bm25Results) (maxBM25 bm25Results))
                             (indexed bm25Results) []) Hv) as H2.
    pose proof (bm25_phase_view (minBM25 bm25Results) (maxBM25 bm25Results) key
                  bm25Results 0 [] Hb) as H1.
    fold (indexed vectorResults) in H2. fold (indexed bm25Results) in H1.
    unfold merge_results in Hin. rewrite Hin in H2. simpl in H1, H2.
    unfold rank_of.
    destruct (Map_get key (fold_left (add_bm25 (minBM25 bm25Results) (maxBM25 bm25Results))
                                     (indexed bm25Results) [])) as [c0|];
      simpl in H1;
      destruct (position_from 1 key bm25Results) as [rb|];
      destruct (position_from 1 key vectorResults) as [rv|];
      try discriminate; unfold view in *; simpl in *; congruence. }
  unfold view in Hview. inversion Hview; subst. rewrite H1, H2. now split.
Qed.

Lemma indexed_from_In {A} (l : list A) : forall n i x,
  In (i, x) (indexed_from n l) -> In x l.
Proof.
  induction l as [|y l IH]; intros n i x; simpl; [tauto|].
  intros [[= _ ->]|H]; [now left | right; eapply IH; eassumption].
Qed.

Lemma fuse_all_rrf_In w1 w2 docs doc score :
  In (doc, score) (fuse_all "rrf" w1 w2 docs) ->
  In doc docs /\
  score = rrf_component (bm25Rank doc) + rrf_component (vectorRank doc).
Proof.
  unfold fuse_all. rewrite <- list_elem_of_In, list_elem_of_omap.
  intros (d & Hd & Hs). apply list_elem_of_In in Hd.
  unfold fuse_score in Hs. simpl in Hs. injection Hs as -> ->. now split.
Qed.

(** A fused result of the RRF branch is a merged candidate together with the
    sum of its two rank components. *)
Lemma fused_rrf_In w1 w2 bm25Results vectorResults f :
  In f (fusedResults "rrf" w1 w2 bm25Results vectorResults) ->
  In (f_doc f) (allResults bm25Results vectorResults) /\
  fusedScore f = rrf_component (bm25Rank (f_doc f)) + rrf_component (vectorRank (f_doc f)).
Proof.
  unfold fusedResults. intros H. apply in_map_iff in H.
  destruct H as ([i [doc score]] & <- & H).
  apply indexed_from_In, sort_desc_In, fuse_all_rrf_In in H. exact H.
Qed.

Lemma rrf_component_rank key l :
  rrf_component (rank_of key l) = rrf_term (rank_of key l).
Proof.
  unfold rank_of. destruct (position_from 1 key l) as [[|r]|] eqn:E; try reflexivity.
  apply position_from_ge in E. lia.
Qed.

Lemma fused_rrf_score w1 w2 bm25Results vectorResults f :
  List.NoDup (map hit_id bm25Results) ->
  List.NoDup (map hit_id vectorResults) ->
  In f (fusedResults "rrf" w1 w2 bm25Results vectorResults) ->
  fusedScore f =
    rrf_term (rank_of (c_id (f_doc f)) bm25Results) +
    rrf_term (rank_of (c_id (f_doc f)) vectorResults).
Proof.
  intros Hb Hv Hin. apply fused_rrf_In in Hin. destruct Hin as [Hc ->].
  destruct (merged_candidate_ranks _ _ _ Hb Hv Hc) as [-> ->].
  now rewrite !rrf_component_rank.
Qed.

Lemma reciprocal_antitone (a b : Z) :
  (0 < b <= a)%Z -> 1 / inject_Z a <= 1 / inject_Z b.
Proof.
  intros [Hb Hab]. destruct a as [|pa|pa]; try lia. destruct b as [|pb|pb]; try lia.
  unfold Qle, Qdiv, Qmult, Qinv, inject_Z. simpl. lia.
Qed.

Lemma rrf_term_nonneg rank : 0 <= rrf_term rank.
Proof.
  destruct rank as [r|]; simpl; [|apply Qle_refl].
  destruct (60 + Z.of_nat r)%Z as [|p|p] eqn:E; try lia.
  unfold Qle, Qdiv, Qmult, Qinv, inject_Z. simpl. lia.
Qed.

Lemma rrf_term_antitone ra rb : outranks ra rb -> rrf_term rb <= rrf_term ra.
Proof.
  destruct ra as [x|], rb as [y|]; simpl; intros H; try contradiction.
  - apply reciprocal_antitone. lia.
  - apply (rrf_term_nonneg (Some x)).
  - apply Qle_refl.
Qed.

Example rrf_sample :
  map (fun f => (c_id (f_doc f), Qred (fusedScore f), newRank f))
      (fusedResults "rrf" (4 # 10) (6 # 10)
         [scored "a" 3; scored "b" 2] [scored "b" (9 # 10); scored "c" (8 # 10)]) =
  [("b", 123 # 3782, 1%nat); ("a", 1 # 61, 2%nat); ("c", 1 # 62, 3%nat)]%string.
Proof. vm_compute. reflexivity. Qed.

(** C6.  Under the RRF policy, when each method's result list names every
    document once, the fused score of a candidate is the sum over the two
    methods of [1 / (60 + rank)], where [rank] is the candidate's 1-based
    position in that method's list, and of 0 for a method whose list does
    not hold the candidate. *)
Theorem rrf_fused_score_is_sum_of_reciprocal_ranks
    (bm25Weight vectorWeight : Q) (bm25Results vectorResults : list hit) (f : fused) :
  List.NoDup (map hit_id bm25Results) ->
  List.NoDup (map hit_id vectorResults) ->
  In f (fusedResults "rrf" bm25Weight vectorWeight bm25Results vectorResults) ->
  fusedScore f =
    rrf_term (rank_of (c_id (f_doc f)) bm25Results) +
    rrf_term (rank_of (c_id (f_doc f)) vectorResults) /\
  (rank_of (c_id (f_doc f)) bm25Results = None ->
   fusedScore f == rrf_term (rank_of (c_id (f_doc f)) vectorResults)) /\
  (rank_of (c_id (f_doc f)) vectorResults = None ->
   fusedScore f == rrf_term (rank_of (c_id (f_doc f)) bm25Results)).
Proof.
  intros Hb Hv Hin. pose proof (fused_rrf_score _ _ _ _ _ Hb Hv Hin) as Hs.
  split; [exact Hs|]. rewrite Hs. split; intros ->; simpl.
  - apply Qplus_0_l.
  - apply Qplus_0_r.
Qed.

(** C7.  RRF fusion is monotonic: of two fused candidates [a] and [b], if
    [a] outranks [b] in every contributing method, the fused score of [a] is
    at least that of [b]. *)
Theorem rrf_fusion_monotonic
    (bm25Weight vectorWeight : Q) (bm25Results vectorResults : list hit) (a b : fused) :
  List.NoDup (map hit_id bm25Results) ->
  List.NoDup (map hit_id vectorResults) ->
  In a (fusedResults "rrf" bm25Weight vectorWeight bm25Results vectorResults) ->
  In b (fusedResults "rrf" bm25Weight vectorWeight bm25Results vectorResults) ->
  outranks (rank_of (c_id (f_doc a)) bm25Results) (rank_of (c_id (f_doc b)) bm25Results) ->
  outranks (rank_of (c_id (f_doc a)) vectorResults) (rank_of (c_id (f_doc b)) vectorResults) ->
  fusedScore b <= fusedScore a.
Proof.
  intros Hb Hv Ha Hb' Hlex Hvec.
  rewrite (fused_rrf_score _ _ _ _ _ Hb Hv Ha), (fused_rrf_score _ _ _ _ _ Hb Hv Hb').
  apply Qplus_le_compat; now apply rrf_term_antitone.
Qed.

(** A query answered by both methods: ["b"] is second lexically and first
    by vector, ["a"] is lexical only, ["c"] vector only. *)
Definition sample_bm25 : list hit := [scored "a" 3; scored "b" 2].
Definition sample_vector : list hit := [scored "b" (9 # 10); scored "c" (8 # 10)].

Ltac distinct_ids :=
  simpl; repeat (constructor; [simpl; intuition discriminate|]); constructor.

Lemma rrf_fused_score_is_sum_of_reciprocal_ranks_witness :
  exists f,
    nth_error (fusedResults "rrf" (4 # 10) (6 # 10) sample_bm25 sample_vector) 0 = Some f /\
    c_id (f_doc f) = "b"%string /\
    (fusedScore f =
       rrf_term (rank_of (c_id (f_doc f)) sample_bm25) +
       rrf_term (rank_of (c_id (f_doc f)) sample_vector) /\
     (rank_of (c_id (f_doc f)) sample_bm25 = None ->
      fusedScore f == rrf_term (rank_of (c_id (f_doc f)) sample_vector)) /\
     (rank_of (c_id (f_doc f)) sample_vector = None ->
      fusedScore f == rrf_term (rank_of (c_id (f_doc f)) sample_bm25))).
Proof.
  eexists. split; [vm_compute; reflexivity|]. split; [reflexivity|].
  apply (rrf_fused_score_is_sum_of_reciprocal_ranks (4 # 10) (6 # 10)
           sample_bm25 sample_vector).
  - distinct_ids.
  - distinct_ids.
  - vm_compute. left. reflexivity.
Defined.

Lemma rrf_fusion_monotonic_witness :
  exists a b,
    nth_error (fusedResults "rrf" (4 # 10) (6 # 10) sample_bm25 sample_vector) 0 = Some a /\
    nth_error (fusedResults "rrf" (4 # 10) (6 # 10) sample_bm25 sample_vector) 2 = Some b /\
    c_id (f_doc a) = "b"%string /\ c_id (f_doc b) = "c"%string /\
    fusedScore b <= fusedScore a.
Proof.
  do 2 eexists. split; [vm_compute; reflexivity|]. split; [vm_compute; reflexivity|].
  split; [reflexivity|]. split; [reflexivity|].
  apply (rrf_fusion_monotonic (4 # 10) (6 # 10) sample_bm25 sample_vector).
  - distinct_ids.
  - distinct_ids.
  - vm_compute. left. reflexivity.
  - vm_compute. right. right. left. reflexivity.
  - vm_compute. exact I.
  - vm_compute. lia.
Defined.

End RRFFacts.

(* ===================================================================== *)
(** * Ingestion: retries and bulk writes *)
(* ===================================================================== *)

Section IngestFacts.
Import JS Ingest.
Local Open Scope Z_scope.

Definition a_testcase : testcase := {| tc_id := Some "TC-1"%string; tc_fields := ∅ |}.

(** A provider that answers each attempt with the given HTTP status. *)
Definition failing_with (statuses : list (option Z)) (attempt : nat) : attempt_outcome :=
  Errored (nth (attempt - 1) statuses None) "request failed".

Definition timing_out (attempt : nat) : attempt_outcome :=
  Errored None "timeout of 30000ms exceeded".

(** [doubling_capped ds]: each delay is twice the previous one, or the cap
    of ten seconds. *)
Fixpoint doubling_capped (ds : list Z) : Prop :=
  match ds with
  | d :: ((d' :: _) as rest) => d' = Z.min (2 * d) 10000 /\ doubling_capped rest
  | _ => True
  end.

(** What holds of every worker: a record whose attempts all fail is handed
    back as a failed result after [maxRetries] attempts, for any positive
    retry limit. *)
Lemma testcase_loop_exhausted call tc maxRetries : forall fuel attempt lastError,
  (forall n, exists status message, call n = Errored status message) ->
  (lastError <> None \/ 0 < fuel)%nat ->
  exists message,
    fst (testcase_loop call tc maxRetries fuel attempt lastError) =
    Fulfilled {| ev_testcase := tc; ev_embedding := None; ev_error := Some message;
                 ev_cost := 0; ev_tokens := 0; ev_metadata := None |}.
Proof.
  induction fuel as [|fuel IH]; intros attempt lastError Hcall Hstart; simpl.
  - destruct lastError as [m|]; [exists m; reflexivity|].
    exfalso. destruct Hstart as [H|H]; [now apply H | inversion H].
  - destruct (Hcall attempt) as (st & m & ->).
    assert (Hne : Some m <> None) by discriminate.
    specialize (IH (S attempt) (Some m) Hcall (or_introl Hne)).
    destruct IH as [m' IH].
    destruct (testcase_loop call tc maxRetries fuel (S attempt) (Some m)) as [r later].
    simpl in *. exists m'. exact IH.
Qed.

Lemma direct_loop_exhausted call tc maxRetries : forall fuel attempt lastError,
  (forall n, exists status message, call n = Errored status message) ->
  (lastError <> None \/ 0 < fuel)%nat ->
  exists message,
    fst (direct_loop call tc maxRetries fuel attempt lastError) =
    Fulfilled {| ev_testcase := tc; ev_embedding := None; ev_error := Some message;
                 ev_cost := 0; ev_tokens := 0; ev_metadata := None |}.
Proof.
  induction fuel as [|fuel IH]; intros attempt lastError Hcall Hstart; simpl.
  - destruct lastError as [m|]; [exists m; reflexivity|].
    exfalso. destruct Hstart as [H|H]; [now apply H | inversion H].
  - destruct (Hcall attempt) as (st & m & ->).
    assert (Hne : Some m <> None) by discriminate.
    specialize (IH (S attempt) (Some m) Hcall (or_introl Hne)).
    destruct IH as [m' IH].
    destruct (direct_loop call tc maxRetries fuel (S attempt) (Some m)) as [r later].
    simpl in *. exists m'. exact IH.
Qed.

(** One settled result per record, whatever happens to the others. *)
Lemma embed_batch_length generate calls batch :
  length (embed_batch generate calls batch) = length batch.
Proof.
  unfold embed_batch, Fusion.indexed. rewrite length_map.
  generalize 0%nat. induction batch as [|tc batch IH]; intros n; simpl; [reflexivity|].
  now rewrite IH.
Qed.

(** On the rate-limit path of [generateEmbeddingDirect] the delays double
    and are capped. *)
Example direct_rate_limited_delays :
  snd (generateEmbeddingDirect (failing_with (repeat (Some 429) 5)) a_testcase 5)
    = [2000; 4000; 8000; 10000; 10000] /\
  doubling_capped
    (snd (generateEmbeddingDirect (failing_with (repeat (Some 429) 5)) a_testcase 5)).
Proof. vm_compute. repeat split. Qed.

(** C3.  The retry loops at the inputs where the backoff is not the doubling,
    capped one.  With the default limit of three attempts, a 503 followed by
    two 429 makes [generateEmbeddingDirect] wait 1000 ms and then 4000 ms;
    with a retry limit of five, [generateTestcaseEmbedding] waits 1000, 2000,
    3000, 4000 ms on time-outs, and with a limit of twelve its last wait is
    11000 ms, above the ten-second cap.  In each case the record comes back
    as a failed result. *)
Theorem retry_backoff_is_linear_off_the_rate_limit_path :
  generateEmbeddingDirect (failing_with [Some 503; Some 429; Some 429]) a_testcase
                          default_maxRetries
    = (final_failure a_testcase (Some "request failed"%string), [1000; 4000; 8000]) /\
  ~ doubling_capped [1000; 4000; 8000] /\
  generateTestcaseEmbedding timing_out a_testcase 5
    = (final_failure a_testcase (Some "timeout of 30000ms exceeded"%string),
       [1000; 2000; 3000; 4000]) /\
  ~ doubling_capped [1000; 2000; 3000; 4000] /\
  generateEmbeddingDirect timing_out a_testcase 5
    = (final_failure a_testcase (Some "timeout of 30000ms exceeded"%string),
       [1000; 2000; 3000; 4000]) /\
  List.last (snd (generateTestcaseEmbedding timing_out a_testcase 12)) 0 = 11000 /\
  10000 < List.last (snd (generateTestcaseEmbedding timing_out a_testcase 12)) 0.
Proof.
  repeat split; try (vm_compute; reflexivity).
  - simpl. intros [H _]. discriminate.
  - simpl. intros (_ & H & _). discriminate.
Qed.

(** The groups handed to the writers hold no error result. *)
Lemma successfulEmbeddings_no_error embeddingResults :
  Forall (fun item => has_error item = false) (successfulEmbeddings embeddingResults).
Proof.
  unfold successfulEmbeddings.
  induction embeddingResults as [|[v|reason] rs IH]; simpl; [constructor| |exact IH].
  destruct (has_error v) eqn:E; [exact IH | now constructor].
Qed.

(** ** Bulk writers *)

Lemma filter_length_le {A} (p : A -> bool) l :
  (length (List.filter p l) <= length l)%nat.
Proof. induction l as [|x l IH]; simpl; [lia|]. destruct (p x); simpl; lia. Qed.

(** C4.  For every group handed to a bulk writer in one call, the count of
    inserted records plus the count of failed ones is the size of the group:
    on an empty group, on a group whose records are all error results, when
    the unordered bulk write resolves, and when it throws.  The driver is
    taken at its contract: a bulk write that resolves has inserted every
    document it was given. *)
Theorem writer_accounts_for_every_record
    (insertMany : list document -> outcome nat) (batch : list embedding_value) :
  (forall documents insertedCount,
     insertMany documents = Returned insertedCount -> insertedCount = length documents) ->
  (inserted (insertTestcasesBatch insertMany batch) +
   failed (insertTestcasesBatch insertMany batch) = length batch)%nat /\
  (inserted (insertBatch insertMany batch) +
   failed (insertBatch insertMany batch) = length batch)%nat.
Proof.
  intros Hdriver.
  pose proof (filter_length_le (fun item => negb (has_error item)) batch) as Hle.
  unfold insertTestcasesBatch, insertBatch. rewrite !length_map.
  destruct (Nat.eqb_spec (length batch) 0) as [E|_]; [simpl; lia|].
  destruct (Nat.eqb_spec (length (List.filter (fun item => negb (has_error item)) batch)) 0)
    as [E|_]; [simpl; lia|].
  split.
  - destruct (insertMany _) as [n|m] eqn:Hr; simpl; [|lia].
    apply Hdriver in Hr. rewrite length_map in Hr. lia.
  - destruct (insertMany _) as [n|m] eqn:Hr; simpl; [|lia].
    apply Hdriver in Hr. rewrite length_map in Hr. lia.
Qed.

(** A store that rejects a bulk write holding a document without a vector,
    and otherwise inserts everything. *)
Definition strict_store (documents : list document) : outcome nat :=
  if forallb (fun d => match doc_embedding d with Some _ => true | None => false end)
             documents
  then Returned (length documents)
  else Threw "Document failed validation".

Definition embedded_item (i : string) : embedding_value :=
  {| ev_testcase := {| tc_id := Some i; tc_fields := ∅ |};
     ev_embedding := Some [1 # 2; 1 # 3]%Q; ev_error := None; ev_cost := 0%Q;
     ev_tokens := 12;
     ev_metadata := Some {| m_model := "text-embedding-3-small"; m_cost := 0%Q;
                            m_tokens := 12; m_apiSource := "testleaf" |} |}.

Definition failed_item (i : string) : embedding_value :=
  {| ev_testcase := {| tc_id := Some i; tc_fields := ∅ |};
     ev_embedding := None; ev_error := Some "API error"%string; ev_cost := 0%Q;
     ev_tokens := 0; ev_metadata := None |}.

Lemma strict_store_contract documents insertedCount :
  strict_store documents = Returned insertedCount -> insertedCount = length documents.
Proof.
  unfold strict_store. destruct (forallb _ documents); [|discriminate].
  now intros [= <-].
Qed.

Lemma writer_accounts_for_every_record_witness :
  (inserted (insertTestcasesBatch strict_store
               [embedded_item "TC-1"; failed_item "TC-2"; embedded_item "TC-3"]) +
   failed (insertTestcasesBatch strict_store
             [embedded_item "TC-1"; failed_item "TC-2"; embedded_item "TC-3"]) =
   length [embedded_item "TC-1"; failed_item "TC-2"; embedded_item "TC-3"])%nat /\
  (inserted (insertBatch strict_store
               [embedded_item "TC-1"; failed_item "TC-2"; embedded_item "TC-3"]) +
   failed (insertBatch strict_store
             [embedded_item "TC-1"; failed_item "TC-2"; embedded_item "TC-3"]) =
   length [embedded_item "TC-1"; failed_item "TC-2"; embedded_item "TC-3"])%nat.
Proof.
  apply (writer_accounts_for_every_record strict_store
           [embedded_item "TC-1"; failed_item "TC-2"; embedded_item "TC-3"]).
  intros documents insertedCount. unfold strict_store.
  destruct (forallb _ documents); [|discriminate]. now intros [= <-].
Defined.

Example writer_outcomes :
  insertTestcasesBatch strict_store [embedded_item "TC-1"; failed_item "TC-2"]
    = {| inserted := 1; failed := 1 |} /\
  insertTestcasesBatch strict_store [failed_item "TC-1"; failed_item "TC-2"]
    = {| inserted := 0; failed := 2 |} /\
  insertBatch (fun _ => Threw "E11000 duplicate key") [embedded_item "TC-1"; embedded_item "TC-2"]
    = {| inserted := 0; failed := 2 |} /\
  insertBatch strict_store [] = {| inserted := 0; failed := 0 |}.
Proof. vm_compute. repeat split. Qed.

End IngestFacts.

(* ===================================================================== *)
(** * Job tracker *)
(* ===================================================================== *)

Section JobsFacts.
Import JS Jobs.

Lemma updateJob_absent (jobs : registry) jobId u :
  jobs !! jobId = None -> updateJob jobs jobId u = jobs.
Proof. intros H. unfold updateJob. now rewrite H. Qed.

Lemma updateJob_present (jobs : registry) jobId u j :
  jobs !! jobId = Some j -> updateJob jobs jobId u !! jobId = Some (assign j u).
Proof. intros H. unfold updateJob. rewrite H. apply lookup_insert_eq. Qed.

Lemma updateJob_other (jobs : registry) jobId u other :
  jobId <> other -> updateJob jobs jobId u !! other = jobs !! other.
Proof.
  intros H. unfold updateJob. destruct (jobs !! jobId); [|reflexivity].
  now apply lookup_insert_ne.
Qed.

(** The sweep deletes exactly the jobs started more than an hour ago. *)
Lemma sweep_evicts (jobs : registry) now jobId j :
  jobs !! jobId = Some j -> (startTime j < now - oneHour)%Z ->
  getJob (sweep now jobs) jobId = None.
Proof.
  intros Hj Hold. unfold getJob, sweep. apply map_lookup_filter_None. right.
  intros j' Hj'. simpl. rewrite Hj in Hj'. injection Hj' as <-. tauto.
Qed.

Lemma sweep_keeps (jobs : registry) now jobId j :
  jobs !! jobId = Some j -> (now - oneHour <= startTime j)%Z ->
  getJob (sweep now jobs) jobId = Some j.
Proof.
  intros Hj Hyoung. unfold getJob, sweep. apply map_lookup_filter_Some.
  split; [assumption|]. simpl. lia.
Qed.

(** ** The orchestrator keeps the job in progress until the last update *)

(** The job is registered, in progress, and its counters mirror the loop's
    [results]. *)
Definition tracking (jobs : registry) (jobId : string) (rs : list file_result) : Prop :=
  exists j, jobs !! jobId = Some j /\ status j = "in-progress"%string /\
            progress j = length rs /\ results j = rs /\ endTime j = None.

(** The outcomes after which the loop has a result to record and goes on. *)
Definition comes_back (o : child_outcome) : bool :=
  match o with
  | SpawnThrew _ | Closed _ _ _ => true
  | WriteThrew _ | Uncaught _ | NoClose => false
  end.

(** Every target is attempted: its script is written and its child reports
    back, by closing or by failing to spawn. *)
Definition attempted (child : nat -> string -> child_outcome) : Prop :=
  forall n fileName, comes_back (child n fileName) = true.

(** What stops the run at an outcome that does not come back. *)
Definition halts (o : child_outcome) : option halt :=
  match o with
  | WriteThrew message => Some (Rejected message)
  | Uncaught message => Some (Suspended (Some message))
  | NoClose => Some (Suspended None)
  | SpawnThrew _ | Closed _ _ _ => None
  end.

(** The per-file status the loop records for an outcome. *)
Definition recorded_status (o : child_outcome) : string :=
  match o with
  | Closed 0 _ _ => "completed"
  | _ => "failed"
  end.

Lemma process_file_tracking child jobId jobs rs fileName :
  comes_back (child (length rs) fileName) = true ->
  tracking jobs jobId rs ->
  exists jobs' r,
    process_file child jobId (jobs, rs) fileName = inl (jobs', rs ++ [r]) /\
    file r = fileName /\
    fr_status r = recorded_status (child (length rs) fileName) /\
    tracking jobs' jobId (rs ++ [r]).
Proof.
  intros Hatt (j & Hj & Hst & Hpr & Hrs & Hend).
  unfold process_file.
  set (u1 := {| u_status := None; u_progress := None; u_results := None;
                u_currentFile := Some fileName; u_endTime := None |}).
  pose proof (updateJob_present jobs jobId u1 j Hj) as H1.
  assert (Hpush : forall r,
    tracking (updateJob (updateJob jobs jobId u1) jobId
                {| u_status := None; u_progress := Some (length (rs ++ [r]));
                   u_results := Some (rs ++ [r]); u_currentFile := None;
                   u_endTime := None |}) jobId (rs ++ [r])).
  { intros r. eexists. split; [eapply updateJob_present; exact H1|]. simpl.
    repeat split; assumption. }
  destruct (child (length rs) fileName) as [m|m|code out err|m|] eqn:E;
    try (simpl in Hatt; inversion Hatt).
  - do 2 eexists. split; [reflexivity|]. repeat split. apply Hpush.
  - destruct (Z.eqb_spec code 0) as [->|Hne].
    + do 2 eexists. split; [reflexivity|]. repeat split. apply Hpush.
    + do 2 eexists. split; [reflexivity|]. split; [reflexivity|].
      split; [|apply Hpush]. simpl. destruct code; [congruence|reflexivity|reflexivity].
Qed.

(** ** The run on the server, with the sweep's timer *)

(** As [tracking], for a job started at [start]. *)
Definition tracking_since (start : Z) (jobs : registry) (jobId : string)
    (rs : list file_result) : Prop :=
  exists j, jobs !! jobId = Some j /\ status j = "in-progress"%string /\
            progress j = length rs /\ results j = rs /\ endTime j = None /\
            startTime j = start.

(** No sweep runs more than one hour after [start] while the job runs. *)
Definition within_retention (start : Z) (timer : nat -> list Z) : Prop :=
  forall n now, In now (timer n) -> (now - oneHour <= start)%Z.

Lemma sweeps_keep times : forall (jobs : registry) jobId j,
  jobs !! jobId = Some j ->
  (forall now, In now times -> (now - oneHour <= startTime j)%Z) ->
  sweeps times jobs !! jobId = Some j.
Proof.
  induction times as [|now times IH]; intros jobs jobId j Hj Hyoung; [exact Hj|].
  unfold sweeps. cbn [fold_left]. apply IH.
  - apply (sweep_keeps jobs now jobId j Hj). apply Hyoung. now left.
  - intros t Ht. apply Hyoung. now right.
Qed.

Lemma sweeps_evicted times : forall (jobs : registry) jobId,
  jobs !! jobId = None -> sweeps times jobs !! jobId = None.
Proof.
  induction times as [|now times IH]; intros jobs jobId Hj; [exact Hj|].
  unfold sweeps. cbn [fold_left]. apply IH.
  unfold sweep. apply map_lookup_filter_None. now left.
Qed.

Lemma background_file_tracking child timer jobId start jobs rs fileName :
  comes_back (child (length rs) fileName) = true ->
  (forall now, In now (timer (length rs)) -> (now - oneHour <= start)%Z) ->
  tracking_since start jobs jobId rs ->
  exists jobs' r,
    process_file_in_background child timer jobId (jobs, rs) fileName
      = inl (jobs', rs ++ [r]) /\
    file r = fileName /\
    fr_status r = recorded_status (child (length rs) fileName) /\
    tracking_since start jobs' jobId (rs ++ [r]).
Proof.
  intros Hatt Hyoung (j & Hj & Hst & Hpr & Hrs & Hend & Hstart).
  unfold process_file_in_background.
  set (u1 := {| u_status := None; u_progress := None; u_results := None;
                u_currentFile := Some fileName; u_endTime := None |}).
  pose proof (updateJob_present jobs jobId u1 j Hj) as H1.
  assert (Hpush : forall jobs1 r,
    jobs1 !! jobId = Some (assign j u1) ->
    tracking_since start
      (updateJob jobs1 jobId
         {| u_status := None; u_progress := Some (length (rs ++ [r]));
            u_results := Some (rs ++ [r]); u_currentFile := None;
            u_endTime := None |}) jobId (rs ++ [r])).
  { intros jobs1 r Hjobs1. eexists. split; [eapply updateJob_present; exact Hjobs1|].
    simpl. repeat split; assumption. }
  assert (Hswept : sweeps (timer (length rs)) (updateJob jobs jobId u1) !! jobId
                   = Some (assign j u1)).
  { apply sweeps_keep; [exact H1|]. simpl. rewrite Hstart. exact Hyoung. }
  destruct (child (length rs) fileName) as [m|m|code out err|m|] eqn:E;
    try (simpl in Hatt; inversion Hatt).
  - do 2 eexists. split; [reflexivity|]. repeat split. now apply Hpush.
  - cbv zeta. destruct (Z.eqb_spec code 0) as [->|Hne].
    + do 2 eexists. split; [reflexivity|]. repeat split. now apply Hpush.
    + do 2 eexists. split; [reflexivity|]. split; [reflexivity|].
      split; [|now apply Hpush]. simpl. destruct code; [congruence|reflexivity|reflexivity].
Qed.

Lemma background_files_tracking child timer jobId start fs : forall jobs rs,
  (forall n name, (length rs <= n < length rs + length fs)%nat ->
                  comes_back (child n name) = true) ->
  (forall n now, (length rs <= n < length rs + length fs)%nat ->
                 In now (timer n) -> (now - oneHour <= start)%Z) ->
  tracking_since start jobs jobId rs ->
  exists jobs' added,
    process_files_in_background child timer jobId (jobs, rs) fs
      = inl (jobs', rs ++ added) /\
    map file added = fs /\
    map fr_status added =
      map (fun '(n, f) => recorded_status (child n f)) (Fusion.indexed_from (length rs) fs) /\
    tracking_since start jobs' jobId (rs ++ added).
Proof.
  induction fs as [|f fs IH]; intros jobs rs Hatt Hret Htr.
  - exists jobs, []. simpl. rewrite app_nil_r. auto.
  - destruct (background_file_tracking child timer jobId start jobs rs f)
      as (jobs1 & r & Hstep & Hfile & Hstatus & Htr1);
      [apply Hatt; simpl; lia | intros t; apply Hret; simpl; lia | assumption |].
    destruct (IH jobs1 (rs ++ [r])) as (jobs2 & added & Hrun & Hfiles & Hsts & Htr2);
      [intros n name Hn; apply Hatt; rewrite length_app in Hn; simpl in *; lia
      | intros n t Hn; apply Hret; rewrite length_app in Hn; simpl in *; lia
      | assumption |].
    exists jobs2, (r :: added).
    cbn [process_files_in_background]. rewrite Hstep, Hrun. rewrite <- app_assoc. simpl.
    rewrite length_app in Hsts. simpl in Hsts. rewrite Nat.add_1_r in Hsts.
    rewrite <- app_assoc in Htr2. simpl in Htr2.
    repeat split; try assumption; congruence.
Qed.

Lemma createJob_tracking now suffix (jobs : registry) fs :
  tracking (snd (createJob now suffix jobs fs)) (fst (createJob now suffix jobs fs)) [].
Proof.
  unfold createJob. simpl. eexists. split; [apply lookup_insert_eq|].
  simpl. repeat split.
Qed.

Lemma createJob_tracking_since now suffix (jobs : registry) fs :
  tracking_since now (snd (createJob now suffix jobs fs))
                 (fst (createJob now suffix jobs fs)) [].
Proof.
  unfold createJob. simpl. eexists. split; [apply lookup_insert_eq|].
  simpl. repeat split.
Qed.

(** With a timer that never fires during the run, the run on the server is
    the run of the function on its own. *)
Lemma quiet_background child timer jobId finished fs (jobs : registry) :
  (forall n, timer n = []) ->
  processEmbeddings_in_background child timer jobId finished jobs fs =
  processEmbeddings child jobId finished jobs fs.
Proof.
  intros Hquiet. unfold processEmbeddings_in_background, processEmbeddings.
  assert (Hfiles : forall st,
    process_files_in_background child timer jobId st fs = process_files child jobId st fs).
  { induction fs as [|f fs IH]; intros st; [reflexivity|].
    cbn [process_files_in_background process_files].
    assert (Hfile : process_file_in_background child timer jobId st f
                    = process_file child jobId st f).
    { destruct st as [jobs0 rs]. unfold process_file_in_background, process_file.
      rewrite Hquiet. reflexivity. }
    rewrite Hfile. destruct (process_file child jobId st f); [apply IH | reflexivity]. }
  now rewrite Hfiles.
Qed.

(** C5, as the code has it.  A job is created ['in-progress'].  Provided
    every target is attempted (its script is written and its child reports
    back) and the sweep does not run more than one hour after the job's
    start while the job runs, the job ends ['completed'] whatever the
    per-file outcomes: the status stays ['in-progress'] after each file of
    the loop, the final update sets ['completed'] with the end time, and the
    failures are only visible in the per-file results, one per target and in
    order.  In particular a job all of whose files failed ends ['completed']
    with every result ['failed']. *)
Theorem job_ends_completed_whatever_the_outcomes
    (child : nat -> string -> child_outcome) (timer : nat -> list Z)
    (now finished : Z) (suffix : string) (jobs : registry) (fs : list string) :
  attempted child ->
  within_retention now timer ->
  let jobId := fst (createJob now suffix jobs fs) in
  let created := snd (createJob now suffix jobs fs) in
  let final := processEmbeddings_in_background child timer jobId finished created fs in
  (exists j, getJob created jobId = Some j /\ status j = "in-progress"%string /\
             progress j = 0%nat /\ total j = length fs /\ results j = [] /\
             endTime j = None) /\
  (forall done rest, fs = done ++ rest ->
     exists jobs' rs j,
       process_files_in_background child timer jobId (created, []) done
         = inl (jobs', rs) /\
       getJob jobs' jobId = Some j /\ status j = "in-progress"%string /\
       progress j = length done /\ results j = rs) /\
  (exists j,
     snd final = None /\
     getJob (fst final) jobId = Some j /\
     status j = "completed"%string /\
     endTime j = Some finished /\
     progress j = length fs /\
     map file (results j) = fs /\
     map fr_status (results j) =
       map (fun '(n, f) => recorded_status (child n f)) (Fusion.indexed fs) /\
     Forall (fun r => fr_status r = "completed"%string \/ fr_status r = "failed"%string)
            (results j) /\
     ((forall n f, recorded_status (child n f) = "failed"%string) ->
      Forall (fun r => fr_status r = "failed"%string) (results j))).
Proof.
  intros Hatt Hret jobId created final.
  pose proof (createJob_tracking_since now suffix jobs fs) as Htr0.
  fold jobId created in Htr0.
  split; [|split].
  - unfold createJob in jobId, created. simpl in jobId, created.
    eexists. split; [apply lookup_insert_eq|]. simpl. repeat split.
  - intros done rest _.
    destruct (background_files_tracking child timer jobId now done created []
                (fun n name _ => Hatt n name) (fun n t _ => Hret n t) Htr0)
      as (jobs' & added & Hrun & Hfiles & _ & (j & Hj & Hst & Hpr & Hrs & _)).
    simpl in *. exists jobs', added, j.
    repeat split; try assumption. now rewrite <- Hfiles, length_map.
  - destruct (background_files_tracking child timer jobId now fs created []
                (fun n name _ => Hatt n name) (fun n t _ => Hret n t) Htr0)
      as (jobs' & added & Hrun & Hfiles & Hsts & (j & Hj & Hst & Hpr & Hrs & Hend & _)).
    simpl in Hrun, Hsts, Hj, Hpr, Hrs.
    subst final. unfold processEmbeddings_in_background. rewrite Hrun. simpl.
    exists (assign j {| u_status := Some "completed"%string; u_progress := None;
                        u_results := Some added; u_currentFile := None;
                        u_endTime := Some finished |}).
    assert (Hstatuses : Forall (fun r => fr_status r = "completed"%string \/
                                         fr_status r = "failed"%string) added).
    { apply List.Forall_forall. intros r Hr.
      apply (in_map fr_status) in Hr. rewrite Hsts in Hr. apply in_map_iff in Hr.
      destruct Hr as ([n f] & <- & _). unfold recorded_status.
      destruct (child n f) as [| |[| |]| |]; auto. }
    split; [|split; [|simpl; repeat split]].
    + reflexivity.
    + now apply updateJob_present.
    + rewrite Hpr, <- Hfiles. symmetry. apply length_map.
    + assumption.
    + exact Hsts.
    + exact Hstatuses.
    + intros Hall. apply List.Forall_forall. intros r Hr.
      apply (in_map fr_status) in Hr. rewrite Hsts in Hr. apply in_map_iff in Hr.
      destruct Hr as ([n f] & <- & _). apply Hall.
Qed.

(** Three files that all fail: a non-zero exit with output on stderr, a
    non-zero exit with none, a spawn that throws. *)
Definition all_failing (n : nat) (fileName : string) : child_outcome :=
  match n with
  | O => Closed 1 "" "MongoServerSelectionError"
  | 1%nat => Closed 2 "Testleaf API error" ""
  | _ => SpawnThrew "spawn ENOMEM"
  end.

Definition three_files : list string := ["a.json"; "b.json"; "c.json"]%string.

(** The sweep runs every ten minutes; here twice while the second file is
    processed, within the hour that follows the start of the job. *)
Definition timer_within_the_hour (n : nat) : list Z :=
  match n with
  | 1%nat => [1700000600000; 1700001200000]%Z
  | _ => []
  end.

Lemma job_ends_completed_whatever_the_outcomes_witness :
  let jobId := fst (createJob 1700000000000 "k3j9x0abc" ∅ three_files) in
  let created := snd (createJob 1700000000000 "k3j9x0abc" ∅ three_files) in
  let final := processEmbeddings_in_background all_failing timer_within_the_hour jobId
                 1700001290000 created three_files in
  (exists j, getJob created jobId = Some j /\ status j = "in-progress"%string /\
             progress j = 0%nat /\ total j = length three_files /\ results j = [] /\
             endTime j = None) /\
  (forall done rest, three_files = done ++ rest ->
     exists jobs' rs j,
       process_files_in_background all_failing timer_within_the_hour jobId (created, []) done
         = inl (jobs', rs) /\
       getJob jobs' jobId = Some j /\ status j = "in-progress"%string /\
       progress j = length done /\ results j = rs) /\
  (exists j,
     snd final = None /\
     getJob (fst final) jobId = Some j /\
     status j = "completed"%string /\
     endTime j = Some 1700001290000%Z /\
     progress j = length three_files /\
     map file (results j) = three_files /\
     map fr_status (results j) =
       map (fun '(n, f) => recorded_status (all_failing n f)) (Fusion.indexed three_files) /\
     Forall (fun r => fr_status r = "completed"%string \/ fr_status r = "failed"%string)
            (results j) /\
     ((forall n f, recorded_status (all_failing n f) = "failed"%string) ->
      Forall (fun r => fr_status r = "failed"%string) (results j))).
Proof.
  apply (job_ends_completed_whatever_the_outcomes all_failing timer_within_the_hour
           1700000000000 1700001290000 "k3j9x0abc" ∅ three_files).
  - intros n fileName. unfold all_failing.
    destruct n as [|[|n]]; reflexivity.
  - intros n t. unfold timer_within_the_hour.
    destruct n as [|[|n]]; simpl; intros H; try contradiction.
    destruct H as [<-|[<-|[]]]; vm_compute; discriminate.
Defined.

Example all_failed_job_is_completed :
  let jobId := fst (createJob 1700000000000 "k3j9x0abc" ∅ three_files) in
  let created := snd (createJob 1700000000000 "k3j9x0abc" ∅ three_files) in
  option_map (fun j => (status j, progress j, map fr_status (results j), map fr_error (results j)))
    (getJob (fst (processEmbeddings_in_background all_failing timer_within_the_hour jobId
                    1700001290000 created three_files)) jobId)
  = Some ("completed", 3%nat, ["failed"; "failed"; "failed"],
          [Some "MongoServerSelectionError"; Some "Testleaf API error";
           Some "spawn ENOMEM"])%string.
Proof. vm_compute. reflexivity. Qed.

(** C5 as stated fails when the job outlives the retention: here the second
    of three files is still being processed when the sweep runs one hour and
    one millisecond after the start of the job.  Every target is attempted
    and the run reaches its last line, yet the job is gone: the remaining
    updates, the final one included, find nothing to update, and no job with
    status ['completed'] is left under that id. *)
Definition all_closing (n : nat) (fileName : string) : child_outcome :=
  match n with
  | 1%nat => Closed 1 "" "Testleaf API error"
  | _ => Closed 0 "Processed 12/12" ""
  end.

Definition timer_past_the_hour (n : nat) : list Z :=
  match n with
  | 1%nat => [1700003000000; 1700003600001]%Z
  | _ => []
  end.

Lemma job_evicted_while_running_counterexample :
  let jobId := fst (createJob 1700000000000 "k3j9x0abc" ∅ three_files) in
  let created := snd (createJob 1700000000000 "k3j9x0abc" ∅ three_files) in
  let final := processEmbeddings_in_background all_closing timer_past_the_hour jobId
                 1700003700000 created three_files in
  option_map status (getJob created jobId) = Some "in-progress"%string /\
  Forall (fun '(n, f) => comes_back (all_closing n f) = true) (Fusion.indexed three_files) /\
  snd final = None /\
  getJob (fst final) jobId = None /\
  ~ (exists j, getJob (fst final) jobId = Some j /\ status j = "completed"%string).
Proof.
  cbv zeta.
  assert (Hgone : getJob (fst (processEmbeddings_in_background all_closing
                                 timer_past_the_hour
                                 (fst (createJob 1700000000000 "k3j9x0abc" ∅ three_files))
                                 1700003700000
                                 (snd (createJob 1700000000000 "k3j9x0abc" ∅ three_files))
                                 three_files))
                         (fst (createJob 1700000000000 "k3j9x0abc" ∅ three_files)) = None)
    by (vm_compute; reflexivity).
  split; [vm_compute; reflexivity|].
  split; [repeat constructor|].
  split; [vm_compute; reflexivity|].
  split; [exact Hgone|].
  intros (j & Hj & _). rewrite Hgone in Hj. inversion Hj.
Qed.

(** C10.  [updateJob] on an id that is not in the registry changes nothing:
    the registry is the same map, no job appears under that id or any other,
    and the lookup route still answers that the job is not found.  The
    function is total, so nothing is raised. *)
Theorem updateJob_unknown_id_is_noop (jobs : registry) (jobId : string) (u : updates) :
  getJob jobs jobId = None ->
  updateJob jobs jobId u = jobs /\
  getJob (updateJob jobs jobId u) jobId = None /\
  (forall other, getJob (updateJob jobs jobId u) other = getJob jobs other) /\
  job_route (updateJob jobs jobId u) jobId = NotFound.
Proof.
  intros Hnone. unfold getJob in Hnone.
  pose proof (updateJob_absent jobs jobId u Hnone) as Heq.
  rewrite Heq. unfold job_route, getJob. rewrite Hnone. auto.
Qed.

(** An update that arrives after the sweep has evicted the job. *)
Lemma updateJob_unknown_id_is_noop_witness :
  let jobId := fst (createJob 1700000000000 "k3j9x0abc" ∅ three_files) in
  let swept := sweep 1700003600001 (snd (createJob 1700000000000 "k3j9x0abc" ∅ three_files)) in
  let u := {| u_status := Some "completed"%string; u_progress := Some 3%nat;
              u_results := Some []; u_currentFile := None;
              u_endTime := Some 1700003700000%Z |} in
  updateJob swept jobId u = swept /\
  getJob (updateJob swept jobId u) jobId = None /\
  (forall other, getJob (updateJob swept jobId u) other = getJob swept other) /\
  job_route (updateJob swept jobId u) jobId = NotFound.
Proof.
  apply (updateJob_unknown_id_is_noop
           (sweep 1700003600001 (snd (createJob 1700000000000 "k3j9x0abc" ∅ three_files)))
           (fst (createJob 1700000000000 "k3j9x0abc" ∅ three_files))).
  vm_compute. reflexivity.
Defined.

End JobsFacts.

(* ===================================================================== *)
(** * More on the deduplicator *)
(* ===================================================================== *)

Section SimilarityFacts.
Import JS Dedup.
Local Open Scope Q_scope.

Lemma Set_add_In x l : forall acc,
  In x (fold_left Set_add l acc) <-> In x acc \/ In x l.
Proof.
  induction l as [|y l IH]; intros acc; simpl; [tauto|].
  rewrite IH. unfold Set_add. destruct (Set_has y acc) eqn:E.
  - apply Set_has_In in E. intuition congruence.
  - rewrite in_app_iff. simpl. intuition congruence.
Qed.

Lemma Set_from_In x l : In x (Set_from l) <-> In x l.
Proof. unfold Set_from. rewrite Set_add_In. simpl. tauto. Qed.

Lemma NoDup_same_length (l1 l2 : list string) :
  List.NoDup l1 -> List.NoDup l2 -> (forall x, In x l1 <-> In x l2) ->
  length l1 = length l2.
Proof.
  intros H1 H2 H. apply Nat.le_antisymm; apply List.NoDup_incl_length; try assumption;
    intros x Hx; now apply H.
Qed.

(** The two sizes the quotient is made of. *)
Definition intersection_size (text1 text2 : string) : nat :=
  let words1 := Set_from (split_ws (toLowerCase text1)) in
  let words2 := Set_from (split_ws (toLowerCase text2)) in
  length (Set_from (List.filter (fun x => Set_has x words2) words1)).

Definition union_size (text1 text2 : string) : nat :=
  let words1 := Set_from (split_ws (toLowerCase text1)) in
  let words2 := Set_from (split_ws (toLowerCase text2)) in
  length (Set_from (words1 ++ words2)).

Lemma similarity_quotient text1 text2 :
  calculateTextSimilarity text1 text2 =
  inject_Z (Z.of_nat (intersection_size text1 text2)) /
  inject_Z (Z.of_nat (union_size text1 text2)).
Proof. reflexivity. Qed.

Lemma sizes_ordered text1 text2 :
  (intersection_size text1 text2 <= union_size text1 text2)%nat /\
  (0 < union_size text1 text2)%nat.
Proof.
  unfold intersection_size, union_size.
  set (w1 := Set_from (split_ws (toLowerCase text1))).
  set (w2 := Set_from (split_ws (toLowerCase text2))).
  assert (H1 : List.NoDup w1) by apply Set_from_NoDup.
  assert (Hpos : (0 < length w1)%nat)
    by (apply Set_from_nonempty, split_go_nonempty).
  assert (Hgrow : (length w1 <= length (Set_from (w1 ++ w2)))%nat).
  { unfold Set_from. rewrite fold_left_app. fold (Set_from w1).
    rewrite Set_from_idem by assumption. apply Set_add_grows. }
  split; [|lia].
  rewrite Set_from_idem by now apply List.NoDup_filter.
  etransitivity; [apply filter_length_le | exact Hgrow].
Qed.

Lemma nat_quotient_in_unit (a b : nat) :
  (a <= b)%nat -> (0 < b)%nat ->
  0 <= inject_Z (Z.of_nat a) / inject_Z (Z.of_nat b) <= 1.
Proof.
  intros Hab Hb.
  assert (Hpos : 0 < inject_Z (Z.of_nat b)) by (unfold Qlt; simpl; lia).
  split.
  - apply Qle_shift_div_l; [assumption|]. rewrite Qmult_0_l. unfold Qle. simpl. lia.
  - apply Qle_shift_div_r; [assumption|]. rewrite Qmult_1_l. unfold Qle. simpl. lia.
Qed.

(** X1.  The similarity of any two texts lies between 0 and 1. *)
Theorem similarity_in_unit_interval (text1 text2 : string) :
  0 <= calculateTextSimilarity text1 text2 <= 1.
Proof.
  rewrite similarity_quotient.
  destruct (sizes_ordered text1 text2). now apply nat_quotient_in_unit.
Qed.

(** X2.  The similarity does not depend on the order of its arguments. *)
Theorem similarity_symmetric (text1 text2 : string) :
  calculateTextSimilarity text1 text2 = calculateTextSimilarity text2 text1.
Proof.
  rewrite !similarity_quotient.
  assert (Hi : intersection_size text1 text2 = intersection_size text2 text1).
  { unfold intersection_size.
    apply NoDup_same_length; try apply Set_from_NoDup.
    intros x. rewrite !Set_from_In, !filter_In, !Set_has_In. tauto. }
  assert (Hu : union_size text1 text2 = union_size text2 text1).
  { unfold union_size.
    apply NoDup_same_length; try apply Set_from_NoDup.
    intros x. rewrite !Set_from_In, !in_app_iff. tauto. }
  now rewrite Hi, Hu.
Qed.

(** X3.  Two texts are at similarity 1 exactly when they have the same set
    of case-folded words, whatever the order and the repetitions. *)
Theorem similarity_one_iff_same_words (text1 text2 : string) :
  calculateTextSimilarity text1 text2 == 1 <->
  (forall w, In w (split_ws (toLowerCase text1)) <-> In w (split_ws (toLowerCase text2))).
Proof.
  rewrite similarity_quotient.
  destruct (sizes_ordered text1 text2) as [Hle Hpos].
  assert (Hq : inject_Z (Z.of_nat (intersection_size text1 text2)) /
               inject_Z (Z.of_nat (union_size text1 text2)) == 1 <->
               intersection_size text1 text2 = union_size text1 text2).
  { split.
    - intros H. apply (Qmult_inj_r _ _ (inject_Z (Z.of_nat (union_size text1 text2)))) in H.
      + rewrite Qmult_1_l in H. unfold Qdiv in H.
        rewrite <- Qmult_assoc, (Qmult_comm (/ _)), Qmult_inv_r, Qmult_1_r in H
          by (unfold Qeq; simpl; lia).
        unfold Qeq in H. simpl in H. lia.
      + unfold Qeq. simpl. lia.
    - intros ->. apply Qmult_inv_r. unfold Qeq. simpl. lia. }
  rewrite Hq. unfold intersection_size, union_size.
  set (w1 := Set_from (split_ws (toLowerCase text1))).
  set (w2 := Set_from (split_ws (toLowerCase text2))).
  assert (H1 : List.NoDup w1) by apply Set_from_NoDup.
  assert (H2 : List.NoDup w2) by apply Set_from_NoDup.
  assert (Hw1 : forall w, In w w1 <-> In w (split_ws (toLowerCase text1)))
    by (intros w; apply Set_from_In).
  assert (Hw2 : forall w, In w w2 <-> In w (split_ws (toLowerCase text2)))
    by (intros w; apply Set_from_In).
  set (inter := Set_from (List.filter (fun x => Set_has x w2) w1)).
  set (union := Set_from (w1 ++ w2)).
  assert (Hin_inter : forall w, In w inter <-> In w w1 /\ In w w2).
  { intros w. unfold inter. now rewrite Set_from_In, filter_In, Set_has_In. }
  assert (Hin_union : forall w, In w union <-> In w w1 \/ In w w2).
  { intros w. unfold union. now rewrite Set_from_In, in_app_iff. }
  split.
  - intros Hlen w. rewrite <- Hw1, <- Hw2.
    assert (Hincl : incl union inter).
    { apply List.NoDup_length_incl; [apply Set_from_NoDup | lia |].
      intros x Hx. apply Hin_union. apply Hin_inter in Hx. tauto. }
    split; intros Hw.
    + apply (Hin_inter w), Hincl, Hin_union. now left.
    + apply (Hin_inter w), Hincl, Hin_union. now right.
  - intros Hsame. apply NoDup_same_length; try apply Set_from_NoDup.
    intros w. rewrite Hin_inter, Hin_union, !Hw1, !Hw2, Hsame. tauto.
Qed.

End SimilarityFacts.

Section DedupBehaviour.
Import JS Dedup.
Local Open Scope Q_scope.

Lemma similarity_range t key :
  0 <= inject_Z (Z.of_nat (intersection_size t key)) /
       inject_Z (Z.of_nat (union_size t key)) <= 1.
Proof. destruct (sizes_ordered t key). now apply nat_quotient_in_unit. Qed.

(** The printed similarity is the nearest multiple of one thousandth: it
    falls short of the exact quotient by less than half a thousandth. *)
Lemma nearest_close (x : Q) :
  0 <= x -> x - (1 # 2000) < inject_Z (nearest 3 x) / 1000.
Proof.
  intros Hx. unfold nearest. rewrite Qabs_pos by assumption.
  change (inject_Z (10 ^ Z.of_nat 3)) with 1000.
  pose proof (Qlt_floor (x * 1000 + (1 # 2))) as Hfl.
  rewrite inject_Z_plus in Hfl. change (inject_Z 1) with 1 in Hfl.
  apply Qlt_shift_div_l; [reflexivity|].
  apply Qplus_lt_l with (z := 1).
  eapply Qle_lt_trans; [|exact Hfl].
  ring_simplify. apply Qplus_le_r. unfold Qle. simpl. lia.
Qed.

Lemma find_duplicate_None_all threshold t seen :
  find_duplicate threshold t seen = None <->
  (forall key v, In (key, v) seen ->
     Qle_bool threshold (calculateTextSimilarity t key) = false).
Proof.
  induction seen as [|[k0 v0] seen IH]; simpl.
  - split; [intros _ key v [] | reflexivity].
  - destruct (Qle_bool threshold (calculateTextSimilarity t k0)) eqn:E.
    + split; [discriminate|]. intros H. specialize (H k0 v0 (or_introl eq_refl)). congruence.
    + rewrite IH. split.
      * intros H key v [[= <- <-]|Hin]; [assumption | eauto].
      * intros H key v Hin. apply (H key v). now right.
Qed.

Lemma find_duplicate_Some threshold t seen v s :
  find_duplicate threshold t seen = Some (v, s) ->
  exists key, In (key, v) seen /\ s = calculateTextSimilarity t key /\
              Qle_bool threshold s = true.
Proof.
  induction seen as [|[k0 v0] seen IH]; simpl; [discriminate|].
  destruct (Qle_bool threshold (calculateTextSimilarity t k0)) eqn:E.
  - intros [= <- <-]. exists k0. auto.
  - intros H. destruct (IH H) as (key & Hin & Hs & Hle). exists key. auto.
Qed.

Lemma Map_set_In {V} k (v : V) m k' v' :
  In (k', v') (Map_set k v m) -> (k' = k /\ v' = v) \/ In (k', v') m.
Proof.
  induction m as [|[k0 v0] m IH]; simpl.
  - intros [[= <- <-]|[]]. now left.
  - destruct (String.eqb_spec k k0) as [->|Hne]; simpl.
    + intros [[= <- <-]|H]; [now left | now right; right].
    + intros [[= <- <-]|H]; [now right; left|].
      destruct (IH H); [now left | now right; right].
Qed.

Lemma Map_set_key_kept {V} k (v : V) m k' :
  In k' (map fst m) \/ k' = k -> In k' (map fst (Map_set k v m)).
Proof.
  rewrite Map_set_keys. destruct (Map_has k m) eqn:E.
  - intros [H| ->]; [assumption|]. unfold Map_has in E.
    destruct (Map_get k m) eqn:G; [|discriminate].
    destruct (in_dec string_dec k (map fst m)) as [Hin|Hnot]; [assumption|].
    apply Map_get_None_keys in Hnot. congruence.
  - rewrite in_app_iff. simpl. intuition.
Qed.

(** X4.  A threshold above 1 switches the deduplicator off: every entry is
    kept, in order, and nothing is reported as a duplicate. *)
Theorem threshold_above_one_keeps_everything (threshold : Q) (results : list result) :
  1 < threshold ->
  deduplicated (deduplicate threshold results) = results /\
  duplicates (deduplicate threshold results) = [].
Proof.
  intros Hthr.
  assert (Hnone : forall t seen, find_duplicate threshold t seen = None).
  { intros t seen. apply find_duplicate_None_all. intros key v _.
    destruct (Qle_bool threshold (calculateTextSimilarity t key)) eqn:E; [|reflexivity].
    apply Qle_bool_iff in E. destruct (similarity_range t key) as [_ Hle].
    exfalso. apply (Qlt_not_le _ _ Hthr). eapply Qle_trans; eassumption. }
  assert (Hgen : forall l st,
    deduplicated (run threshold st l) = deduplicated st ++ l /\
    duplicates (run threshold st l) = duplicates st).
  { induction l as [|r l IH]; intros st.
    - simpl. now rewrite app_nil_r.
    - change (run threshold st (r :: l)) with (run threshold (step threshold st r) l).
      destruct (IH (step threshold st r)) as [-> ->].
      unfold step. rewrite Hnone. simpl. now rewrite <- app_assoc. }
  apply (Hgen results init).
Qed.

Lemma threshold_above_one_keeps_everything_witness :
  deduplicated (deduplicate (11 # 10) [entry "1" "Login"; entry "2" "login"])
    = [entry "1" "Login"; entry "2" "login"] /\
  duplicates (deduplicate (11 # 10) [entry "1" "Login"; entry "2" "login"]) = [].
Proof.
  apply (threshold_above_one_keeps_everything (11 # 10)
           [entry "1" "Login"; entry "2" "login"]).
  reflexivity.
Defined.

(** X5.  With a threshold of zero or less only the first entry survives:
    every later entry is reported as a duplicate of the first one, with its
    similarity to the first title as [toFixed(3)] prints it. *)
Theorem threshold_at_most_zero_keeps_first
    (threshold : Q) (first : result) (rest : list result) :
  threshold <= 0 ->
  deduplicated (deduplicate threshold (first :: rest)) = [first] /\
  duplicates (deduplicate threshold (first :: rest)) =
    map (fun r => {| d_result := r; duplicateOf := r_id first;
                     similarity :=
                       toFixed 3 (calculateTextSimilarity (title_key r) (title_key first)) |})
        rest.
Proof.
  intros Hthr.
  assert (Hhit : forall t, Qle_bool threshold
                   (calculateTextSimilarity t (title_key first)) = true).
  { intros t. apply Qle_bool_iff. eapply Qle_trans; [exact Hthr|].
    apply similarity_range. }
  assert (Hgen : forall l D,
    let st := {| deduplicated := [first]; duplicates := D;
                 seenTitles := [(title_key first, first)] |} in
    deduplicated (run threshold st l) = [first] /\
    duplicates (run threshold st l) =
      D ++ map (fun r => {| d_result := r; duplicateOf := r_id first;
                            similarity := toFixed 3 (calculateTextSimilarity (title_key r)
                                                       (title_key first)) |}) l).
  { induction l as [|r l IH]; intros D st.
    - simpl. now rewrite app_nil_r.
    - change (run threshold st (r :: l)) with (run threshold (step threshold st r) l).
      unfold step. subst st. cbn [seenTitles find_duplicate]. rewrite Hhit.
      cbn [deduplicated duplicates seenTitles].
      destruct (IH (D ++ [{| d_result := r; duplicateOf := r_id first;
                             similarity := toFixed 3 (calculateTextSimilarity (title_key r)
                                                        (title_key first)) |}])) as [-> ->].
      now rewrite <- app_assoc. }
  unfold deduplicate.
  change (run threshold init (first :: rest))
    with (run threshold (step threshold init first) rest).
  apply (Hgen rest []).
Qed.

Lemma threshold_at_most_zero_keeps_first_witness :
  deduplicated (deduplicate 0 (entry "1" "Login" :: [entry "2" "Checkout cart"]))
    = [entry "1" "Login"] /\
  duplicates (deduplicate 0 (entry "1" "Login" :: [entry "2" "Checkout cart"])) =
    map (fun r => {| d_result := r; duplicateOf := r_id (entry "1" "Login");
                     similarity :=
                       toFixed 3 (calculateTextSimilarity (title_key r)
                                    (title_key (entry "1" "Login"))) |})
        [entry "2" "Checkout cart"].
Proof.
  apply (threshold_at_most_zero_keeps_first 0 (entry "1" "Login") [entry "2" "Checkout cart"]).
  apply Qle_refl.
Defined.

(** What the loop keeps true of its state: every kept entry has its title
    among the seen titles, every seen title belongs to a kept entry, no kept
    entry reaches the threshold against a kept entry before it, and every
    reported duplicate points at a kept entry that it matches. *)
Record consistent (threshold : Q) (st : state) : Prop := {
  kept_seen : forall r, In r (deduplicated st) ->
                In (title_key r) (map fst (seenTitles st));
  seen_kept : forall key v, In (key, v) (seenTitles st) ->
                key = title_key v /\ In v (deduplicated st);
  kept_apart : forall i j a b, (i < j)%nat ->
                nth_error (deduplicated st) i = Some a ->
                nth_error (deduplicated st) j = Some b ->
                ~ threshold <= calculateTextSimilarity (title_key b) (title_key a);
  dups_matched : forall d, In d (duplicates st) ->
                exists keeper, In keeper (deduplicated st) /\
                  duplicateOf d = r_id keeper /\
                  threshold <= calculateTextSimilarity (title_key (d_result d))
                                                       (title_key keeper) /\
                  similarity d =
                    toFixed 3 (calculateTextSimilarity (title_key (d_result d))
                                                       (title_key keeper))
}.

Lemma consistent_init threshold : consistent threshold init.
Proof.
  split; simpl; try tauto.
  intros i j a b _ H. destruct i; discriminate.
Qed.

Lemma consistent_step threshold st r :
  consistent threshold st -> consistent threshold (step threshold st r).
Proof.
  intros [Hks Hsk Hap Hdm]. unfold step.
  destruct (find_duplicate threshold (title_key r) (seenTitles st)) as [[v s]|] eqn:E.
  - split; simpl; try assumption.
    intros d Hd. apply in_app_or in Hd. destruct Hd as [Hd|[<-|[]]]; [now apply Hdm|].
    apply find_duplicate_Some in E. destruct E as (key & Hin & Hs & Hle).
    destruct (Hsk key v Hin) as [-> Hv]. cbn [duplicateOf similarity d_result].
    exists v. subst s. apply Qle_bool_iff in Hle. repeat split; assumption.
  - pose proof (proj1 (find_duplicate_None_all _ _ _) E) as Hnone.
    split; simpl.
    + intros x Hx. apply Map_set_key_kept. apply in_app_or in Hx.
      destruct Hx as [Hx|[<-|[]]]; [left; now apply Hks | now right].
    + intros key v Hin. apply Map_set_In in Hin. rewrite in_app_iff.
      destruct Hin as [[-> ->]|Hin]; [split; [reflexivity | right; now left]|].
      destruct (Hsk key v Hin). auto.
    + intros i j a b Hij Ha Hb.
      destruct (Nat.lt_ge_cases j (length (deduplicated st))) as [Hj|Hj].
      * rewrite nth_error_app1 in Ha, Hb by lia. exact (Hap i j a b Hij Ha Hb).
      * rewrite nth_error_app2 in Hb by assumption.
        destruct (j - length (deduplicated st))%nat as [|n] eqn:Ej;
          [|destruct n; discriminate].
        simpl in Hb. injection Hb as <-.
        rewrite nth_error_app1 in Ha by lia.
        apply nth_error_In, Hks in Ha. apply in_map_iff in Ha.
        destruct Ha as ([key v] & Hkey & Hin). simpl in Hkey. subst key.
        specialize (Hnone _ _ Hin). intros Hle. apply Qle_bool_iff in Hle. congruence.
    + intros d Hd. destruct (Hdm d Hd) as (keeper & Hk & Hrest).
      exists keeper. split; [apply in_or_app; now left | exact Hrest].
Qed.

Lemma consistent_run threshold l : forall st,
  consistent threshold st -> consistent threshold (run threshold st l).
Proof.
  induction l as [|r l IH]; intros st H; [exact H|].
  apply IH. now apply consistent_step.
Qed.

(** X6.  Whatever the input and the threshold, no entry of the primary
    output reaches the threshold against an entry kept before it. *)
Theorem kept_entries_stay_below_threshold
    (threshold : Q) (results : list result) (i j : nat) (a b : result) :
  (i < j)%nat ->
  nth_error (deduplicated (deduplicate threshold results)) i = Some a ->
  nth_error (deduplicated (deduplicate threshold results)) j = Some b ->
  calculateTextSimilarity (title_key b) (title_key a) < threshold.
Proof.
  intros Hij Ha Hb. apply Qnot_le_lt.
  eapply (kept_apart threshold _ (consistent_run threshold results init
                                    (consistent_init threshold))); eassumption.
Qed.

Lemma kept_entries_stay_below_threshold_witness :
  calculateTextSimilarity
    (title_key (entry "3" "Reset password"))
    (title_key (entry "1" "Login with valid credentials")) < 85 # 100.
Proof.
  apply (kept_entries_stay_below_threshold (85 # 100)
           [entry "1" "Login with valid credentials";
            entry "2" "login with VALID credentials";
            entry "3" "Reset password"] 0 1).
  - lia.
  - vm_compute. reflexivity.
  - vm_compute. reflexivity.
Defined.

(** X7.  Every reported duplicate names an entry of the primary output:
    [duplicateOf] is that entry's id, the similarity of the two titles
    reaches the threshold, and [similarity] is that similarity as
    [toFixed(3)] prints it: the nearest multiple of one thousandth, which can
    fall short of the threshold, by less than half a thousandth. *)
Theorem duplicates_point_at_kept_entries
    (threshold : Q) (results : list result) (d : duplicate) :
  In d (duplicates (deduplicate threshold results)) ->
  exists keeper,
    In keeper (deduplicated (deduplicate threshold results)) /\
    duplicateOf d = r_id keeper /\
    let exact := calculateTextSimilarity (title_key (d_result d)) (title_key keeper) in
    threshold <= exact /\
    similarity d = toFixed 3 exact /\
    threshold - (1 # 2000) < inject_Z (nearest 3 exact) / 1000.
Proof.
  intros Hd.
  destruct (dups_matched threshold _ (consistent_run threshold results init
                                        (consistent_init threshold)) d Hd)
    as (keeper & Hk & Hof & Hle & Hprinted).
  exists keeper. cbv zeta. repeat split; try assumption.
  eapply Qle_lt_trans; [|apply nearest_close, similarity_range].
  apply Qplus_le_l. exact Hle.
Qed.

Lemma duplicates_point_at_kept_entries_witness :
  exists d keeper,
    nth_error (duplicates (deduplicate (85 # 100)
                 [entry "1" "Login Page"; entry "2" "login page"])) 0 = Some d /\
    In keeper (deduplicated (deduplicate (85 # 100)
                 [entry "1" "Login Page"; entry "2" "login page"])) /\
    duplicateOf d = r_id keeper /\
    let exact := calculateTextSimilarity (title_key (d_result d)) (title_key keeper) in
    85 # 100 <= exact /\
    similarity d = toFixed 3 exact /\
    (85 # 100) - (1 # 2000) < inject_Z (nearest 3 exact) / 1000.
Proof.
  eexists.
  destruct (duplicates_point_at_kept_entries (85 # 100)
              [entry "1" "Login Page"; entry "2" "login page"]
              {| d_result := entry "2" "login page"; duplicateOf := Some "1"%string;
                 similarity := "1.000" |})
    as (keeper & H).
  - vm_compute. left. reflexivity.
  - exists keeper. split; [vm_compute; reflexivity | exact H].
Defined.

(** A seven-word title against one that shares six of its words, at
    threshold 0.8571: the quotient 6/7 reaches the threshold and is printed
    as ['0.857']. *)
Example printed_similarity_below_threshold :
  let threshold := 8571 # 10000 in
  let out := deduplicate threshold
               [entry "1" "reset the user password from the login page";
                entry "2" "reset the user password from login"] in
  map r_id (deduplicated out) = [Some "1"%string] /\
  map (fun d => (duplicateOf d, similarity d)) (duplicates out)
    = [(Some "1", "0.857")]%string /\
  calculateTextSimilarity "reset the user password from login"
                          "reset the user password from the login page" == 6 # 7 /\
  threshold <= 6 # 7 /\ (857 # 1000) < threshold.
Proof. vm_compute. repeat split; congruence. Qed.

End DedupBehaviour.

(* ===================================================================== *)
(** * More on the fusion engine *)
(* ===================================================================== *)

Section MergeFacts.
Import JS Fusion.
Local Open Scope Q_scope.

(** The first hit of a list with a given id, with its 1-based rank. *)
Fixpoint find_hit (n : nat) (key : string) (l : list hit) : option (nat * hit) :=
  match l with
  | [] => None
  | h :: l' => if String.eqb (hit_id h) key then Some (n, h) else find_hit (S n) key l'
  end.

(** The candidate the merge is expected to hold for an id, from where the
    id stands in the two result lists. *)
Definition expected_candidate (bm25Results vectorResults : list hit) (key : string)
    : option candidate :=
  match find_hit 1 key bm25Results, find_hit 1 key vectorResults with
  | Some (rb, hb), Some (rv, hv) =>
      Some {| c_id := hit_id hb; c_fields := hit_fields hb;
              bm25Score := hit_score hb;
              bm25Normalized := normalizeBM25 (hit_score hb) (minBM25 bm25Results)
                                              (maxBM25 bm25Results);
              bm25Rank := Some rb;
              vectorScore := hit_score hv;
              vectorNormalized := normalizeVector (hit_score hv) (minVector vectorResults)
                                                  (maxVector vectorResults);
              vectorRank := Some rv;
              foundIn := "both" |}
  | Some (rb, hb), None =>
      Some {| c_id := hit_id hb; c_fields := hit_fields hb;
              bm25Score := hit_score hb;
              bm25Normalized := normalizeBM25 (hit_score hb) (minBM25 bm25Results)
                                              (maxBM25 bm25Results);
              bm25Rank := Some rb;
              vectorScore := 0; vectorNormalized := 0; vectorRank := None;
              foundIn := "bm25" |}
  | None, Some (rv, hv) =>
      Some {| c_id := hit_id hv; c_fields := hit_fields hv;
              bm25Score := 0; bm25Normalized := 0; bm25Rank := None;
              vectorScore := hit_score hv;
              vectorNormalized := normalizeVector (hit_score hv) (minVector vectorResults)
                                                  (maxVector vectorResults);
              vectorRank := Some rv;
              foundIn := "vector" |}
  | None, None => None
  end.

Lemma find_hit_None n key l : find_hit n key l = None <-> ~ In key (map hit_id l).
Proof.
  revert n. induction l as [|h l IH]; intros n; simpl; [tauto|].
  destruct (String.eqb_spec (hit_id h) key) as [E|Hne].
  - split; [discriminate|]. intros H. exfalso. apply H. now left.
  - rewrite IH. intuition congruence.
Qed.

Lemma find_hit_Some n key l r h :
  find_hit n key l = Some (r, h) -> hit_id h = key /\ In h l /\ (n <= r)%nat.
Proof.
  revert n. induction l as [|h0 l IH]; intros n; simpl; [discriminate|].
  destruct (String.eqb_spec (hit_id h0) key) as [E|Hne].
  - intros [= <- <-]. auto.
  - intros H. destruct (IH _ H) as (H1 & H2 & H3). repeat split; auto. lia.
Qed.

Lemma bm25_phase_get lo hi key l : forall n m,
  List.NoDup (map hit_id l) ->
  Map_get key (fold_left (add_bm25 lo hi) (indexed_from n l) m) =
  match find_hit (S n) key l with
  | Some (r, h) =>
      Some {| c_id := hit_id h; c_fields := hit_fields h; bm25Score := hit_score h;
              bm25Normalized := normalizeBM25 (hit_score h) lo hi; bm25Rank := Some r;
              vectorScore := 0; vectorNormalized := 0; vectorRank := None;
              foundIn := "bm25" |}
  | None => Map_get key m
  end.
Proof.
  induction l as [|h l IH]; intros n m Hnd; [reflexivity|].
  cbn [indexed_from fold_left find_hit map] in *.
  inversion Hnd as [|? ? Hnotin Hnd']; subst.
  rewrite IH by assumption. unfold add_bm25. rewrite Map_get_set.
  destruct (String.eqb_spec (hit_id h) key) as [E|Hne].
  - rewrite E in Hnotin.
    apply find_hit_None with (n := S (S n)) in Hnotin. rewrite Hnotin.
    rewrite <- E, String.eqb_refl. now rewrite Nat.add_1_r.
  - destruct (String.eqb_spec key (hit_id h)); [congruence|reflexivity].
Qed.

Definition merged_with (lo hi : Q) (existing : option candidate) (r : nat) (h : hit)
    : candidate :=
  match existing with
  | Some e =>
      {| c_id := c_id e; c_fields := c_fields e; bm25Score := bm25Score e;
         bm25Normalized := bm25Normalized e; bm25Rank := bm25Rank e;
         vectorScore := hit_score h;
         vectorNormalized := normalizeVector (hit_score h) lo hi;
         vectorRank := Some r; foundIn := "both" |}
  | None =>
      {| c_id := hit_id h; c_fields := hit_fields h; bm25Score := 0;
         bm25Normalized := 0; bm25Rank := None; vectorScore := hit_score h;
         vectorNormalized := normalizeVector (hit_score h) lo hi;
         vectorRank := Some r; foundIn := "vector" |}
  end.

Lemma vector_phase_get lo hi key l : forall n m,
  List.NoDup (map hit_id l) ->
  Map_get key (fold_left (add_vector lo hi) (indexed_from n l) m) =
  match find_hit (S n) key l with
  | Some (r, h) => Some (merged_with lo hi (Map_get key m) r h)
  | None => Map_get key m
  end.
Proof.
  induction l as [|h l IH]; intros n m Hnd; [reflexivity|].
  cbn [indexed_from fold_left find_hit map] in *.
  inversion Hnd as [|? ? Hnotin Hnd']; subst.
  rewrite IH by assumption.
  assert (Hget : Map_get key (add_vector lo hi m (n, h)) =
                 if String.eqb key (hit_id h)
                 then Some (merged_with lo hi (Map_get (hit_id h) m) (n + 1) h)
                 else Map_get key m).
  { unfold add_vector, merged_with. destruct (Map_get (hit_id h) m); now rewrite Map_get_set. }
  rewrite Hget.
  destruct (String.eqb_spec (hit_id h) key) as [E|Hne].
  - rewrite E in Hnotin.
    apply find_hit_None with (n := S (S n)) in Hnotin. rewrite Hnotin.
    rewrite <- E, String.eqb_refl. now rewrite Nat.add_1_r.
  - destruct (String.eqb_spec key (hit_id h)); [congruence|reflexivity].
Qed.

Lemma merge_results_get bm25Results vectorResults key :
  List.NoDup (map hit_id bm25Results) ->
  List.NoDup (map hit_id vectorResults) ->
  Map_get key (merge_results bm25Results vectorResults) =
  expected_candidate bm25Results vectorResults key.
Proof.
  intros Hb Hv. unfold merge_results, indexed, expected_candidate.
  rewrite vector_phase_get, bm25_phase_get by assumption. simpl.
  destruct (find_hit 1 key vectorResults) as [[rv hv]|] eqn:Ev;
    destruct (find_hit 1 key bm25Results) as [[rb hb]|] eqn:Eb; try reflexivity.
Qed.

Lemma merge_results_keys bm25Results vectorResults key c :
  In (key, c) (merge_results bm25Results vectorResults) -> c_id c = key.
Proof.
  unfold merge_results.
  assert (Hgen : forall (f : list (string * candidate) -> nat * hit -> list (string * candidate)) l m,
    (forall m a key c, In (key, c) (f m a) -> (forall k' c', In (k', c') m -> c_id c' = k') ->
                       c_id c = key) ->
    (forall k' c', In (k', c') m -> c_id c' = k') ->
    forall k' c', In (k', c') (fold_left f l m) -> c_id c' = k').
  { intros f l. induction l as [|a l IH]; intros m Hf Hm k' c' Hin; simpl in Hin; [eauto|].
    eapply (IH (f m a)); eauto. }
  apply Hgen.
  - intros m [i h] k' c' Hin Hm. unfold add_vector in Hin.
    destruct (Map_get (hit_id h) m) as [e|] eqn:E;
      apply Map_set_In in Hin; destruct Hin as [[-> ->]|Hin]; simpl; eauto.
    destruct (in_dec string_dec (hit_id h) (map fst m)) as [Hk|Hk].
    + clear -E Hm. induction m as [|[k0 c0] m IH]; simpl in *; [discriminate|].
      destruct (String.eqb_spec (hit_id h) k0) as [->|Hne].
      * injection E as <-. apply (Hm k0 c0). now left.
      * apply IH; [assumption|]. intros k' c' H. apply Hm. now right.
    + apply Map_get_None_keys in Hk. congruence.
  - apply Hgen.
    + intros m [i h] k' c' Hin Hm. unfold add_bm25 in Hin.
      apply Map_set_In in Hin. destruct Hin as [[-> ->]|Hin]; simpl; eauto.
    + intros k' c' [].
Qed.

(** X8.  With distinct ids in each result list, the merge holds exactly one
    candidate per id found in either list.  An id found in both lists gets
    the lexical document's fields, both scores with their ranks, and the tag
    ['both']; an id found in one list gets that list's score and rank, zero
    and no rank for the other method, and the tag ['bm25'] or ['vector']. *)
Theorem merged_candidates_characterized
    (bm25Results vectorResults : list hit) (c : candidate) :
  List.NoDup (map hit_id bm25Results) ->
  List.NoDup (map hit_id vectorResults) ->
  (In c (allResults bm25Results vectorResults) <->
   expected_candidate bm25Results vectorResults (c_id c) = Some c) /\
  List.NoDup (map c_id (allResults bm25Results vectorResults)) /\
  (forall key, In key (map c_id (allResults bm25Results vectorResults)) <->
               In key (map hit_id bm25Results) \/ In key (map hit_id vectorResults)).
Proof.
  intros Hb Hv.
  assert (Hids : map c_id (allResults bm25Results vectorResults) =
                 map fst (merge_results bm25Results vectorResults)).
  { unfold allResults, Map_values. rewrite map_map. apply map_ext_in.
    intros [key c'] Hin. simpl. now apply merge_results_keys in Hin. }
  split; [|split].
  - split.
    + intros Hin. unfold allResults, Map_values in Hin. apply in_map_iff in Hin.
      destruct Hin as ([key c'] & Hc & Hin). simpl in Hc. subst c'.
      pose proof (merge_results_keys _ _ _ _ Hin) as Hkey. rewrite Hkey.
      rewrite <- merge_results_get by assumption.
      apply Map_get_In; [apply merge_results_NoDup | assumption].
    + intros H. rewrite <- merge_results_get in H by assumption.
      now apply Map_get_Some_In in H.
  - rewrite Hids. apply merge_results_NoDup.
  - intros key. rewrite Hids.
    destruct (in_dec string_dec key (map fst (merge_results bm25Results vectorResults)))
      as [Hin|Hnot].
    + split; [|tauto]. intros _.
      destruct (Map_get key (merge_results bm25Results vectorResults)) eqn:G.
      * rewrite merge_results_get in G by assumption. unfold expected_candidate in G.
        destruct (find_hit 1 key bm25Results) eqn:Eb.
        -- left. destruct (in_dec string_dec key (map hit_id bm25Results)); [assumption|].
           apply find_hit_None with (n := 1%nat) in n. congruence.
        -- right. destruct (find_hit 1 key vectorResults) eqn:Ev; [|discriminate].
           destruct (in_dec string_dec key (map hit_id vectorResults)); [assumption|].
           apply find_hit_None with (n := 1%nat) in n. congruence.
      * apply Map_get_None_keys in G. contradiction.
    + split; [tauto|]. intros H. exfalso.
      apply Map_get_None_keys in Hnot.
      rewrite merge_results_get in Hnot by assumption. unfold expected_candidate in Hnot.
      destruct H as [H|H].
      * destruct (find_hit 1 key bm25Results) as [[rb hb]|] eqn:Eb.
        -- destruct (find_hit 1 key vectorResults) as [[rv hv]|]; discriminate.
        -- apply find_hit_None in Eb. contradiction.
      * destruct (find_hit 1 key vectorResults) as [[rv hv]|] eqn:Ev.
        -- destruct (find_hit 1 key bm25Results) as [[rb hb]|]; discriminate.
        -- apply find_hit_None in Ev. contradiction.
Qed.

End MergeFacts.

Section RankingFacts.
Import JS Fusion.
Local Open Scope Q_scope.

Lemma merged_candidates_characterized_witness :
  (In {| c_id := "b"; c_fields := ∅; bm25Score := 2;
         bm25Normalized := normalizeBM25 2 (minBM25 sample_bm25) (maxBM25 sample_bm25);
         bm25Rank := Some 2%nat; vectorScore := 9 # 10;
         vectorNormalized := normalizeVector (9 # 10) (minVector sample_vector)
                                             (maxVector sample_vector);
         vectorRank := Some 1%nat; foundIn := "both" |}
      (allResults sample_bm25 sample_vector) <->
   expected_candidate sample_bm25 sample_vector "b" =
     Some {| c_id := "b"; c_fields := ∅; bm25Score := 2;
             bm25Normalized := normalizeBM25 2 (minBM25 sample_bm25) (maxBM25 sample_bm25);
             bm25Rank := Some 2%nat; vectorScore := 9 # 10;
             vectorNormalized := normalizeVector (9 # 10) (minVector sample_vector)
                                                 (maxVector sample_vector);
             vectorRank := Some 1%nat; foundIn := "both" |}) /\
  List.NoDup (map c_id (allResults sample_bm25 sample_vector)) /\
  (forall key, In key (map c_id (allResults sample_bm25 sample_vector)) <->
               In key (map hit_id sample_bm25) \/ In key (map hit_id sample_vector)).
Proof.
  apply (merged_candidates_characterized sample_bm25 sample_vector
           {| c_id := "b"; c_fields := ∅; bm25Score := 2;
              bm25Normalized := normalizeBM25 2 (minBM25 sample_bm25) (maxBM25 sample_bm25);
              bm25Rank := Some 2%nat; vectorScore := 9 # 10;
              vectorNormalized := normalizeVector (9 # 10) (minVector sample_vector)
                                                  (maxVector sample_vector);
              vectorRank := Some 1%nat; foundIn := "both" |}).
  - simpl. repeat (constructor; [simpl; intuition discriminate|]). constructor.
  - simpl. repeat (constructor; [simpl; intuition discriminate|]). constructor.
Defined.

Example merged_sample :
  map (fun c => (c_id c, foundIn c, bm25Rank c, vectorRank c))
      (allResults sample_bm25 sample_vector) =
  [("a", "bm25", Some 1%nat, None); ("b", "both", Some 2%nat, Some 1%nat);
   ("c", "vector", None, Some 2%nat)]%string.
Proof. vm_compute. reflexivity. Qed.

Lemma sort_desc_fixed {A} (score : A -> Q) l :
  StronglySorted (descending score) l -> sort_desc score l = l.
Proof.
  induction 1 as [|x l Hs IH Hall]; simpl; [reflexivity|].
  rewrite IH. destruct l as [|y l]; [reflexivity|]. simpl.
  inversion Hall as [|? ? Hy _]; subst. unfold descending in Hy.
  apply Qle_bool_iff in Hy. now rewrite Hy.
Qed.

(** Ranking information does not depend on the fused score itself. *)
Lemma ranked_scores (l : list (candidate * Q)) : forall n,
  map fusedScore (map add_ranking (indexed_from n l)) = map snd l.
Proof.
  induction l as [|[d x] l IH]; intros n; simpl; [reflexivity|]. now rewrite IH.
Qed.

Lemma ranked_docs (l : list (candidate * Q)) : forall n,
  map f_doc (map add_ranking (indexed_from n l)) = map fst l.
Proof.
  induction l as [|[d x] l IH]; intros n; simpl; [reflexivity|]. now rewrite IH.
Qed.

Lemma ranked_nth (l : list (candidate * Q)) : forall n i f,
  nth_error (map add_ranking (indexed_from n l)) i = Some f ->
  newRank f = (n + i + 1)%nat /\
  rankChange f = (Z.of_nat (originalRank f) - Z.of_nat (newRank f))%Z /\
  nth_error l i = Some (f_doc f, fusedScore f).
Proof.
  induction l as [|[d x] l IH]; intros n i f; simpl.
  - destruct i; discriminate.
  - destruct i as [|i]; simpl.
    + intros [= <-]. simpl. rewrite Nat.add_0_r. auto.
    + intros H. apply IH in H. destruct H as (H1 & H2 & H3).
      repeat split; try assumption. lia.
Qed.

Lemma ranked_sorted (l : list (candidate * Q)) :
  StronglySorted (descending snd) l ->
  forall n, StronglySorted (descending fusedScore) (map add_ranking (indexed_from n l)).
Proof.
  induction 1 as [|[d x] l Hs IH Hall]; intros n; simpl; [constructor|].
  constructor; [apply IH|].
  apply List.Forall_forall. intros g Hg.
  assert (Hin : In (fusedScore g) (map snd l)).
  { rewrite <- (ranked_scores l (S n)). now apply in_map. }
  apply in_map_iff in Hin. destruct Hin as (q & Hq & Hin).
  rewrite List.Forall_forall in Hall. specialize (Hall q Hin).
  unfold descending in *. simpl in *. now rewrite <- Hq.
Qed.

(** X9.  Whatever the fusion method, the fused results come out in
    descending order of fused score, the result at position [i] has
    [newRank = i + 1], and [rankChange] is [originalRank - newRank]. *)
Theorem fused_results_are_ranked
    (fusionMethod : string) (bm25Weight vectorWeight : Q)
    (bm25Results vectorResults : list hit) :
  StronglySorted (descending fusedScore)
    (fusedResults fusionMethod bm25Weight vectorWeight bm25Results vectorResults) /\
  (forall i f,
     nth_error (fusedResults fusionMethod bm25Weight vectorWeight
                             bm25Results vectorResults) i = Some f ->
     newRank f = S i /\
     rankChange f = (Z.of_nat (originalRank f) - Z.of_nat (newRank f))%Z).
Proof.
  unfold fusedResults, indexed. split.
  - apply ranked_sorted, sort_desc_sorted.
  - intros i f H. apply ranked_nth in H. destruct H as (H1 & H2 & _).
    split; [lia | assumption].
Qed.

Lemma fuse_all_known fusionMethod w1 w2 docs :
  In fusionMethod ["rrf"; "weighted"; "reciprocal"]%string ->
  map fst (fuse_all fusionMethod w1 w2 docs) = docs.
Proof.
  intros Hm. unfold fuse_all.
  assert (Hsome : forall d, exists x, fuse_score fusionMethod w1 w2 d = Some x).
  { intros d. unfold fuse_score.
    destruct Hm as [<-|[<-|[<-|[]]]]; simpl; eauto. }
  induction docs as [|d docs IH]; simpl; [reflexivity|].
  destruct (Hsome d) as [x ->]. simpl. f_equal. exact IH.
Qed.

(** X10.  Under each of the three fusion methods the fused results are a
    rearrangement of the merged candidates: none is lost, none is repeated. *)
Theorem fusion_keeps_every_candidate
    (fusionMethod : string) (bm25Weight vectorWeight : Q)
    (bm25Results vectorResults : list hit) :
  In fusionMethod ["rrf"; "weighted"; "reciprocal"]%string ->
  Permutation
    (map f_doc (fusedResults fusionMethod bm25Weight vectorWeight bm25Results vectorResults))
    (allResults bm25Results vectorResults) /\
  length (fusedResults fusionMethod bm25Weight vectorWeight bm25Results vectorResults)
    = length (allResults bm25Results vectorResults).
Proof.
  intros Hm.
  assert (Hperm : Permutation
    (map f_doc (fusedResults fusionMethod bm25Weight vectorWeight bm25Results vectorResults))
    (allResults bm25Results vectorResults)).
  { unfold fusedResults, indexed. rewrite ranked_docs.
    rewrite (Permutation_map fst (sort_desc_perm snd _)).
    now rewrite fuse_all_known. }
  split; [exact Hperm|].
  apply Permutation_length in Hperm. now rewrite length_map in Hperm.
Qed.

Lemma fusion_keeps_every_candidate_witness :
  Permutation
    (map f_doc (fusedResults "reciprocal" (4 # 10) (6 # 10) sample_bm25 sample_vector))
    (allResults sample_bm25 sample_vector) /\
  length (fusedResults "reciprocal" (4 # 10) (6 # 10) sample_bm25 sample_vector)
    = length (allResults sample_bm25 sample_vector).
Proof.
  apply (fusion_keeps_every_candidate "reciprocal" (4 # 10) (6 # 10)
           sample_bm25 sample_vector).
  simpl. right. right. left. reflexivity.
Defined.

(** X11.  A fusion method other than the three known ones is not refused:
    the fused list is empty, so the route answers with no result at all. *)
Theorem unknown_fusion_method_yields_nothing
    (fusionMethod : string) (bm25Weight vectorWeight : Q) (limit : nat)
    (bm25Results vectorResults : list hit) :
  ~ In fusionMethod ["rrf"; "weighted"; "reciprocal"]%string ->
  fusedResults fusionMethod bm25Weight vectorWeight bm25Results vectorResults = [] /\
  rerank_results fusionMethod bm25Weight vectorWeight limit bm25Results vectorResults = [].
Proof.
  intros Hm.
  assert (Hnone : forall d, fuse_score fusionMethod bm25Weight vectorWeight d = None).
  { intros d. unfold fuse_score.
    destruct (String.eqb_spec fusionMethod "rrf") as [->|_]; [exfalso; apply Hm; now left|].
    destruct (String.eqb_spec fusionMethod "weighted") as [->|_];
      [exfalso; apply Hm; right; now left|].
    destruct (String.eqb_spec fusionMethod "reciprocal") as [->|_];
      [exfalso; apply Hm; right; right; now left | reflexivity]. }
  assert (Hempty : fuse_all fusionMethod bm25Weight vectorWeight
                     (allResults bm25Results vectorResults) = []).
  { unfold fuse_all. induction (allResults bm25Results vectorResults) as [|d l IH];
      simpl; [reflexivity|]. rewrite Hnone. exact IH. }
  unfold rerank_results, fusedResults. rewrite Hempty. simpl.
  split; [reflexivity | now destruct limit].
Qed.

Lemma unknown_fusion_method_yields_nothing_witness :
  fusedResults "RRF" (4 # 10) (6 # 10) sample_bm25 sample_vector = [] /\
  rerank_results "RRF" (4 # 10) (6 # 10) 10 sample_bm25 sample_vector = [].
Proof.
  apply (unknown_fusion_method_yields_nothing "RRF" (4 # 10) (6 # 10) 10
           sample_bm25 sample_vector).
  simpl. intros [H|[H|[H|[]]]]; discriminate.
Defined.

End RankingFacts.

Section WeightedFacts.
Import JS Fusion.
Local Open Scope Q_scope.

Lemma allResults_expected bm25Results vectorResults c :
  List.NoDup (map hit_id bm25Results) ->
  List.NoDup (map hit_id vectorResults) ->
  In c (allResults bm25Results vectorResults) ->
  expected_candidate bm25Results vectorResults (c_id c) = Some c.
Proof.
  intros Hb Hv Hin. unfold allResults, Map_values in Hin. apply in_map_iff in Hin.
  destruct Hin as ([key c'] & Hc & Hin). simpl in Hc. subst c'.
  rewrite (merge_results_keys _ _ _ _ Hin).
  rewrite <- merge_results_get by assumption.
  apply Map_get_In; [apply merge_results_NoDup | assumption].
Qed.

Lemma fuse_all_In fusionMethod w1 w2 docs doc score :
  In (doc, score) (fuse_all fusionMethod w1 w2 docs) ->
  In doc docs /\ fuse_score fusionMethod w1 w2 doc = Some score.
Proof.
  unfold fuse_all. rewrite <- list_elem_of_In, list_elem_of_omap.
  intros (d & Hd & Hs). apply list_elem_of_In in Hd.
  destruct (fuse_score fusionMethod w1 w2 d) as [x|] eqn:E; [|discriminate].
  simpl in Hs. injection Hs as <- <-. now split.
Qed.

Lemma fused_In fusionMethod w1 w2 bm25Results vectorResults f :
  In f (fusedResults fusionMethod w1 w2 bm25Results vectorResults) ->
  In (f_doc f) (allResults bm25Results vectorResults) /\
  fuse_score fusionMethod w1 w2 (f_doc f) = Some (fusedScore f).
Proof.
  unfold fusedResults. intros H. apply in_map_iff in H.
  destruct H as ([i [doc score]] & <- & H).
  apply indexed_from_In, sort_desc_In, fuse_all_In in H. exact H.
Qed.

(** What one method contributes to a candidate: the normalised score of the
    candidate's hit in that method's list, or 0 when the list does not hold
    it. *)
Definition contribution (normalize : Q -> Q -> Q -> Q) (lo hi : Q)
    (key : string) (l : list hit) : Q :=
  match find_hit 1 key l with
  | Some (_, h) => normalize (hit_score h) lo hi
  | None => 0
  end.

(** X12.  Under the weighted policy, with distinct ids in each list, the
    fused score of a candidate is the sum over the two methods of the
    candidate's normalised score in that method times the method's weight, a
    method that did not return the candidate contributing 0. *)
Theorem weighted_fused_score_is_weighted_sum
    (bm25Weight vectorWeight : Q) (bm25Results vectorResults : list hit) (f : fused) :
  List.NoDup (map hit_id bm25Results) ->
  List.NoDup (map hit_id vectorResults) ->
  In f (fusedResults "weighted" bm25Weight vectorWeight bm25Results vectorResults) ->
  fusedScore f =
    contribution normalizeBM25 (minBM25 bm25Results) (maxBM25 bm25Results)
                 (c_id (f_doc f)) bm25Results * bm25Weight +
    contribution normalizeVector (minVector vectorResults) (maxVector vectorResults)
                 (c_id (f_doc f)) vectorResults * vectorWeight.
Proof.
  intros Hb Hv Hin. apply fused_In in Hin. destruct Hin as [Hc Hs].
  unfold fuse_score in Hs. simpl in Hs. injection Hs as <-.
  pose proof (allResults_expected _ _ _ Hb Hv Hc) as He.
  unfold expected_candidate, contribution in *.
  destruct (find_hit 1 (c_id (f_doc f)) bm25Results) as [[rb hb]|];
    destruct (find_hit 1 (c_id (f_doc f)) vectorResults) as [[rv hv]|];
    try discriminate; injection He as He; rewrite <- He; reflexivity.
Qed.

Lemma weighted_fused_score_is_weighted_sum_witness :
  exists f,
    nth_error (fusedResults "weighted" (4 # 10) (6 # 10) sample_bm25 sample_vector) 0
      = Some f /\
    fusedScore f =
      contribution normalizeBM25 (minBM25 sample_bm25) (maxBM25 sample_bm25)
                   (c_id (f_doc f)) sample_bm25 * (4 # 10) +
      contribution normalizeVector (minVector sample_vector) (maxVector sample_vector)
                   (c_id (f_doc f)) sample_vector * (6 # 10).
Proof.
  eexists. split; [vm_compute; reflexivity|].
  apply (weighted_fused_score_is_weighted_sum (4 # 10) (6 # 10) sample_bm25 sample_vector).
  - simpl. repeat (constructor; [simpl; intuition discriminate|]). constructor.
  - simpl. repeat (constructor; [simpl; intuition discriminate|]). constructor.
  - vm_compute. left. reflexivity.
Defined.

End WeightedFacts.

(* ===================================================================== *)
(** * More on the hybrid route *)
(* ===================================================================== *)

Section HybridMore.
Import JS Fusion.
Local Open Scope Q_scope.

Lemma filter_sorted {A} (R : A -> A -> Prop) (p : A -> bool) l :
  StronglySorted R l -> StronglySorted R (List.filter p l).
Proof.
  induction 1 as [|x l Hs IH Hall]; simpl; [constructor|].
  destruct (p x); [|assumption]. constructor; [assumption|].
  apply List.Forall_forall. intros y Hy. apply filter_In in Hy.
  rewrite List.Forall_forall in Hall. now apply Hall.
Qed.

Lemma firstn_sorted {A} (R : A -> A -> Prop) n l :
  StronglySorted R l -> StronglySorted R (firstn n l).
Proof.
  intros H. revert n. induction H as [|x l Hs IH Hall]; intros [|n]; simpl;
    try constructor; [apply IH|].
  apply List.Forall_forall. intros y Hy. apply firstn_In in Hy.
  rewrite List.Forall_forall in Hall. now apply Hall.
Qed.

(** X14.  Whenever the hybrid route answers 200, it returns at most [limit]
    results, in descending order of hybrid score, [count] is their number,
    and each of them carries the requested value in every field named by a
    non-empty filter. *)
Theorem hybrid_answer_is_bounded_sorted_and_filtered
    (req : hybrid_request) (env : hybrid_env) (body : hybrid_body) :
  hybrid_route req env = Http200 body ->
  (length (results body) <= limit req)%nat /\
  count body = length (results body) /\
  StronglySorted (descending hybridScore) (results body) /\
  (forall r key value,
     In r (results body) -> In (key, value) (filters req) -> value <> ""%string ->
     field_equals r key value = true).
Proof.
  intros H.
  assert (Hbody : exists skip lex vec, body = hybrid_body_of req skip lex vec).
  { unfold hybrid_route in H.
    destruct (String.eqb (query req) ""); [discriminate|].
    destruct (connect env); [|discriminate].
    destruct (useUserStories req && negb (ok (bm25Validation env)))%bool eqn:Eskip;
      destruct (bm25Validation env); destruct (vectorValidation env); try discriminate;
      simpl in H;
      repeat match type of H with
             | match ?x with _ => _ end = _ => destruct x; try discriminate
             end;
      injection H as <-; eauto. }
  destruct Hbody as (skip & lex & vec & ->). simpl.
  split; [apply firstn_le_length|]. split; [reflexivity|]. split.
  - apply firstn_sorted. unfold apply_filters.
    destruct (0 <? length (filters req))%nat.
    + apply filter_sorted. apply sort_desc_sorted.
    + apply sort_desc_sorted.
  - intros r key value Hr Hf Hv. apply firstn_In in Hr. unfold apply_filters in Hr.
    destruct (filters req) as [|f fs] eqn:Efs; [destruct Hf|].
    simpl in Hr. apply filter_In in Hr. destruct Hr as [_ Hpass].
    unfold passes_filters in Hpass. rewrite forallb_forall in Hpass.
    specialize (Hpass (key, value) Hf). simpl in Hpass.
    destruct (String.eqb_spec value ""); [contradiction | assumption].
Qed.

Definition filtered_request : hybrid_request :=
  {| query := "login"; limit := 1; filters := [("foundIn", "vector-only")]%string;
     bm25Weight := 1 # 2; vectorWeight := 1 # 2; useUserStories := true |}.

Lemma hybrid_answer_is_bounded_sorted_and_filtered_witness :
  exists body,
    hybrid_route filtered_request lexical_index_missing = Http200 body /\
    (length (results body) <= limit filtered_request)%nat /\
    count body = length (results body) /\
    StronglySorted (descending hybridScore) (results body) /\
    (forall r key value,
       In r (results body) -> In (key, value) (filters filtered_request) ->
       value <> ""%string -> field_equals r key value = true).
Proof.
  eexists. split; [vm_compute; reflexivity|].
  apply (hybrid_answer_is_bounded_sorted_and_filtered filtered_request
           lexical_index_missing).
  vm_compute. reflexivity.
Defined.

(** X15.  The hybrid route answers 200 only if the query is not empty, the
    connection succeeded, the vector index passed validation, the lexical
    index passed validation or the request is for user stories, and the
    query embedding and the vector search returned; the answer is marked
    [bm25Skipped] exactly when the request is for user stories and the
    lexical validation failed. *)
Theorem hybrid_success_requires_its_preconditions
    (req : hybrid_request) (env : hybrid_env) (body : hybrid_body) :
  hybrid_route req env = Http200 body ->
  query req <> ""%string /\
  (exists u, connect env = Returned u) /\
  vectorValidation env = Valid /\
  (bm25Validation env = Valid \/ useUserStories req = true) /\
  (exists u, embedding env = Returned u) /\
  (exists vs, vectorSearch env = Returned vs /\ vectorResultCount (hstats body) = length vs) /\
  bm25Skipped body = (useUserStories req && negb (ok (bm25Validation env)))%bool /\
  (bm25Skipped body = false -> exists ls, bm25Search env = Returned ls).
Proof.
  unfold hybrid_route. intros H.
  destruct (String.eqb_spec (query req) "") as [|Hq]; [discriminate|].
  destruct (connect env) as [u|]; [|discriminate].
  destruct (useUserStories req) eqn:Eu; destruct (bm25Validation env) eqn:Eb;
    destruct (vectorValidation env) eqn:Ev; simpl in H; try discriminate;
    repeat match type of H with
           | match ?x with _ => _ end = _ => destruct x eqn:?; try discriminate
           end;
    injection H as <-; simpl;
    repeat split; eauto; try discriminate.
Qed.

Lemma hybrid_success_requires_its_preconditions_witness :
  exists body,
    hybrid_route (stories_request true) lexical_index_missing = Http200 body /\
    query (stories_request true) <> ""%string /\
    (exists u, connect lexical_index_missing = Returned u) /\
    vectorValidation lexical_index_missing = Valid /\
    (bm25Validation lexical_index_missing = Valid \/
     useUserStories (stories_request true) = true) /\
    (exists u, embedding lexical_index_missing = Returned u) /\
    (exists vs, vectorSearch lexical_index_missing = Returned vs /\
                vectorResultCount (hstats body) = length vs) /\
    bm25Skipped body = (useUserStories (stories_request true) &&
                        negb (ok (bm25Validation lexical_index_missing)))%bool /\
    (bm25Skipped body = false -> exists ls, bm25Search lexical_index_missing = Returned ls).
Proof.
  eexists. split; [vm_compute; reflexivity|].
  apply (hybrid_success_requires_its_preconditions (stories_request true)
           lexical_index_missing).
  vm_compute. reflexivity.
Defined.

End HybridMore.

(* ===================================================================== *)
(** * Preconditions of the search routes *)
(* ===================================================================== *)

Section SearchFacts.
Import JS Fusion Search.

Lemma existsb_eqb_In (x : string) l : existsb (String.eqb x) l = true <-> In x l.
Proof.
  rewrite existsb_exists. split.
  - intros (y & Hy & E). apply String.eqb_eq in E. now subst.
  - intros H. exists x. split; [assumption | apply String.eqb_refl].
Qed.

Lemma no_match_iff (x : string) l :
  (length (List.filter (String.eqb x) l) =? 0)%nat = true <-> ~ In x l.
Proof.
  rewrite Nat.eqb_eq. induction l as [|y l IH]; simpl; [tauto|].
  destruct (String.eqb_spec x y) as [->|Hne]; simpl.
  - split; [discriminate | intros H; exfalso; apply H; now left].
  - rewrite IH. intuition congruence.
Qed.

(** The conditions under which the validation passes. *)
Definition store_ready (store : probe) (dbName collectionName indexName : string)
    (requireDocuments : bool) : Prop :=
  match listDatabases store with
  | Returned dbs => In dbName dbs
  | Threw _ => True
  end /\
  (exists names, listCollections store = Returned names /\ In collectionName names) /\
  (requireDocuments = true ->
   exists count, countDocuments store = Returned count /\ (0 < count)%nat) /\
  (indexName <> ""%string ->
   exists indexes, listSearchIndexes store = Returned (Some indexes) /\
                   In indexName indexes).

Lemma validation_valid_iff store dbName collectionName indexName requireDocuments :
  validateDbCollectionIndex store dbName collectionName indexName requireDocuments = Valid
  <-> store_ready store dbName collectionName indexName requireDocuments.
Proof.
  unfold validateDbCollectionIndex, store_ready.
  set (dbExists := match listDatabases store with
                   | Returned dbs => existsb (String.eqb dbName) dbs
                   | Threw _ => true
                   end).
  assert (Hdb : dbExists = true <->
                match listDatabases store with
                | Returned dbs => In dbName dbs
                | Threw _ => True
                end).
  { subst dbExists. destruct (listDatabases store); [apply existsb_eqb_In | tauto]. }
  destruct dbExists; simpl.
  2: { split; [intros H; inversion H|]. intros (Hin & _). apply Hdb in Hin. inversion Hin. }
  assert (Hd : match listDatabases store with
               | Returned dbs => In dbName dbs
               | Threw _ => True
               end) by now apply Hdb.
  clear Hdb.
  destruct (listCollections store) as [names|m1].
  2: { split; [intros H; inversion H|]. intros (_ & (names & Hn & _) & _). inversion Hn. }
  destruct (length (List.filter (String.eqb collectionName) names) =? 0)%nat eqn:Ec.
  { apply no_match_iff in Ec. split; [intros H; inversion H|].
    intros (_ & (names' & [= <-] & Hin) & _). contradiction. }
  assert (Hc : In collectionName names).
  { destruct (in_dec string_dec collectionName names) as [H|H]; [assumption|].
    apply no_match_iff in H. rewrite H in Ec. inversion Ec. }
  assert (Hindex :
    (if String.eqb indexName "" then Valid else
     match listSearchIndexes store with
     | Threw m =>
         Invalid ("Could not verify search index " +:+ quoted indexName +:+ ": " +:+ m)
     | Returned None =>
         Invalid ("Unable to verify search indexes for collection "
                  +:+ quoted collectionName +:+ ".")
     | Returned (Some indexes) =>
         if existsb (String.eqb indexName) indexes then Valid
         else Invalid ("Search index " +:+ quoted indexName
                       +:+ " not found for collection " +:+ quoted collectionName)
     end) = Valid <->
    (indexName <> ""%string ->
     exists indexes, listSearchIndexes store = Returned (Some indexes) /\
                     In indexName indexes)).
  { destruct (String.eqb_spec indexName "") as [->|Hi].
    - split; [|reflexivity]. intros _ H. now elim H.
    - destruct (listSearchIndexes store) as [[indexes|]|m3].
      + destruct (existsb (String.eqb indexName) indexes) eqn:Ei.
        * apply existsb_eqb_In in Ei. split; [|reflexivity]. intros _ _. eauto.
        * split; [intros H; inversion H|].
          intros Hx. destruct (Hx Hi) as (ix & [= <-] & Hin).
          apply existsb_eqb_In in Hin. rewrite Hin in Ei. inversion Ei.
      + split; [intros H; inversion H|].
        intros Hx. destruct (Hx Hi) as (ix & Hix & _). inversion Hix.
      + split; [intros H; inversion H|].
        intros Hx. destruct (Hx Hi) as (ix & Hix & _). inversion Hix. }
  destruct requireDocuments.
  - destruct (countDocuments store) as [count|m2].
    + destruct (Nat.eqb_spec count 0) as [->|Hpos].
      * split; [intros H; inversion H|].
        intros (_ & _ & Hn & _). destruct (Hn eq_refl) as (n & [= <-] & Hlt). lia.
      * rewrite Hindex. split.
        -- intros Hx. repeat split; eauto. intros _. exists count. split; [reflexivity|lia].
        -- intros (_ & _ & _ & Hx). exact Hx.
    + split; [intros H; inversion H|].
      intros (_ & _ & Hn & _). destruct (Hn eq_refl) as (n & Hr & _). inversion Hr.
  - rewrite Hindex. split.
    + intros Hx. repeat split; eauto. intros H. inversion H.
    + intros (_ & _ & _ & Hx). exact Hx.
Qed.

(** X16.  The validation helper answers [ok] exactly when the database is
    listed (or listing databases is refused), the collection exists, it
    holds at least one document when documents are required, and the named
    search index is among the collection's indexes when an index is named. *)
Theorem validation_passes_exactly_when_store_is_ready
    (store : probe) (dbName collectionName indexName : string) (requireDocuments : bool) :
  validateDbCollectionIndex store dbName collectionName indexName requireDocuments = Valid
  <-> store_ready store dbName collectionName indexName requireDocuments.
Proof. apply validation_valid_iff. Qed.

(** X17.  When the hybrid route, run against one store state, answers with
    [bm25Skipped], the lexical index is the only thing missing: the request
    is for user stories, and the collection's index list holds the vector
    index and not the lexical one. *)
Theorem degraded_answer_means_only_the_lexical_index_is_missing
    (store : probe) (dbName collectionName bm25IndexName vectorIndexName : string)
    (connected : outcome unit) (lexical : outcome (list hit)) (embedded : outcome unit)
    (vector : outcome (list hit)) (req : hybrid_request) (body : hybrid_body) :
  bm25IndexName <> ""%string ->
  vectorIndexName <> ""%string ->
  hybrid_route req (hybrid_env_of store dbName collectionName bm25IndexName
                                  vectorIndexName connected lexical embedded vector)
    = Http200 body ->
  bm25Skipped body = true ->
  useUserStories req = true /\
  exists indexes,
    listSearchIndexes store = Returned (Some indexes) /\
    In vectorIndexName indexes /\ ~ In bm25IndexName indexes.
Proof.
  intros Hb Hv Hroute Hskip.
  set (vb := validateDbCollectionIndex store dbName collectionName bm25IndexName true).
  set (vv := validateDbCollectionIndex store dbName collectionName vectorIndexName true).
  assert (Hfacts : useUserStories req = true /\ vv = Valid /\ vb <> Valid).
  { unfold hybrid_route, hybrid_env_of in Hroute. simpl in Hroute. fold vb vv in Hroute.
    destruct (String.eqb (query req) ""); [inversion Hroute|].
    destruct connected; [|inversion Hroute].
    destruct (useUserStories req); destruct vb; destruct vv; simpl in Hroute;
      try (inversion Hroute; fail);
      repeat match type of Hroute with
             | match ?x with _ => _ end = _ => destruct x; try (inversion Hroute; fail)
             end;
      injection Hroute as <-; simpl in Hskip; try (inversion Hskip; fail);
      repeat split; intros H; inversion H. }
  destruct Hfacts as (Hu & Hvv & Hvb). split; [assumption|].
  apply validation_valid_iff in Hvv. destruct Hvv as (Hdb & Hcoll & Hcount & Hidx).
  destruct (Hidx Hv) as (indexes & Hlist & Hin).
  exists indexes. repeat split; try assumption.
  intros Hbin. apply Hvb. apply validation_valid_iff.
  repeat split; try assumption. intros _. eauto.
Qed.

Definition ready_store (indexes : list string) : probe :=
  {| listDatabases := Threw "not authorized on admin to execute command";
     listCollections := Returned ["stories"; "test_cases"]%string;
     countDocuments := Returned 120%nat;
     listSearchIndexes := Returned (Some indexes) |}.

Lemma validation_passes_exactly_when_store_is_ready_witness :
  validateDbCollectionIndex (ready_store ["vector_index"]%string) "rag" "stories"
                            "vector_index" true = Valid /\
  validateDbCollectionIndex (ready_store ["vector_index"]%string) "rag" "stories"
                            "bm25_index" true
    = Invalid "Search index 'bm25_index' not found for collection 'stories'".
Proof.
  split.
  - apply (validation_passes_exactly_when_store_is_ready
             (ready_store ["vector_index"]%string) "rag" "stories" "vector_index" true).
    unfold store_ready, ready_store. simpl.
    split; [exact I|].
    split; [eexists; split; [reflexivity | now left]|].
    split; [intros _; exists 120%nat; split; [reflexivity | lia]|].
    intros _. eexists. split; [reflexivity | now left].
  - vm_compute. reflexivity.
Defined.

Lemma degraded_answer_means_only_the_lexical_index_is_missing_witness :
  useUserStories (stories_request true) = true /\
  exists indexes,
    listSearchIndexes (ready_store ["vector_index"]%string) = Returned (Some indexes) /\
    In "vector_index"%string indexes /\ ~ In "bm25_index"%string indexes.
Proof.
  apply (degraded_answer_means_only_the_lexical_index_is_missing
           (ready_store ["vector_index"]%string) "rag" "stories" "bm25_index" "vector_index"
           (Returned tt) (Threw "index not found") (Returned tt)
           (Returned [scored "s1" (9 # 10)]) (stories_request true)
           (hybrid_body_of (stories_request true) true [] [scored "s1" (9 # 10)])).
  - intros H. inversion H.
  - intros H. inversion H.
  - vm_compute. reflexivity.
  - reflexivity.
Defined.

(** X18.  In the three routes that run a vector search, the [limit] handed
    to [$vectorSearch] never exceeds [numCandidates], whatever limit the
    request carries, and [numCandidates] never drops below the route's
    minimum (100, 200 and 100). *)
Theorem vector_search_limit_within_candidates (requested : Z) :
  (snd (search_sizing requested) <= fst (search_sizing requested) /\
   100 <= fst (search_sizing requested) /\
   snd (search_sizing requested) = requested * 10)%Z /\
  (snd (hybrid_sizing requested) <= fst (hybrid_sizing requested) /\
   200 <= fst (hybrid_sizing requested))%Z /\
  (snd (rerank_sizing requested) <= fst (rerank_sizing requested) /\
   100 <= fst (rerank_sizing requested))%Z.
Proof. unfold search_sizing, hybrid_sizing, rerank_sizing. simpl. lia. Qed.

End SearchFacts.

(* ===================================================================== *)
(** * More on the workers *)
(* ===================================================================== *)

Section WorkerFacts.
Import JS Ingest.
Local Open Scope Z_scope.

Definition linear_waits (from count : nat) : list Z :=
  map (fun a => 1000 * Z.of_nat a) (seq from count).

Definition rate_limit_waits (from count : nat) : list Z :=
  map (fun a => Z.min (1000 * 2 ^ Z.of_nat a) 10000) (seq from count).

Lemma testcase_loop_first_success call tc maxRetries k vector cost tokens model :
  call k = Embedded vector cost tokens model ->
  (k <= maxRetries)%nat ->
  forall fuel attempt lastError,
    (attempt <= k)%nat -> (k < attempt + fuel)%nat ->
    (forall a, (attempt <= a < k)%nat -> exists status message, call a = Errored status message) ->
    testcase_loop call tc maxRetries fuel attempt lastError =
      (success "testleaf" tc vector cost tokens model, linear_waits attempt (k - attempt)).
Proof.
  intros Hk Hmax. induction fuel as [|fuel IH]; intros attempt lastError Hle Hlt Hfail; [lia|].
  cbn [testcase_loop].
  destruct (Nat.eq_dec attempt k) as [->|Hne].
  - rewrite Hk, Nat.sub_diag. reflexivity.
  - destruct (Hfail attempt ltac:(lia)) as (st & msg & ->).
    rewrite (IH (S attempt) (Some msg)) by (try lia; intros a Ha; apply Hfail; lia).
    assert (Hlt' : (attempt <? maxRetries)%nat = true) by (apply Nat.ltb_lt; lia).
    rewrite Hlt'. replace (k - attempt)%nat with (S (k - S attempt)) by lia.
    reflexivity.
Qed.

(** X19.  The worker of the batch script stops at the first attempt that
    succeeds: when attempt [k] of at most [maxRetries] is the first to
    succeed, the record comes back embedded with that attempt's vector, after
    a wait of [1000 * a] ms behind each failed attempt [a < k]. *)
Theorem worker_returns_first_success
    (call : nat -> attempt_outcome) (tc : testcase) (maxRetries k : nat)
    (vector : list Q) (cost : Q) (tokens : nat) (model : string) :
  (1 <= k <= maxRetries)%nat ->
  (forall a, (1 <= a < k)%nat -> exists status message, call a = Errored status message) ->
  call k = Embedded vector cost tokens model ->
  generateTestcaseEmbedding call tc maxRetries =
    (success "testleaf" tc vector cost tokens model, linear_waits 1 (k - 1)).
Proof.
  intros [H1 Hmax] Hfail Hk. unfold generateTestcaseEmbedding.
  apply testcase_loop_first_success; try assumption; lia.
Qed.

Definition second_try_succeeds (attempt : nat) : attempt_outcome :=
  match attempt with
  | 2%nat => Embedded [1 # 2; 1 # 4]%Q (3 # 1000000)%Q 42 "text-embedding-3-small"
  | _ => Errored (Some 500) "Internal Server Error"
  end.

Lemma worker_returns_first_success_witness :
  generateTestcaseEmbedding second_try_succeeds a_testcase 3 =
    (success "testleaf" a_testcase [1 # 2; 1 # 4]%Q (3 # 1000000)%Q 42
             "text-embedding-3-small",
     linear_waits 1 (2 - 1)).
Proof.
  apply (worker_returns_first_success second_try_succeeds a_testcase 3 2).
  - lia.
  - intros a Ha. assert (a = 1%nat) as -> by lia. simpl. eauto.
  - reflexivity.
Defined.

Lemma testcase_loop_all_fail call tc maxRetries status message :
  (forall a, call a = Errored (status a) (message a)) ->
  forall fuel attempt lastError,
    (attempt + fuel = maxRetries)%nat ->
    testcase_loop call tc maxRetries (S fuel) attempt lastError =
      (final_failure tc (Some (message maxRetries)), linear_waits attempt fuel).
Proof.
  intros Hcall. induction fuel as [|fuel IH]; intros attempt lastError Hsum.
  - cbn [testcase_loop]. rewrite Hcall.
    assert (Hlt : (attempt <? maxRetries)%nat = false) by (apply Nat.ltb_ge; lia).
    rewrite Hlt. replace attempt with maxRetries by lia. reflexivity.
  - change (testcase_loop call tc maxRetries (S (S fuel)) attempt lastError)
      with (match call attempt with
            | Embedded vector cost tokens model =>
                (success "testleaf" tc vector cost tokens model, [])
            | Errored _ msg =>
                let waits := if (attempt <? maxRetries)%nat
                             then [1000 * Z.of_nat attempt] else [] in
                let '(r, later) := testcase_loop call tc maxRetries (S fuel) (S attempt)
                                                 (Some msg) in
                (r, waits ++ later)
            end).
    rewrite Hcall, (IH (S attempt)) by lia.
    assert (Hlt : (attempt <? maxRetries)%nat = true) by (apply Nat.ltb_lt; lia).
    rewrite Hlt. reflexivity.
Qed.

(** X20.  When every attempt fails, the worker of the batch script makes
    [maxRetries] attempts, waits [1000 * a] ms behind each attempt but the
    last, and hands the record back as a failed result that carries the
    message of the last attempt. *)
Theorem worker_gives_up_after_linear_waits
    (call : nat -> attempt_outcome) (tc : testcase) (maxRetries : nat)
    (status : nat -> option Z) (message : nat -> string) :
  (1 <= maxRetries)%nat ->
  (forall a, call a = Errored (status a) (message a)) ->
  generateTestcaseEmbedding call tc maxRetries =
    (final_failure tc (Some (message maxRetries)), linear_waits 1 (maxRetries - 1)).
Proof.
  intros Hpos Hcall. unfold generateTestcaseEmbedding.
  destruct maxRetries as [|n]; [lia|].
  rewrite (testcase_loop_all_fail call tc (S n) status message Hcall n 1) by lia.
  now replace (S n - 1)%nat with n by lia.
Qed.

Definition numbered_failures (attempt : nat) : attempt_outcome :=
  Errored None ("timeout on attempt " +:+ pretty attempt).

Lemma worker_gives_up_after_linear_waits_witness :
  generateTestcaseEmbedding numbered_failures a_testcase 4 =
    (final_failure a_testcase (Some ("timeout on attempt " +:+ pretty 4%nat)),
     linear_waits 1 (4 - 1)).
Proof.
  apply (worker_gives_up_after_linear_waits numbered_failures a_testcase 4
           (fun _ => None) (fun a => "timeout on attempt " +:+ pretty a)).
  - lia.
  - reflexivity.
Defined.

Lemma direct_loop_rate_limited call tc maxRetries message :
  (forall a, call a = Errored (Some 429) (message a)) ->
  forall fuel attempt lastError,
    (attempt + fuel = maxRetries)%nat ->
    direct_loop call tc maxRetries (S fuel) attempt lastError =
      (final_failure tc (Some (message maxRetries)), rate_limit_waits attempt (S fuel)).
Proof.
  intros Hcall. induction fuel as [|fuel IH]; intros attempt lastError Hsum.
  - cbn [direct_loop]. rewrite Hcall.
    destruct (decide (Some 429 = Some 429)) as [_|Hne]; [|now elim Hne].
    replace attempt with maxRetries by lia. reflexivity.
  - change (direct_loop call tc maxRetries (S (S fuel)) attempt lastError)
      with (match call attempt with
            | Embedded vector _ tokens _ =>
                let cost := (inject_Z (Z.of_nat tokens) / 1000 * (2 # 100000))%Q in
                (success "openai-direct" tc vector cost tokens "text-embedding-3-small", [])
            | Errored st msg =>
                let waits :=
                  if decide (st = Some 429)
                  then [Z.min (1000 * 2 ^ Z.of_nat attempt) 10000]
                  else if (attempt <? maxRetries)%nat
                       then [1000 * Z.of_nat attempt] else [] in
                let '(r, later) := direct_loop call tc maxRetries (S fuel) (S attempt)
                                               (Some msg) in
                (r, waits ++ later)
            end).
    rewrite Hcall, (IH (S attempt)) by lia.
    destruct (decide (Some 429 = Some 429)) as [_|Hne]; [|now elim Hne].
    reflexivity.
Qed.

Lemma rate_limit_waits_doubling count : forall from,
  doubling_capped (rate_limit_waits from count) /\
  Forall (fun d => 0 < d <= 10000) (rate_limit_waits from count).
Proof.
  induction count as [|count IH]; intros from; [split; [exact I | constructor]|].
  destruct (IH (S from)) as [Hd Hall]. split.
  - unfold rate_limit_waits in *. cbn [seq map] in *.
    destruct count as [|count]; [exact I|].
    cbn [seq map doubling_capped] in *. split; [|exact Hd].
    rewrite Nat2Z.inj_succ, Z.pow_succ_r by lia.
    assert (0 < 2 ^ Z.of_nat from) by (apply Z.pow_pos_nonneg; lia). lia.
  - unfold rate_limit_waits in *. cbn [seq map]. constructor; [|exact Hall].
    assert (0 < 2 ^ Z.of_nat from) by (apply Z.pow_pos_nonneg; lia). lia.
Qed.

(** X21.  On a provider that answers every attempt with 429, the direct
    worker waits [min(1000 * 2^a, 10000)] ms behind every attempt [a], the
    last one included: the delays double from one attempt to the next up to
    the ten-second cap, and the record comes back as a failed result. *)
Theorem rate_limited_worker_backs_off_exponentially
    (call : nat -> attempt_outcome) (tc : testcase) (maxRetries : nat)
    (message : nat -> string) :
  (1 <= maxRetries)%nat ->
  (forall a, call a = Errored (Some 429) (message a)) ->
  generateEmbeddingDirect call tc maxRetries =
    (final_failure tc (Some (message maxRetries)), rate_limit_waits 1 maxRetries) /\
  doubling_capped (snd (generateEmbeddingDirect call tc maxRetries)) /\
  Forall (fun d => 0 < d <= 10000) (snd (generateEmbeddingDirect call tc maxRetries)) /\
  length (snd (generateEmbeddingDirect call tc maxRetries)) = maxRetries.
Proof.
  intros Hpos Hcall. unfold generateEmbeddingDirect.
  destruct maxRetries as [|n]; [lia|].
  rewrite (direct_loop_rate_limited call tc (S n) message Hcall n 1) by lia.
  destruct (rate_limit_waits_doubling (S n) 1) as [Hd Hall]. simpl snd.
  repeat split; try assumption.
  unfold rate_limit_waits. now rewrite length_map, length_seq.
Qed.

Lemma rate_limited_worker_backs_off_exponentially_witness :
  generateEmbeddingDirect (fun a => Errored (Some 429) "Too Many Requests") a_testcase 5 =
    (final_failure a_testcase (Some "Too Many Requests"%string), rate_limit_waits 1 5) /\
  doubling_capped
    (snd (generateEmbeddingDirect (fun a => Errored (Some 429) "Too Many Requests")
                                  a_testcase 5)) /\
  Forall (fun d => 0 < d <= 10000)
    (snd (generateEmbeddingDirect (fun a => Errored (Some 429) "Too Many Requests")
                                  a_testcase 5)) /\
  length (snd (generateEmbeddingDirect (fun a => Errored (Some 429) "Too Many Requests")
                                       a_testcase 5)) = 5%nat.
Proof.
  apply (rate_limited_worker_backs_off_exponentially
           (fun a => Errored (Some 429) "Too Many Requests") a_testcase 5
           (fun _ => "Too Many Requests"%string)).
  - lia.
  - reflexivity.
Defined.

End WorkerFacts.

(* ===================================================================== *)
(** * The main loop of the batch scripts *)
(* ===================================================================== *)

Section PipelineFacts.
Import JS Ingest Pipeline.

Lemma slices_from_concat {A} (size : nat) (arr : list A) : forall fuel i,
  (0 < size)%nat -> (length arr <= i + fuel)%nat ->
  concat (map snd (slices_from fuel size i arr)) = skipn i arr.
Proof.
  induction fuel as [|fuel IH]; intros i Hsize Hfuel; simpl.
  - symmetry. apply skipn_all2. lia.
  - destruct (Nat.ltb_spec i (length arr)) as [Hlt|Hge].
    + simpl. rewrite IH by lia.
      rewrite (Nat.add_comm i size), <- skipn_skipn. apply firstn_skipn.
    + symmetry. now apply skipn_all2.
Qed.

Lemma slices_concat {A} (size : nat) (arr : list A) :
  (0 < size)%nat -> concat (map snd (slices size arr)) = arr.
Proof. intros H. unfold slices. now rewrite slices_from_concat by lia. Qed.

Lemma slices_from_starts {A} (size : nat) (arr : list A) : forall fuel i j s,
  In (j, s) (slices_from fuel size i arr) -> (i <= j < length arr)%nat.
Proof.
  induction fuel as [|fuel IH]; intros i j s; simpl; [intros []|].
  destruct (Nat.ltb_spec i (length arr)) as [Hlt|Hge]; [|intros []].
  intros [[= <- _]|Hin]; [lia|]. apply IH in Hin. lia.
Qed.

Lemma successfulEmbeddings_length rs :
  (length (successfulEmbeddings rs) <= length rs)%nat.
Proof.
  unfold successfulEmbeddings.
  induction rs as [|r rs IH]; [simpl; lia|].
  change (omap ?f (r :: rs)) with (match f r with Some y => y :: omap f rs | None => omap f rs end).
  cbv beta. destruct r as [v|reason]; [destruct (has_error v)|]; simpl length; lia.
Qed.

Section Accounting.
Variable generate : (nat -> attempt_outcome) -> testcase -> nat -> settled * list Z.
Variable calls : nat -> nat -> attempt_outcome.
Variable insert : list embedding_value -> insert_result.
Variable cfg : config.
Hypothesis insert_accounts :
  forall group, (inserted (insert group) + failed (insert group) = length group)%nat.
Hypothesis batch_positive : (0 < BATCH_SIZE cfg)%nat.
Hypothesis sub_batch_positive : (0 < MONGODB_BATCH_SIZE cfg)%nat.

Lemma embeddingResults_length i batch :
  length (embeddingResults generate calls i batch) = length batch.
Proof.
  unfold embeddingResults, Fusion.indexed. rewrite length_map.
  generalize 0%nat. induction batch as [|tc batch IH]; intros n; simpl; [reflexivity|].
  now rewrite IH.
Qed.

Lemma insert_groups_account (groups : list (nat * list embedding_value)) : forall a b,
  let '(i, f) :=
    fold_left
      (fun '(insertedInBatch, failedInBatch) '(_, subBatch) =>
         let insertResult := insert subBatch in
         ((insertedInBatch + inserted insertResult)%nat,
          (failedInBatch + failed insertResult)%nat))
      groups (a, b) in
  (i + f = a + b + length (concat (map snd groups)))%nat.
Proof.
  induction groups as [|[j g] groups IH]; intros a b; simpl; [lia|].
  specialize (IH (a + inserted (insert g))%nat (b + failed (insert g))%nat).
  destruct (fold_left _ groups _) as [i f].
  rewrite length_app. pose proof (insert_accounts g). lia.
Qed.

Lemma insert_subbatches_account successful :
  (fst (insert_subbatches insert cfg successful) +
   snd (insert_subbatches insert cfg successful) = length successful)%nat.
Proof.
  unfold insert_subbatches.
  pose proof (insert_groups_account (slices (MONGODB_BATCH_SIZE cfg) successful) 0 0) as H.
  destruct (fold_left _ _ _) as [i f]. simpl.
  now rewrite slices_concat in H by assumption.
Qed.

Lemma process_batch_accounts total t i batch :
  let t' := process_batch generate calls insert cfg total t (i, batch) in
  (totalInserted t' + totalFailed t' =
   totalInserted t + totalFailed t + length batch)%nat /\
  processedCount t' = (processedCount t + length batch)%nat.
Proof.
  unfold process_batch.
  pose proof (insert_subbatches_account
                (successfulEmbeddings (embeddingResults generate calls i batch))) as Hsub.
  pose proof (successfulEmbeddings_length (embeddingResults generate calls i batch)) as Hle.
  rewrite embeddingResults_length in Hle.
  destruct (insert_subbatches insert cfg _) as [ins fl]. simpl in *.
  rewrite embeddingResults_length. lia.
Qed.

Lemma main_loop_accounts total (entries : list (nat * list testcase)) : forall t,
  let t' := fold_left (process_batch generate calls insert cfg total) entries t in
  (totalInserted t' + totalFailed t' =
   totalInserted t + totalFailed t + length (concat (map snd entries)))%nat /\
  processedCount t' = (processedCount t + length (concat (map snd entries)))%nat.
Proof.
  induction entries as [|[i batch] entries IH]; intros t; [simpl; lia|].
  cbn [fold_left map snd concat].
  specialize (IH (process_batch generate calls insert cfg total t (i, batch))).
  destruct (process_batch_accounts total t i batch) as [H1 H2].
  cbv zeta in *. rewrite length_app. lia.
Qed.

Lemma main_accounts testcases :
  let t := main generate calls insert cfg testcases in
  (totalInserted t + totalFailed t = length testcases)%nat /\
  processedCount t = length testcases.
Proof.
  unfold main.
  pose proof (main_loop_accounts (length testcases) (slices (BATCH_SIZE cfg) testcases)
                                 zero_totals) as H.
  cbv zeta in *. rewrite slices_concat in H by assumption. simpl in H. exact H.
Qed.
End Accounting.

Lemma testcases_writer_accounts insertMany group :
  (forall documents insertedCount,
     insertMany documents = Returned insertedCount -> insertedCount = length documents) ->
  (inserted (insertTestcasesBatch insertMany group) +
   failed (insertTestcasesBatch insertMany group) = length group)%nat.
Proof.
  intros Hdriver.
  pose proof (filter_length_le (fun item => negb (has_error item)) group) as Hle.
  unfold insertTestcasesBatch. rewrite !length_map.
  destruct (Nat.eqb_spec (length group) 0) as [E|_]; [simpl; lia|].
  destruct (Nat.eqb_spec (length (List.filter (fun item => negb (has_error item)) group)) 0)
    as [E|_]; [simpl; lia|].
  destruct (insertMany _) as [n|m] eqn:Hr; simpl; [|lia].
  apply Hdriver in Hr. rewrite length_map in Hr. lia.
Qed.

Lemma direct_writer_accounts insertMany group :
  (forall documents insertedCount,
     insertMany documents = Returned insertedCount -> insertedCount = length documents) ->
  (inserted (insertBatch insertMany group) +
   failed (insertBatch insertMany group) = length group)%nat.
Proof.
  intros Hdriver.
  pose proof (filter_length_le (fun item => negb (has_error item)) group) as Hle.
  unfold insertBatch. rewrite !length_map.
  destruct (Nat.eqb_spec (length group) 0) as [E|_]; [simpl; lia|].
  destruct (Nat.eqb_spec (length (List.filter (fun item => negb (has_error item)) group)) 0)
    as [E|_]; [simpl; lia|].
  destruct (insertMany _) as [n|m] eqn:Hr; simpl; [|lia].
  apply Hdriver in Hr. rewrite length_map in Hr. lia.
Qed.

(** X22.  At the end of either batch script every input record is accounted
    for: the count of inserted records plus the count of failed ones is the
    number of records read, and so is the processed count, whatever the
    provider answers and whichever bulk writes throw.  The driver is taken at
    its contract (a bulk write that resolves has inserted every document it
    was given). *)
Theorem batch_script_accounts_for_every_record
    (calls : nat -> nat -> attempt_outcome) (insertMany : list document -> outcome nat)
    (testcases : list testcase) :
  (forall documents insertedCount,
     insertMany documents = Returned insertedCount -> insertedCount = length documents) ->
  let testleaf := main generateTestcaseEmbedding calls (insertTestcasesBatch insertMany)
                       testleaf_config testcases in
  let direct := main generateEmbeddingDirect calls (insertBatch insertMany)
                     direct_config testcases in
  (totalInserted testleaf + totalFailed testleaf = length testcases)%nat /\
  processedCount testleaf = length testcases /\
  (totalInserted direct + totalFailed direct = length testcases)%nat /\
  processedCount direct = length testcases.
Proof.
  intros Hdriver testleaf direct.
  destruct (main_accounts generateTestcaseEmbedding calls (insertTestcasesBatch insertMany)
              testleaf_config
              (fun g => testcases_writer_accounts insertMany g Hdriver)
              ltac:(simpl; lia) ltac:(simpl; lia) testcases) as [H1 H2].
  destruct (main_accounts generateEmbeddingDirect calls (insertBatch insertMany)
              direct_config
              (fun g => direct_writer_accounts insertMany g Hdriver)
              ltac:(simpl; lia) ltac:(simpl; lia) testcases) as [H3 H4].
  auto.
Qed.

Definition flaky_provider (index attempt : nat) : attempt_outcome :=
  if (index =? 1)%nat then Errored (Some 500%Z) "Internal Server Error"
  else Embedded [1 # 2]%Q (1 # 1000000)%Q 10 "text-embedding-3-small".

Definition three_testcases : list testcase :=
  [{| tc_id := Some "TC-1"%string; tc_fields := ∅ |};
   {| tc_id := Some "TC-2"%string; tc_fields := ∅ |};
   {| tc_id := None; tc_fields := ∅ |}].

Lemma batch_script_accounts_for_every_record_witness :
  let testleaf := main generateTestcaseEmbedding flaky_provider
                       (insertTestcasesBatch strict_store) testleaf_config three_testcases in
  let direct := main generateEmbeddingDirect flaky_provider
                     (insertBatch strict_store) direct_config three_testcases in
  (totalInserted testleaf + totalFailed testleaf = length three_testcases)%nat /\
  processedCount testleaf = length three_testcases /\
  (totalInserted direct + totalFailed direct = length three_testcases)%nat /\
  processedCount direct = length three_testcases.
Proof.
  apply (batch_script_accounts_for_every_record flaky_provider strict_store three_testcases).
  intros documents insertedCount. unfold strict_store.
  destruct (forallb _ documents); [|intros H; inversion H]. now intros [= <-].
Defined.

Example batch_script_sample :
  let t := main generateTestcaseEmbedding flaky_provider
                (insertTestcasesBatch strict_store) testleaf_config three_testcases in
  (totalInserted t, totalFailed t, processedCount t, totalTokens t, delays t)
  = (2%nat, 1%nat, 3%nat, 20%nat, []).
Proof. vm_compute. reflexivity. Qed.

(** ** Inter-batch delays *)

Section Delays.
Variable generate : (nat -> attempt_outcome) -> testcase -> nat -> settled * list Z.
Variable calls : nat -> nat -> attempt_outcome.
Variable insert : list embedding_value -> insert_result.
Variable cfg : config.
Hypothesis batch_positive : (0 < BATCH_SIZE cfg)%nat.
Hypothesis step_nonneg : (0 <= delay_step cfg)%Z.

Definition delay_after (total : nat) (entry : nat * list testcase) : list Z :=
  if (fst entry + BATCH_SIZE cfg <? total)%nat
  then [adaptiveDelay cfg (fst entry / BATCH_SIZE cfg + 1)] else [].

Lemma main_loop_delays total entries : forall t,
  delays (fold_left (process_batch generate calls insert cfg total) entries t) =
  delays t ++ flat_map (delay_after total) entries.
Proof.
  induction entries as [|[i batch] entries IH]; intros t.
  - simpl. now rewrite app_nil_r.
  - cbn [fold_left flat_map]. rewrite IH. unfold process_batch.
    destruct (insert_subbatches insert cfg _) as [ins fl]. simpl delays.
    now rewrite <- app_assoc.
Qed.

Lemma adaptiveDelay_antitone n m :
  (n <= m)%nat -> (adaptiveDelay cfg m <= adaptiveDelay cfg n)%Z.
Proof. intros H. unfold adaptiveDelay. nia. Qed.

Lemma slices_delays (arr : list testcase) : forall fuel i,
  (length arr <= i + fuel)%nat ->
  let ds := flat_map (delay_after (length arr))
                     (slices_from fuel (BATCH_SIZE cfg) i arr) in
  length ds = pred (length (slices_from fuel (BATCH_SIZE cfg) i arr)) /\
  Forall (fun d => exists n, (i / BATCH_SIZE cfg + 1 <= n)%nat /\ d = adaptiveDelay cfg n) ds /\
  StronglySorted (fun a b => (b <= a)%Z) ds.
Proof.
  induction fuel as [|fuel IH]; intros i Hfuel; cbn [slices_from].
  - simpl. repeat split; constructor.
  - destruct (Nat.ltb_spec i (length arr)) as [Hlt|Hge];
      [|simpl; repeat split; constructor].
    cbv zeta. cbn [flat_map]. unfold delay_after in *. cbn [fst].
    destruct (Nat.ltb_spec (i + BATCH_SIZE cfg) (length arr)) as [Hmore|Hlast].
    + destruct (IH (i + BATCH_SIZE cfg)%nat ltac:(lia)) as (Hlen & Hall & Hsorted).
      assert (Hdiv : ((i + BATCH_SIZE cfg) / BATCH_SIZE cfg = i / BATCH_SIZE cfg + 1)%nat).
      { replace (i + BATCH_SIZE cfg)%nat with (i + 1 * BATCH_SIZE cfg)%nat by lia.
        apply Nat.div_add. lia. }
      assert (Hnonempty : (0 < length (slices_from fuel (BATCH_SIZE cfg)
                                          (i + BATCH_SIZE cfg) arr))%nat).
      { destruct fuel as [|fuel']; [lia|]. cbn [slices_from].
        destruct (Nat.ltb_spec (i + BATCH_SIZE cfg) (length arr)); [simpl; lia | lia]. }
      cbv zeta in Hlen, Hall, Hsorted. cbn [app length]. repeat split.
      * rewrite Hlen. lia.
      * constructor; [exists (i / BATCH_SIZE cfg + 1)%nat; split; [lia | reflexivity]|].
        eapply List.Forall_impl; [|exact Hall]. intros d (n & Hn & ->).
        exists n. split; [lia | reflexivity].
      * constructor; [exact Hsorted|].
        eapply List.Forall_impl; [|exact Hall]. intros d (n & Hn & ->).
        apply adaptiveDelay_antitone. lia.
    + assert (Hrest : slices_from fuel (BATCH_SIZE cfg) (i + BATCH_SIZE cfg) arr = []).
      { destruct fuel as [|fuel']; [reflexivity|]. cbn [slices_from].
        destruct (Nat.ltb_spec (i + BATCH_SIZE cfg) (length arr)); [lia | reflexivity]. }
      rewrite Hrest. simpl. repeat split; constructor.
Qed.

Lemma main_delays testcases :
  let ds := delays (main generate calls insert cfg testcases) in
  length ds = pred (length (slices (BATCH_SIZE cfg) testcases)) /\
  Forall (fun d => (delay_floor cfg <= d <=
                    Z.max (delay_floor cfg) (DELAY_BETWEEN_BATCHES cfg - delay_step cfg))%Z) ds /\
  StronglySorted (fun a b => (b <= a)%Z) ds.
Proof.
  unfold main. rewrite main_loop_delays. simpl app. unfold slices.
  destruct (slices_delays testcases (length testcases) 0 ltac:(lia)) as (Hlen & Hall & Hs).
  cbv zeta in *. repeat split; try assumption.
  eapply List.Forall_impl; [|exact Hall]. intros d (n & Hn & ->).
  unfold adaptiveDelay. nia.
Qed.
End Delays.

(** X23.  Between two batches both scripts wait once, never after the last
    batch; the waits never grow from one batch to the next and stay within
    the script's bounds: 100 to 495 ms for the batch script, 50 to 198 ms for
    the direct one. *)
Theorem inter_batch_delays_are_bounded_and_shrink
    (calls : nat -> nat -> attempt_outcome)
    (insert : list embedding_value -> insert_result) (testcases : list testcase) :
  let testleaf := delays (main generateTestcaseEmbedding calls insert
                               testleaf_config testcases) in
  let direct := delays (main generateEmbeddingDirect calls insert
                             direct_config testcases) in
  length testleaf = pred (length (slices (BATCH_SIZE testleaf_config) testcases)) /\
  Forall (fun d => (100 <= d <= 495)%Z) testleaf /\
  StronglySorted (fun a b => (b <= a)%Z) testleaf /\
  length direct = pred (length (slices (BATCH_SIZE direct_config) testcases)) /\
  Forall (fun d => (50 <= d <= 198)%Z) direct /\
  StronglySorted (fun a b => (b <= a)%Z) direct.
Proof.
  intros testleaf direct.
  destruct (main_delays generateTestcaseEmbedding calls insert testleaf_config
              ltac:(simpl; lia) ltac:(simpl; lia) testcases) as (H1 & H2 & H3).
  destruct (main_delays generateEmbeddingDirect calls insert direct_config
              ltac:(simpl; lia) ltac:(simpl; lia) testcases) as (H4 & H5 & H6).
  repeat split; assumption.
Qed.

Example delays_sample :
  delays (main generateTestcaseEmbedding flaky_provider (insertTestcasesBatch strict_store)
               testleaf_config (repeat {| tc_id := None; tc_fields := ∅ |} 120))
  = [495; 490]%Z.
Proof. vm_compute. reflexivity. Qed.

End PipelineFacts.

(* ===================================================================== *)
(** * More on the job tracker *)
(* ===================================================================== *)

Section JobsMore.
Import JS Jobs.

(** X24.  After a sweep a job is still registered exactly when it was
    registered before and started no more than one hour earlier; its status
    plays no part, and a surviving job is left as it was. *)
Theorem sweep_keeps_exactly_the_recent_jobs
    (jobs : registry) (now : Z) (jobId : string) (j : job) :
  getJob (sweep now jobs) jobId = Some j <->
  getJob jobs jobId = Some j /\ (now - oneHour <= startTime j)%Z.
Proof.
  unfold getJob, sweep. rewrite map_lookup_filter_Some. simpl. intuition lia.
Qed.

(** The registry a file leaves behind, exception or not. *)
Definition registry_after (r : (registry * list file_result) + (registry * halt))
    : registry :=
  match r with
  | inl (jobs, _) => jobs
  | inr (jobs, _) => jobs
  end.

Lemma process_file_registry child jobId (jobs : registry) rs fileName :
  exists u1 u2,
    registry_after (process_file child jobId (jobs, rs) fileName) =
      updateJob (updateJob jobs jobId u1) jobId u2 \/
    registry_after (process_file child jobId (jobs, rs) fileName) =
      updateJob jobs jobId u1.
Proof.
  unfold process_file.
  set (none := {| u_status := None; u_progress := None; u_results := None;
                  u_currentFile := None; u_endTime := None |}).
  destruct (child (length rs) fileName) as [m|m|code out err|m|]; simpl.
  - eexists _, none. right. reflexivity.
  - eexists _, _. left. reflexivity.
  - destruct (code =? 0)%Z; simpl; eexists _, _; left; reflexivity.
  - eexists _, none. right. reflexivity.
  - eexists _, none. right. reflexivity.
Qed.

(** A property of registries that every [updateJob] on [jobId] keeps is kept
    by the whole run. *)
Lemma processEmbeddings_preserves (P : registry -> Prop) child jobId finished fs :
  (forall jobs u, P jobs -> P (updateJob jobs jobId u)) ->
  forall jobs, P jobs -> P (fst (processEmbeddings child jobId finished jobs fs)).
Proof.
  intros Hupd jobs HP. unfold processEmbeddings.
  assert (Hfiles : forall l jobs rs, P jobs ->
            P (registry_after (process_files child jobId (jobs, rs) l)) /\
            (forall jobs' rs', process_files child jobId (jobs, rs) l = inl (jobs', rs') ->
                               P jobs')).
  { clear jobs HP. induction l as [|f l IH]; intros jobs rs HP.
    - simpl. split; [assumption|]. now intros jobs' rs' [= <- _].
    - cbn [process_files].
      assert (Hstep : P (registry_after (process_file child jobId (jobs, rs) f))).
      { destruct (process_file_registry child jobId jobs rs f) as (u1 & u2 & [-> | ->]);
          auto. }
      destruct (process_file child jobId (jobs, rs) f) as [[jobs1 rs1]|[jobs1 m]].
      + simpl in Hstep. apply (IH jobs1 rs1 Hstep).
      + simpl in *. split; [assumption|]. intros jobs' rs' H. inversion H. }
  destruct (Hfiles fs jobs [] HP) as [Hafter Hinl].
  destruct (process_files child jobId (jobs, []) fs) as [[jobs' rs']|[jobs' m]]; simpl.
  - apply Hupd. now apply (Hinl jobs' rs').
  - exact Hafter.
Qed.

(** X25.  A run of [processEmbeddings] only ever touches its own job: every
    job registered under another id is found unchanged afterwards, whatever
    happens to the files, a thrown exception included. *)
Theorem processEmbeddings_leaves_other_jobs_alone
    (child : nat -> string -> child_outcome) (jobId other : string) (finished : Z)
    (jobs : registry) (fs : list string) :
  jobId <> other ->
  getJob (fst (processEmbeddings child jobId finished jobs fs)) other = getJob jobs other.
Proof.
  intros Hne.
  apply (processEmbeddings_preserves
           (fun r => getJob r other = getJob jobs other) child jobId finished fs).
  - intros r u Hr. unfold getJob in *. now rewrite updateJob_other.
  - reflexivity.
Qed.

(** X26.  Run for a job that is not in the registry (it was evicted, or
    never created), [processEmbeddings] leaves the registry exactly as it
    was: nothing is created under that id. *)
Theorem processEmbeddings_without_its_job_changes_nothing
    (child : nat -> string -> child_outcome) (jobId : string) (finished : Z)
    (jobs : registry) (fs : list string) :
  getJob jobs jobId = None ->
  fst (processEmbeddings child jobId finished jobs fs) = jobs.
Proof.
  intros Hnone.
  apply (processEmbeddings_preserves (fun r => r = jobs) child jobId finished fs).
  - intros r u ->. now apply updateJob_absent.
  - reflexivity.
Qed.

(** X27.  While it runs, [processEmbeddings] never removes its job and never
    changes the job's id, file list, total or start time. *)
Theorem processEmbeddings_keeps_the_job_identity
    (child : nat -> string -> child_outcome) (jobId : string) (finished : Z)
    (jobs : registry) (fs : list string) (j : job) :
  getJob jobs jobId = Some j ->
  exists j',
    getJob (fst (processEmbeddings child jobId finished jobs fs)) jobId = Some j' /\
    id j' = id j /\ files j' = files j /\ total j' = total j /\
    startTime j' = startTime j.
Proof.
  intros Hj.
  apply (processEmbeddings_preserves
           (fun r => exists j', getJob r jobId = Some j' /\ id j' = id j /\
                                files j' = files j /\ total j' = total j /\
                                startTime j' = startTime j) child jobId finished fs).
  - intros r u (j' & Hj' & Hrest). exists (assign j' u).
    split; [now apply updateJob_present | exact Hrest].
  - exists j. auto.
Qed.

Definition two_jobs : registry :=
  snd (createJob 1700000000500 "zzzzzzzzz"
         (snd (createJob 1700000000000 "k3j9x0abc" ∅ three_files)) ["d.json"%string]).

Lemma processEmbeddings_leaves_other_jobs_alone_witness :
  getJob (fst (processEmbeddings all_failing "job-1700000000500-zzzzzzzzz"
                 1700000090000 two_jobs ["d.json"%string]))
         "job-1700000000000-k3j9x0abc"
  = getJob two_jobs "job-1700000000000-k3j9x0abc".
Proof.
  apply (processEmbeddings_leaves_other_jobs_alone all_failing
           "job-1700000000500-zzzzzzzzz" "job-1700000000000-k3j9x0abc").
  intros H. inversion H.
Defined.

Lemma processEmbeddings_without_its_job_changes_nothing_witness :
  fst (processEmbeddings all_failing "job-1700000000000-k3j9x0abc" 1700003700000
         (sweep 1700003600001 two_jobs) three_files)
  = sweep 1700003600001 two_jobs.
Proof.
  apply (processEmbeddings_without_its_job_changes_nothing all_failing
           "job-1700000000000-k3j9x0abc" 1700003700000
           (sweep 1700003600001 two_jobs) three_files).
  vm_compute. reflexivity.
Defined.

Lemma processEmbeddings_keeps_the_job_identity_witness :
  exists j',
    getJob (fst (processEmbeddings all_failing
                   (fst (createJob 1700000000000 "k3j9x0abc" ∅ three_files))
                   1700000090000
                   (snd (createJob 1700000000000 "k3j9x0abc" ∅ three_files)) three_files))
           (fst (createJob 1700000000000 "k3j9x0abc" ∅ three_files)) = Some j' /\
    id j' = "job-1700000000000-k3j9x0abc"%string /\ files j' = three_files /\
    total j' = 3%nat /\ startTime j' = 1700000000000%Z.
Proof.
  apply (processEmbeddings_keeps_the_job_identity all_failing
           (fst (createJob 1700000000000 "k3j9x0abc" ∅ three_files)) 1700000090000
           (snd (createJob 1700000000000 "k3j9x0abc" ∅ three_files)) three_files
           {| id := "job-1700000000000-k3j9x0abc"; files := three_files;
              status := "in-progress"; progress := 0; total := 3; results := [];
              startTime := 1700000000000; currentFile := None; endTime := None |}).
  vm_compute. reflexivity.
Defined.

Lemma process_files_app child jobId fs1 fs2 : forall st,
  process_files child jobId st (fs1 ++ fs2) =
  match process_files child jobId st fs1 with
  | inl st' => process_files child jobId st' fs2
  | inr e => inr e
  end.
Proof.
  induction fs1 as [|f fs1 IH]; intros st; [reflexivity|].
  cbn [app process_files].
  destruct (process_file child jobId st f) as [st'|e]; [apply IH | reflexivity].
Qed.

Lemma process_files_attempted_prefix child jobId fs : forall jobs rs,
  (forall n name, (length rs <= n < length rs + length fs)%nat ->
                  comes_back (child n name) = true) ->
  tracking jobs jobId rs ->
  exists jobs' added,
    process_files child jobId (jobs, rs) fs = inl (jobs', rs ++ added) /\
    length added = length fs /\
    tracking jobs' jobId (rs ++ added).
Proof.
  induction fs as [|f fs IH]; intros jobs rs Hatt Htr.
  - exists jobs, []. simpl. rewrite app_nil_r. auto.
  - destruct (process_file_tracking child jobId jobs rs f) as (jobs1 & r & Hstep & _ & _ & Htr1);
      [apply Hatt; simpl; lia | assumption |].
    destruct (IH jobs1 (rs ++ [r])) as (jobs2 & added & Hrun & Hlen & Htr2);
      [intros n name Hn; apply Hatt; rewrite length_app in Hn; simpl in *; lia
      | assumption |].
    exists jobs2, (r :: added). cbn [process_files]. rewrite Hstep, Hrun.
    rewrite <- app_assoc in *. simpl in *. repeat split; try assumption. now rewrite Hlen.
Qed.

(** A run that stops at a file leaves the job as it stood when the file was
    started. *)
Lemma halted_run child now finished suffix (jobs : registry) done f rest stop :
  (forall n name, (n < length done)%nat -> comes_back (child n name) = true) ->
  halts (child (length done) f) = Some stop ->
  let jobId := fst (createJob now suffix jobs (done ++ f :: rest)) in
  let created := snd (createJob now suffix jobs (done ++ f :: rest)) in
  snd (processEmbeddings child jobId finished created (done ++ f :: rest)) = Some stop /\
  exists j,
    getJob (fst (processEmbeddings child jobId finished created (done ++ f :: rest))) jobId
      = Some j /\
    status j = "in-progress"%string /\ endTime j = None /\
    currentFile j = Some f /\
    progress j = length done /\ length (results j) = length done.
Proof.
  intros Hdone Hstop jobId created.
  pose proof (createJob_tracking now suffix jobs (done ++ f :: rest)) as Htr0.
  fold jobId created in Htr0.
  destruct (process_files_attempted_prefix child jobId done created [])
    as (jobs1 & added & Hrun & Hlen & (j & Hj & Hst & Hpr & Hrs & Hend));
    [intros n name Hn; apply Hdone; simpl in Hn; lia | assumption |].
  simpl in Hrun, Hj, Hpr, Hrs.
  assert (Hfile : process_file child jobId (jobs1, added) f =
                  inr (updateJob jobs1 jobId
                         {| u_status := None; u_progress := None; u_results := None;
                            u_currentFile := Some f; u_endTime := None |}, stop)).
  { unfold process_file. rewrite Hlen.
    destruct (child (length done) f) as [m|m|code out err|m|]; simpl in Hstop;
      inversion Hstop; reflexivity. }
  unfold processEmbeddings. rewrite process_files_app, Hrun.
  cbn [process_files]. rewrite Hfile. cbn [fst snd].
  split; [reflexivity|].
  eexists. split; [eapply updateJob_present; exact Hj|]. simpl.
  repeat split; try assumption; congruence.
Qed.

(** X28.  When writing the temporary script of a file throws, the run stops
    there with that exception and the job is never completed: it stays
    ['in-progress'] with no end time, [currentFile] on the file that could
    not be written, and progress and results for the files handled before
    it. *)
Theorem aborted_run_leaves_the_job_in_progress
    (child : nat -> string -> child_outcome) (now finished : Z) (suffix : string)
    (jobs : registry) (done : list string) (f : string) (rest : list string)
    (message : string) :
  (forall n name, (n < length done)%nat -> comes_back (child n name) = true) ->
  child (length done) f = WriteThrew message ->
  let jobId := fst (createJob now suffix jobs (done ++ f :: rest)) in
  let created := snd (createJob now suffix jobs (done ++ f :: rest)) in
  snd (processEmbeddings child jobId finished created (done ++ f :: rest))
    = Some (Rejected message) /\
  exists j,
    getJob (fst (processEmbeddings child jobId finished created (done ++ f :: rest))) jobId
      = Some j /\
    status j = "in-progress"%string /\ endTime j = None /\
    currentFile j = Some f /\
    progress j = length done /\ length (results j) = length done.
Proof.
  intros Hdone Hthrow.
  apply (halted_run child now finished suffix jobs done f rest (Rejected message) Hdone).
  now rewrite Hthrow.
Qed.

Definition second_write_fails (n : nat) (fileName : string) : child_outcome :=
  match n with
  | O => Closed 0 "Processed 12/12" ""
  | _ => WriteThrew "ENOSPC: no space left on device"
  end.

Lemma aborted_run_leaves_the_job_in_progress_witness :
  let jobId := fst (createJob 1700000000000 "k3j9x0abc" ∅
                      (["a.json"] ++ "b.json" :: ["c.json"]))%string in
  let created := snd (createJob 1700000000000 "k3j9x0abc" ∅
                        (["a.json"] ++ "b.json" :: ["c.json"]))%string in
  snd (processEmbeddings second_write_fails jobId 1700000090000 created
         (["a.json"] ++ "b.json" :: ["c.json"]))%string
    = Some (Rejected "ENOSPC: no space left on device") /\
  exists j,
    getJob (fst (processEmbeddings second_write_fails jobId 1700000090000 created
                   (["a.json"] ++ "b.json" :: ["c.json"]))%string) jobId = Some j /\
    status j = "in-progress"%string /\ endTime j = None /\
    currentFile j = Some "b.json"%string /\
    progress j = length ["a.json"%string] /\
    length (results j) = length ["a.json"%string].
Proof.
  apply (aborted_run_leaves_the_job_in_progress second_write_fails 1700000000000
           1700000090000 "k3j9x0abc" ∅ ["a.json"%string] "b.json" ["c.json"%string]
           "ENOSPC: no space left on device").
  - intros n name Hn. simpl in Hn. assert (n = 0)%nat as -> by lia. reflexivity.
  - reflexivity.
Defined.




(** ** A job that outlives the retention *)

Lemma sweeps_evict times : forall (jobs : registry) jobId j late,
  jobs !! jobId = Some j ->
  In late times -> (startTime j < late - oneHour)%Z ->
  sweeps times jobs !! jobId = None.
Proof.
  induction times as [|now times IH]; intros jobs jobId j late Hj Hin Hlate; [destruct Hin|].
  unfold sweeps. cbn [fold_left].
  destruct (Z.lt_ge_cases (startTime j) (now - oneHour)) as [Hold|Hyoung].
  - apply sweeps_evicted. now apply (sweep_evicts jobs now jobId j).
  - destruct Hin as [->|Hin]; [lia|].
    apply (IH _ jobId j late); [|assumption..].
    apply (sweep_keeps jobs now jobId j Hj). lia.
Qed.

Lemma background_files_app child timer jobId fs1 fs2 : forall st,
  process_files_in_background child timer jobId st (fs1 ++ fs2) =
  match process_files_in_background child timer jobId st fs1 with
  | inl st' => process_files_in_background child timer jobId st' fs2
  | inr e => inr e
  end.
Proof.
  induction fs1 as [|f fs1 IH]; intros st; [reflexivity|].
  cbn [app process_files_in_background].
  destruct (process_file_in_background child timer jobId st f) as [st'|e];
    [apply IH | reflexivity].
Qed.

(** Once the job is gone, the rest of the run goes through without it. *)
Lemma background_files_without_job child timer jobId fs : forall (jobs : registry) rs,
  attempted child ->
  jobs !! jobId = None ->
  exists jobs' rs',
    process_files_in_background child timer jobId (jobs, rs) fs = inl (jobs', rs') /\
    jobs' !! jobId = None.
Proof.
  induction fs as [|f fs IH]; intros jobs rs Hatt Hnone.
  - exists jobs, rs. auto.
  - cbn [process_files_in_background]. unfold process_file_in_background.
    rewrite (updateJob_absent jobs jobId _ Hnone).
    pose proof (Hatt (length rs) f) as Hback.
    pose proof (sweeps_evicted (timer (length rs)) jobs jobId Hnone) as Hswept.
    destruct (child (length rs) f) as [m|m|code out err|m|];
      try (simpl in Hback; inversion Hback); cbv zeta.
    + rewrite (updateJob_absent jobs jobId _ Hnone). now apply IH.
    + destruct (code =? 0)%Z;
        rewrite (updateJob_absent _ jobId _ Hswept); now apply IH.
Qed.

(** X30.  A job that is still running when the sweep comes by more than one
    hour after its start is deleted and never comes back: the run goes on to
    its last line, every later update, the final one included, finds no job
    to update, and the job is not found afterwards, whatever the outcomes of
    its files. *)
Theorem overdue_job_is_evicted_for_good
    (child : nat -> string -> child_outcome) (timer : nat -> list Z)
    (now finished : Z) (suffix : string) (jobs : registry)
    (done : list string) (f : string) (rest : list string)
    (code : Z) (output error : string) (late : Z) :
  attempted child ->
  (forall n t, (n < length done)%nat -> In t (timer n) -> (t - oneHour <= now)%Z) ->
  child (length done) f = Closed code output error ->
  In late (timer (length done)) ->
  (now < late - oneHour)%Z ->
  let jobId := fst (createJob now suffix jobs (done ++ f :: rest)) in
  let created := snd (createJob now suffix jobs (done ++ f :: rest)) in
  let final := processEmbeddings_in_background child timer jobId finished created
                 (done ++ f :: rest) in
  snd final = None /\
  getJob (fst final) jobId = None /\
  job_route (fst final) jobId = NotFound.
Proof.
  intros Hatt Hret Hclosed Hin Hlate jobId created final.
  pose proof (createJob_tracking_since now suffix jobs (done ++ f :: rest)) as Htr0.
  fold jobId created in Htr0.
  destruct (background_files_tracking child timer jobId now done created []
              (fun n name _ => Hatt n name)
              (fun n t Hn => Hret n t (proj2 Hn)) Htr0)
    as (jobs1 & added & Hrun & Hfiles & _ & (j & Hj & _ & _ & _ & _ & Hstart)).
  simpl in Hrun, Hj.
  assert (Hlen : length added = length done) by now rewrite <- Hfiles, length_map.
  set (u1 := {| u_status := None; u_progress := None; u_results := None;
                u_currentFile := Some f; u_endTime := None |}).
  assert (Hgone : sweeps (timer (length done)) (updateJob jobs1 jobId u1) !! jobId = None).
  { apply (sweeps_evict _ _ jobId (assign j u1) late);
      [now apply updateJob_present | assumption | simpl; lia]. }
  assert (Hfile : exists jobs2 rs2,
            process_file_in_background child timer jobId (jobs1, added) f
              = inl (jobs2, rs2) /\ jobs2 !! jobId = None).
  { unfold process_file_in_background. rewrite Hlen, Hclosed. cbv zeta. fold u1.
    destruct (code =? 0)%Z; do 2 eexists; (split; [reflexivity|]);
      now rewrite (updateJob_absent _ jobId _ Hgone). }
  destruct Hfile as (jobs2 & rs2 & Hfile & Hnone2).
  destruct (background_files_without_job child timer jobId rest jobs2 rs2 Hatt Hnone2)
    as (jobs3 & rs3 & Hrest & Hnone3).
  assert (Hfinal : final = (jobs3, None)).
  { subst final. unfold processEmbeddings_in_background.
    rewrite background_files_app, Hrun. cbn [process_files_in_background].
    rewrite Hfile, Hrest. now rewrite (updateJob_absent jobs3 jobId _ Hnone3). }
  rewrite Hfinal. unfold job_route, getJob. cbn [fst snd]. rewrite Hnone3. auto.
Qed.

Lemma overdue_job_is_evicted_for_good_witness :
  let jobId := fst (createJob 1700000000000 "k3j9x0abc" ∅ three_files) in
  let created := snd (createJob 1700000000000 "k3j9x0abc" ∅ three_files) in
  let final := processEmbeddings_in_background all_closing timer_past_the_hour jobId
                 1700003700000 created three_files in
  snd final = None /\
  getJob (fst final) jobId = None /\
  job_route (fst final) jobId = NotFound.
Proof.
  apply (overdue_job_is_evicted_for_good all_closing timer_past_the_hour
           1700000000000 1700003700000 "k3j9x0abc" ∅
           ["a.json"%string] "b.json" ["c.json"%string]
           1 "" "Testleaf API error" 1700003600001).
  - intros n fileName. unfold all_closing. destruct n as [|[|n]]; reflexivity.
  - intros n t Hn. simpl in Hn. assert (n = 0)%nat as -> by lia. intros [].
  - reflexivity.
  - simpl. right. left. reflexivity.
  - vm_compute. reflexivity.
Defined.

End JobsMore.
